(** * A shallow embedding of the k-d tree of [kdtree.go]

    The development follows the Go source function by function.

    Modelling conventions.
    - A [*Node] is a value of the inductive type [Node]; the nil pointer is
      [nil_node].  Nodes are uniquely owned by their parent, so the in-place
      updates of [insert] and [insertBounded] are functional updates.
    - A [*Bounding] is an [option Bounding].
    - Go's [int] and [Dim] are [Z]; [%] is [Z.rem], which panics on a zero
      divisor.  Additions on values a caller can set freely (planes, depths,
      [Count]) are wrapped to 64 bits ([wrap_int]); indices into a slice stay
      below its length, so index arithmetic is not wrapped.
    - A [float64] distance is a finite value or [+Inf] (type [float64]
      below).  The code compares distances, takes [math.Min] of two and
      returns them; it never computes with them, so a finite distance is
      kept as the integer that a strictly increasing reading of the finite
      float64 values gives it.  No arithmetic is assumed exact: [Distance] returns
      whatever float64 the implementation computes, rounded or [+Inf], and
      the one product of the tree, [c * c] in the searches, is the operation
      [Square] of the point contract, with float64 rounding and overflow.
      The searches are verified from order laws that float64 arithmetic
      satisfies ([DistanceLaws]); module [F64] is an implementation with
      binary64 rounding.  NaN and a distance of [-Inf] are outside the
      model: a [Compare] or a [Distance] that returns one breaks the point
      contract.
    - A function that can panic returns a [result]; [Panic] is a Go run-time
      panic, [OutOfFuel] only arises for the fuel-indexed loops and is proved
      unreachable where a claim needs a value. *)

From Stdlib Require Import ZArith List Bool Lia Permutation Sorted.
Import ListNotations.
Open Scope Z_scope.

(** ** Results of partial computations *)

Inductive result (A : Type) : Type :=
| Ok (a : A)
| Panic
| OutOfFuel.
Arguments Ok {A} a.
Arguments Panic {A}.
Arguments OutOfFuel {A}.

Definition bind {A B : Type} (m : result A) (k : A -> result B) : result B :=
  match m with
  | Ok a => k a
  | Panic => Panic
  | OutOfFuel => OutOfFuel
  end.

Notation "x <- m ;; k" := (bind m (fun x => k))
  (at level 61, m at next level, right associativity).
Notation "' pat <- m ;; k" := (bind m (fun x => match x with pat => k end))
  (at level 61, pat pattern, m at next level, right associativity).

Fixpoint mapM {A B : Type} (f : A -> result B) (l : list A) : result (list B) :=
  match l with
  | [] => Ok []
  | a :: l' => b <- f a ;; bs <- mapM f l' ;; Ok (b :: bs)
  end.

(** ** Machine integers and floats *)

Definition Dim := Z.

Definition wrap_int (x : Z) : Z := (x + 2 ^ 63) mod 2 ^ 64 - 2 ^ 63.

(** Go's [a % b] on [int]: truncated remainder, panic on [b = 0]. *)
Definition go_rem (a b : Z) : result Z :=
  if b =? 0 then Panic else Ok (Z.rem a b).

Inductive float64 : Type :=
| Fin (x : Z)
| Inf.

Definition flt (a b : float64) : bool :=
  match a, b with
  | Fin x, Fin y => x <? y
  | Fin _, Inf => true
  | Inf, _ => false
  end.

Definition fle (a b : float64) : bool :=
  match a, b with
  | Fin x, Fin y => x <=? y
  | _, Inf => true
  | Inf, Fin _ => false
  end.

Definition fmin (a b : float64) : float64 := if flt b a then b else a.

(** Binary64 arithmetic on integer values: the float64 operations of Go,
    restricted to operands that are integers.  An integer is a float64 when
    its significand fits 53 bits; a result is rounded to the nearest such
    integer, ties to the even significand, and is infinite from [2 ^ 1024]
    on. *)
Module Binary64.

(** [a] rounded to a multiple of [2 ^ e], for [0 <= a] and [1 <= e]. *)
Definition round_at (e a : Z) : Z :=
  let m := a / 2 ^ e in
  let r := a mod 2 ^ e in
  let h := 2 ^ (e - 1) in
  (if (h <? r) || ((r =? h) && Z.odd m) then m + 1 else m) * 2 ^ e.

(** Rounding to 53 significant bits; the exponent is not bounded here. *)
Definition round (z : Z) : Z :=
  let a := Z.abs z in
  let e := Z.log2 a - 52 in
  if e <=? 0 then z else Z.sgn z * round_at e a.

(** A rounded non-negative value as a [float64]: overflow gives [+Inf]. *)
Definition of_Z (z : Z) : float64 := if z <? 2 ^ 1024 then Fin z else Inf.

(** [x - y].  A result of magnitude [2 ^ 1024] or more stands for an
    infinity of that sign. *)
Definition sub (x y : Z) : Z := round (x - y).

(** [c * c]. *)
Definition square (c : Z) : float64 := of_Z (round (c * c)).

(** The float64 values that are not negative: an integer that rounding
    leaves unchanged, or [+Inf]. *)
Definition is_float (f : float64) : Prop :=
  match f with
  | Fin x => 0 <= x /\ round x = x
  | Inf => True
  end.

(** [a + b], for [a] and [b] that are not negative. *)
Definition add (a b : float64) : float64 :=
  match a, b with
  | Fin x, Fin y => of_Z (round (x + y))
  | _, _ => Inf
  end.

End Binary64.

(** ** The point contract *)

Record Bounding (P : Type) : Type := mkBounding { b0 : P; b1 : P }.
Arguments mkBounding {P} b0 b1.
Arguments b0 {P} b.
Arguments b1 {P} b.

(** [Comparable] with the optional [Extender] capability.  [Extender c] is
    the outcome of the type assertion [c.(extender)]: [Some] of the point's
    [Extend] method when its dynamic type has one.

    [Distance] returns a [float64], rounded as the implementation rounds
    it, and [+Inf] when the computation overflows.  [Compare] returns a
    float64 of which the code reads the sign (insertion, [Contains], the
    traversals and the searches) and, in the searches only, the square
    [c * c].  Its result is kept as an integer with the same sign: [Compare]
    reads the float64 through a strictly increasing map into the integers
    that sends 0 to 0 (the value itself on integer-valued vectors, the value
    scaled by 2^1074 in general, infinities beyond the finite values), and
    [Square c] is the float64 product [c * c] of the result read as [c],
    with the rounding and the overflow of float64.  No law makes [Square c]
    the exact square of [c]. *)
Class Comparable (P : Type) : Type := {
  Clone : P -> P;
  Compare : P -> P -> Dim -> Z;
  Dims : P -> Z;
  Distance : P -> P -> float64;
  Square : Z -> float64;
  Extender : P -> option (option (Bounding P) -> option (Bounding P))
}.

(** ** Slices of points: the parts of [Interface] that do not depend on the
    implementation *)

Definition Len {A : Type} (p : list A) : Z := Z.of_nat (length p).

Definition Index {A : Type} (p : list A) (i : Z) : result A :=
  if (0 <=? i) && (i <? Len p) then
    match nth_error p (Z.to_nat i) with
    | Some x => Ok x
    | None => Panic
    end
  else Panic.

Definition Slice {A : Type} (p : list A) (start stop : Z) : result (list A) :=
  if (0 <=? start) && (start <=? stop) && (stop <=? Len p) then
    Ok (firstn (Z.to_nat (stop - start)) (skipn (Z.to_nat start) p))
  else Panic.

(** Replace element [i]; the caller has checked the index. *)
Fixpoint update {A : Type} (l : list A) (i : nat) (x : A) : list A :=
  match l, i with
  | [], _ => []
  | _ :: l', O => x :: l'
  | a :: l', S i' => a :: update l' i' x
  end.

Section KDTree.

Context {P : Type} `{Comparable P}.

(** ** Bounding volumes *)

Definition axes (c : P) : list Dim :=
  map Z.of_nat (seq 0 (Z.to_nat (Dims c))).

(** [Contains] on a [*Bounding] receiver, which may be nil. *)
Definition Contains (b : option (Bounding P)) (c : P) : bool :=
  match b with
  | None => true
  | Some b =>
      forallb (fun d => negb ((Compare c (b0 b) d <? 0) || (0 <? Compare c (b1 b) d)))
              (axes c)
  end.

(** ** Nodes and trees *)

Inductive Node : Type :=
| nil_node
| node (Point : P) (Plane : Dim) (Left Right : Node) (Bnd : option (Bounding P)).

Record Tree : Type := mkTree { Root : Node; Count : Z }.

Definition is_nil (n : Node) : bool :=
  match n with nil_node => true | _ => false end.

(** [n.Bounding]; dereferencing a nil node panics. *)
Definition Node_Bounding (n : Node) : result (option (Bounding P)) :=
  match n with
  | nil_node => Panic
  | node _ _ _ _ b => Ok b
  end.

Definition Node_Point (n : Node) : result P :=
  match n with
  | nil_node => Panic
  | node p _ _ _ _ => Ok p
  end.

Definition set_Bounding (n : Node) (b : option (Bounding P)) : Node :=
  match n with
  | nil_node => nil_node
  | node p pl l r _ => node p pl l r b
  end.

(** The points stored in a subtree, in order (left, node, right). *)
Fixpoint points (n : Node) : list P :=
  match n with
  | nil_node => []
  | node p _ l r _ => points l ++ p :: points r
  end.

(** ** Construction *)

Section Build.

(** The point source.  [Pivot p plane] rearranges the slice in place and
    returns the pivot index: the model returns the rearranged slice with the
    index.  [Bounder] is the outcome of the type assertion [p.(bounder)]:
    [Some] of the [Bounds] method when the source has one. *)
Variable Pivot : list P -> Dim -> list P * Z.
Variable Bounder : option (list P -> option (Bounding P)).

Fixpoint build (fuel : nat) (p : list P) (plane : Dim) : result Node :=
  if Len p =? 0 then Ok nil_node
  else
    match fuel with
    | O => OutOfFuel
    | S fuel' =>
        let '(p, piv) := Pivot p plane in
        d <- Index p piv ;;
        np <- go_rem (wrap_int (plane + 1)) (Dims d) ;;
        lp <- Slice p 0 piv ;;
        l <- build fuel' lp np ;;
        rp <- Slice p (piv + 1) (Len p) ;;
        r <- build fuel' rp np ;;
        Ok (node d plane l r None)
    end.

Fixpoint buildBounded (Bounds : list P -> option (Bounding P))
         (fuel : nat) (p : list P) (plane : Dim) (bounding : bool) : result Node :=
  if Len p =? 0 then Ok nil_node
  else
    match fuel with
    | O => OutOfFuel
    | S fuel' =>
        let '(p, piv) := Pivot p plane in
        d <- Index p piv ;;
        np <- go_rem (wrap_int (plane + 1)) (Dims d) ;;
        let b := if bounding then Bounds p else None in
        lp <- Slice p 0 piv ;;
        l <- buildBounded Bounds fuel' lp np bounding ;;
        rp <- Slice p (piv + 1) (Len p) ;;
        r <- buildBounded Bounds fuel' rp np bounding ;;
        Ok (node d plane l r b)
    end.

(** [New]; every recursive call works on a strictly shorter slice, so the
    length of the source is enough fuel. *)
Definition New (p : list P) (bounding : bool) : result Tree :=
  match Bounder with
  | Some Bounds =>
      if bounding then
        r <- buildBounded Bounds (length p) p 0 bounding ;;
        Ok (mkTree r (Len p))
      else
        r <- build (length p) p 0 ;;
        Ok (mkTree r (Len p))
  | None =>
      r <- build (length p) p 0 ;;
      Ok (mkTree r (Len p))
  end.

End Build.

(** ** Insertion *)

Fixpoint insert (n : Node) (c : P) (d : Dim) : result Node :=
  match n with
  | nil_node => Ok (node c d nil_node nil_node None)
  | node p pl l r b =>
      d <- go_rem (wrap_int (pl + 1)) (Dims c) ;;
      if Compare c p pl <=? 0 then
        l' <- insert l c d ;; Ok (node p pl l' r b)
      else
        r' <- insert r c d ;; Ok (node p pl l r' b)
  end.

Fixpoint insertBounded (n : Node) (c : P)
         (Extend : option (Bounding P) -> option (Bounding P))
         (d : Dim) (bounding : bool) : result Node :=
  match n with
  | nil_node =>
      let b := if bounding then Some (mkBounding (Clone c) (Clone c)) else None in
      Ok (node c d nil_node nil_node b)
  | node p pl l r b =>
      let b := if bounding then Extend b else b in
      d <- go_rem (wrap_int (pl + 1)) (Dims c) ;;
      if Compare c p pl <=? 0 then
        l' <- insertBounded l c Extend d bounding ;; Ok (node p pl l' r b)
      else
        r' <- insertBounded r c Extend d bounding ;; Ok (node p pl l r' b)
  end.

Definition has_Bounding (n : Node) : bool :=
  match n with
  | node _ _ _ _ (Some _) => true
  | _ => false
  end.

Definition Insert (t : Tree) (c : P) (bounding : bool) : result Tree :=
  let count := wrap_int (Count t + 1) in
  let bounding := if is_nil (Root t) then bounding else has_Bounding (Root t) in
  match Extender c with
  | Some Extend =>
      if bounding then
        r <- insertBounded (Root t) c Extend 0 bounding ;;
        Ok (mkTree r count)
      else
        r <- insert (Root t) c 0 ;;
        Ok (mkTree r count)
  | None =>
      (* If we are not rebounding, mark the tree as non-bounded. *)
      let root := set_Bounding (Root t) None in
      r <- insert root c 0 ;;
      Ok (mkTree r count)
  end.

Definition Tree_Len (t : Tree) : Z := Count t.

Definition Tree_Contains (t : Tree) (c : P) : result bool :=
  b <- Node_Bounding (Root t) ;;
  match b with
  | None => Ok true
  | Some _ => Ok (Contains b c)
  end.

(** ** Single nearest neighbour *)

Fixpoint search (n : Node) (q : P) (dist : float64) : Node * float64 :=
  match n with
  | nil_node => (nil_node, Inf)
  | node p pl l r _ =>
      let c := Compare q p pl in
      let dist := fmin dist (Distance q p) in
      let bn := n in
      if c <=? 0 then
        let '(ln, ld) := search l q dist in
        let '(bn, dist) := if flt ld dist then (ln, ld) else (bn, dist) in
        if fle (Square c) dist then
          let '(rn, rd) := search r q dist in
          if flt rd dist then (rn, rd) else (bn, dist)
        else (bn, dist)
      else
        let '(rn, rd) := search r q dist in
        let '(bn, dist) := if flt rd dist then (rn, rd) else (bn, dist) in
        if fle (Square c) dist then
          let '(ln, ld) := search l q dist in
          if flt ld dist then (ln, ld) else (bn, dist)
        else (bn, dist)
  end.

(** [Nearest]; the absent point is [None]. *)
Definition Nearest (t : Tree) (q : P) : option P * float64 :=
  match Root t with
  | nil_node => (None, Inf)
  | _ =>
      match search (Root t) q Inf with
      | (nil_node, _) => (None, Inf)
      | (node p _ _ _ _, dist) => (Some p, dist)
      end
  end.

(** ** n nearest neighbours *)

Record NodeDist : Type := mkNodeDist { nd_Node : Node; Dist : float64 }.

(** A slice of candidates with its capacity.  [container/heap] and
    [sort.Sort] see it through [Len], [Less], [Swap], [Push] and [Pop]. *)
Record nDists : Type := mkNDists { items : list NodeDist; cap : Z }.

(** [make(nDists, 1, n)] panics unless [1 <= n]; the first element is the
    sentinel: no node, distance [+Inf]. *)
Definition newNDists (n : Z) : result nDists :=
  if 1 <=? n then Ok (mkNDists [mkNodeDist nil_node Inf] n) else Panic.

Definition nd_Len (h : list NodeDist) : Z := Len h.

Definition nd_Less (h : list NodeDist) (i j : Z) : result bool :=
  a <- Index h i ;; b <- Index h j ;; Ok (flt (Dist b) (Dist a)).

Definition nd_Swap (h : list NodeDist) (i j : Z) : result (list NodeDist) :=
  a <- Index h i ;; b <- Index h j ;;
  Ok (update (update h (Z.to_nat i) b) (Z.to_nat j) a).

Definition nd_Push (h : list NodeDist) (x : NodeDist) : list NodeDist := h ++ [x].

Definition nd_Pop (h : list NodeDist) : result (NodeDist * list NodeDist) :=
  x <- Index h (Len h - 1) ;; Ok (x, removelast h).

(** [up] and [down] of Go's [container/heap]; each iteration moves one level
    in the implicit binary tree, so the length of the slice bounds the number
    of iterations. *)
Fixpoint heap_up (fuel : nat) (h : list NodeDist) (j : Z) : result (list NodeDist) :=
  match fuel with
  | O => OutOfFuel
  | S fuel' =>
      let i := Z.quot (j - 1) 2 in
      if i =? j then Ok h
      else
        lt <- nd_Less h j i ;;
        if negb lt then Ok h
        else h' <- nd_Swap h i j ;; heap_up fuel' h' i
  end.

Fixpoint heap_down (fuel : nat) (h : list NodeDist) (i n : Z) : result (list NodeDist) :=
  match fuel with
  | O => OutOfFuel
  | S fuel' =>
      let j1 := 2 * i + 1 in
      if (n <=? j1) || (j1 <? 0) then Ok h
      else
        let j2 := j1 + 1 in
        lt21 <- (if j2 <? n then nd_Less h j2 j1 else Ok false) ;;
        let j := if lt21 then j2 else j1 in
        lt <- nd_Less h j i ;;
        if negb lt then Ok h
        else h' <- nd_Swap h i j ;; heap_down fuel' h' j n
  end.

Definition heap_Push (h : list NodeDist) (x : NodeDist) : result (list NodeDist) :=
  let h := nd_Push h x in
  heap_up (S (length h)) h (nd_Len h - 1).

Definition heap_Pop (h : list NodeDist) : result (NodeDist * list NodeDist) :=
  let n := nd_Len h - 1 in
  h <- nd_Swap h 0 n ;;
  h <- heap_down (S (length h)) h 0 n ;;
  nd_Pop h.

Definition Head (nd : nDists) : result NodeDist := Index (items nd) 0.

Definition Keep (nd : nDists) (n : NodeDist) : result nDists :=
  h <- Head nd ;;
  if flt (Dist n) (Dist h) then
    it <- (if Len (items nd) =? cap nd
           then '(_, it) <- heap_Pop (items nd) ;; Ok it
           else Ok (items nd)) ;;
    it <- heap_Push it n ;;
    Ok (mkNDists it (cap nd))
  else Ok nd.

Fixpoint searchN (n : Node) (q : P) (dists : nDists) : result nDists :=
  match n with
  | nil_node => Ok dists
  | node p pl l r _ =>
      let c := Compare q p pl in
      dists <- Keep dists (mkNodeDist n (Distance q p)) ;;
      if c <=? 0 then
        dists <- searchN l q dists ;;
        h <- Head dists ;;
        if fle (Square c) (Dist h) then searchN r q dists else Ok dists
      else
        dists <- searchN r q dists ;;
        h <- Head dists ;;
        if fle (Square c) (Dist h) then searchN l q dists else Ok dists
  end.

Section NearestN.

(** [sort.Sort] applied to an [nDists]: it orders the slice by [Less], that
    is by decreasing distance.  The algorithm belongs to Go's library and is
    a parameter here. *)
Variable sort_Sort : list NodeDist -> list NodeDist.

Definition NearestN (t : Tree) (n : Z) (q : P) : result (list P * list float64) :=
  if is_nil (Root t) then Ok ([], [Inf])
  else
    nd0 <- newNDists n ;;
    nd <- searchN (Root t) q nd0 ;;
    if Len (items nd) =? 1 then
      h <- Index (items nd) 0 ;;
      match nd_Node h with
      | nil_node => Ok ([], [Inf])
      | node p _ _ _ _ => Ok ([p], [Dist h])
      end
    else
      let nd := rev (sort_Sort (items nd)) in
      ns <- mapM (fun x => Node_Point (nd_Node x)) nd ;;
      Ok (ns, map Dist nd).

End NearestN.

(** ** Traversal *)

Section Traversal.

(** An [Operation] may have effects; they are threaded through a state of
    type [S]. *)
Variable S : Type.
Definition Operation : Type := S -> P -> option (Bounding P) -> Z -> S * bool.

Fixpoint Node_do (n : Node) (fn : Operation) (depth : Z) (s : S) : result (S * bool) :=
  match n with
  | nil_node => Panic
  | node p _ l r b =>
      '(s, done) <- (if is_nil l then Ok (s, false)
                     else Node_do l fn (wrap_int (depth + 1)) s) ;;
      if done then Ok (s, true)
      else
        let '(s, done) := fn s p b depth in
        if done then Ok (s, true)
        else if is_nil r then Ok (s, done)
        else Node_do r fn (wrap_int (depth + 1)) s
  end.

Definition Do (t : Tree) (fn : Operation) (s : S) : result (S * bool) :=
  if is_nil (Root t) then Ok (s, false) else Node_do (Root t) fn 0 s.

Fixpoint doBounded (n : Node) (fn : Operation) (b : Bounding P) (depth : Z) (s : S)
  : result (S * bool) :=
  match n with
  | nil_node => Panic
  | node p pl l r _ =>
      let lc := Compare (b0 b) p pl in
      let hc := Compare (b1 b) p pl in
      '(s, done) <- (if (lc <? 0) && negb (is_nil l)
                     then doBounded l fn b (wrap_int (depth + 1)) s
                     else Ok (s, false)) ;;
      if done then Ok (s, true)
      else
        '(s, done) <- (if Contains (Some b) p
                       then Ok (fn s p (Some b) depth)
                       else Ok (s, done)) ;;
        if done then Ok (s, true)
        else if (0 <? hc) && negb (is_nil r)
        then doBounded r fn b (wrap_int (depth + 1)) s
        else Ok (s, done)
  end.

Definition DoBounded (t : Tree) (fn : Operation) (b : option (Bounding P)) (s : S)
  : result (S * bool) :=
  if is_nil (Root t) then Ok (s, false)
  else
    match b with
    | None => Node_do (Root t) fn 0 s
    | Some b => doBounded (Root t) fn b 0 s
    end.

End Traversal.

End KDTree.

Arguments Node : clear implicits.
Arguments Tree : clear implicits.
Arguments NodeDist : clear implicits.
Arguments nDists : clear implicits.

(** ** Invariants and contracts *)

Section Invariants.

Context {P : Type} `{Comparable P}.

(** The ordering invariant: along a node's plane, the points of the left
    subtree compare [<= 0] with the node's point and those of the right
    subtree compare [> 0]. *)
Fixpoint ordered (n : Node P) : Prop :=
  match n with
  | nil_node => True
  | node p pl l r _ =>
      Forall (fun x => Compare x p pl <= 0) (points l) /\
      Forall (fun x => 0 < Compare x p pl) (points r) /\
      ordered l /\ ordered r
  end.

(** Every splitting plane is an axis of a [k]-dimensional point. *)
Fixpoint planes_in (k : Z) (n : Node P) : Prop :=
  match n with
  | nil_node => True
  | node _ pl l r _ => 0 <= pl < k /\ planes_in k l /\ planes_in k r
  end.

(** Every bounding volume that is present contains the points of its own
    subtree; the executable check and the nodes it looks at. *)
Fixpoint bounds_cover (n : Node P) : bool :=
  match n with
  | nil_node => true
  | node _ _ l r b =>
      forallb (Contains b) (points n) && bounds_cover l && bounds_cover r
  end.

(** Every node carries a bounding volume, and it contains the points of the
    node's subtree. *)
Fixpoint covered (n : Node P) : bool :=
  match n with
  | nil_node => true
  | node _ _ l r b =>
      match b with
      | Some _ => forallb (Contains b) (points n) && covered l && covered r
      | None => false
      end
  end.

(** No node carries a bounding volume. *)
Fixpoint unbounded (n : Node P) : bool :=
  match n with
  | nil_node => true
  | node _ _ l r b =>
      match b with None => unbounded l && unbounded r | Some _ => false end
  end.

(** The postcondition of [Pivot] on a non-empty slice: the slice is
    rearranged, the returned index is in range, the elements before it are
    not larger than the pivot along the plane and those after it are
    larger. *)
Definition Pivot_ok (Pivot : list P -> Dim -> list P * Z) : Prop :=
  forall p plane, p <> [] ->
    let '(p', piv) := Pivot p plane in
    Permutation p p' /\ 0 <= piv < Len p' /\
    forall d, Index p' piv = Ok d ->
      Forall (fun x => Compare x d plane <= 0) (firstn (Z.to_nat piv) p') /\
      Forall (fun x => 0 < Compare x d plane) (skipn (Z.to_nat (piv + 1)) p').

(** Along an axis [Compare] is a difference of coordinates.  The bounded
    traversal relies on it to relate the corners of a volume, a node and the
    points below the node. *)
Class ComparableLaws : Prop := {
  Compare_add : forall a b c d,
    0 <= d < Dims a -> Dims b = Dims a -> Dims c = Dims a ->
    Compare a c d = Compare a b d + Compare b c d
}.

(** What the nearest-neighbour searches expect of [Compare] and [Distance]:
    a point [x] that lies on the other side of the plane of [n] than the
    query [q] is at least as far from [q] as the plane is, the distance to
    the plane being the float64 product [c * c] of [c = Compare q n d]; and
    no distance is negative.  Both are order properties.  An implementation
    in float64 arithmetic has them although it rounds, since rounding is
    monotone: with [q_d <= n_d < x_d] the difference [q_d - x_d] is at least
    as large in magnitude as [q_d - n_d], and so are the rounded differences,
    their rounded squares, and a rounded sum of squares that has the former
    among its terms.  They also hold when the operations overflow to +Inf.
    The float64 vectors of module [F64] are proved to meet them. *)
Class DistanceLaws : Prop := {
  Square_axis : forall q n x d,
    0 <= d < Dims q -> Dims n = Dims q -> Dims x = Dims q ->
    (Compare q n d <= 0 /\ 0 < Compare x n d) \/
    (0 < Compare q n d /\ Compare x n d <= 0) ->
    fle (Square (Compare q n d)) (Distance q x) = true;
  Distance_nonneg : forall a b, fle (Fin 0) (Distance a b) = true
}.

(** What bounding maintenance expects of the source's [Bounds] and of the
    points' [Clone] and [Extend]: they return a volume, [Bounds] one that
    contains the slice, [Extend] one that contains the point and whatever
    the given volume contained. *)
Class BoundingLaws (Bounder : option (list P -> option (Bounding P))) : Prop := {
  Bounds_covers : forall Bounds p,
    Bounder = Some Bounds -> p <> [] ->
    exists b, Bounds p = Some b /\ forallb (Contains (Some b)) p = true;
  Clone_covers : forall c,
    Contains (Some (mkBounding (Clone c) (Clone c))) c = true;
  Extend_covers : forall c Extend b,
    Extender c = Some Extend ->
    exists b', Extend (Some b) = Some b' /\
               Contains (Some b') c = true /\
               forall x, Contains (Some b) x = true -> Contains (Some b') x = true
}.

(** The trees a program can hold: built by [New], then grown by [Insert]. *)
Inductive reachable (Pivot : list P -> Dim -> list P * Z)
          (Bounder : option (list P -> option (Bounding P))) : Tree P -> Prop :=
| reach_New p bounding t :
    New Pivot Bounder p bounding = Ok t -> reachable Pivot Bounder t
| reach_Insert t c bounding t' :
    reachable Pivot Bounder t -> Insert t c bounding = Ok t' ->
    reachable Pivot Bounder t'.

End Invariants.

(** ** What a search returns *)

Section SearchSpec.

Context {P : Type} `{Comparable P}.

(** [bn] is a node holding one of the points [S], at distance [d] of [q]. *)
Definition found (q : P) (S : list P) (bn : Node P) (d : float64) : Prop :=
  exists x pl l r b, bn = node x pl l r b /\ In x S /\ d = Distance q x.

(** What a search of the points [S] started with the bound [d0] returns: a
    distance that, capped by [d0], is below the distance of every point of
    [S], and a node that realises it when it improves on [d0], or when the
    search started from [+Inf] on a non-empty [S] (it then returns a node
    even if every point is at distance [+Inf]). *)
Definition post (q : P) (S : list P) (d0 : float64) (res : Node P * float64) : Prop :=
  (forall x, In x S -> fle (fmin (snd res) d0) (Distance q x) = true) /\
  (flt (snd res) d0 = true \/ (d0 = Inf /\ S <> []) ->
   found q S (fst res) (snd res)).

(** The body of [search] at a node, with the subtree on the query's side
    ([near]) and the other one ([far]) abstracted. *)
Definition visit (n : Node P) (dp : float64) (c : Z)
           (near far : float64 -> Node P * float64)
           (d0 : float64) : Node P * float64 :=
  let dist := fmin d0 dp in
  let '(ln, ld) := near dist in
  let '(bn, dist) := if flt ld dist then (ln, ld) else (n, dist) in
  if fle (Square c) dist then
    let '(rn, rd) := far dist in
    if flt rd dist then (rn, rd) else (bn, dist)
  else (bn, dist).

End SearchSpec.

(** ** A concrete point type

    An implementation of the point contract over integer coordinates, with
    one type that can extend a bounding volume ([Point]) and one that cannot
    ([Plain]), and a point source whose [Pivot] partitions around the first
    element.  The examples below run the tree on them.  Its arithmetic is
    exact, which is what float64 gives on the small coordinates of the
    examples (squared distances far below 2^53); module [F64] further down
    rounds and overflows as float64 does. *)

Module Points.

Inductive point : Type :=
| Point (xs : list Z)
| Plain (xs : list Z).

Definition coords (p : point) : list Z :=
  match p with Point xs => xs | Plain xs => xs end.

Definition coord (p : point) (d : Dim) : Z := nth (Z.to_nat d) (coords p) 0.

Fixpoint sqdist (a b : list Z) : Z :=
  match a, b with
  | x :: a', y :: b' => (x - y) * (x - y) + sqdist a' b'
  | _, _ => 0
  end.

(** Coordinate-wise combination; a missing coordinate counts as 0, as in
    [coord]. *)
Definition zip_with (f : Z -> Z -> Z) (a b : list Z) : list Z :=
  map (fun d => f (nth d a 0) (nth d b 0))
      (seq 0 (Nat.max (length a) (length b))).

Definition extend (p : list Z) (b : option (Bounding point)) : option (Bounding point) :=
  let b := match b with
           | None => mkBounding (Point p) (Point p)
           | Some b => b
           end in
  Some (mkBounding (Point (zip_with Z.min (coords (b0 b)) p))
                   (Point (zip_with Z.max (coords (b1 b)) p))).

#[global] Instance point_Comparable : Comparable point := {
  Clone := fun p => p;
  Compare := fun a b d => coord a d - coord b d;
  Dims := fun p => Len (coords p);
  Distance := fun a b => Fin (sqdist (coords a) (coords b));
  Square := fun c => Fin (c * c);
  Extender := fun p => match p with
                       | Point xs => Some (extend xs)
                       | Plain _ => None
                       end
}.

Definition pivot (p : list point) (plane : Dim) : list point * Z :=
  match p with
  | [] => ([], 0)
  | x :: xs =>
      let le := filter (fun y => Compare y x plane <=? 0) xs in
      let gt := filter (fun y => negb (Compare y x plane <=? 0)) xs in
      (le ++ x :: gt, Len le)
  end.

(** The bounding box of a slice, folding [extend] over it. *)
Definition bounds (p : list point) : option (Bounding point) :=
  fold_left (fun b x => extend (coords x) b) p None.

(** Insertion sort by decreasing distance, a stand-in for [sort.Sort]. *)
Fixpoint insert_desc (x : NodeDist point) (l : list (NodeDist point)) : list (NodeDist point) :=
  match l with
  | [] => [x]
  | y :: l' => if flt (Dist y) (Dist x) then x :: l else y :: insert_desc x l'
  end.

Definition sort_desc (l : list (NodeDist point)) : list (NodeDist point) :=
  fold_right insert_desc [] l.

(** The visitor that records the points it is given and never stops. *)
Definition record_point : Operation (list point) :=
  fun s p _ _ => (s ++ [p], false).

End Points.

(** ** Example trees *)

Module Examples.

Import Points.

Definition unwrap {A : Type} (d : A) (r : result A) : A :=
  match r with Ok a => a | _ => d end.

Definition empty : Tree point := mkTree nil_node 0.

(** The six points of the 2-D scenario and its query. *)
Definition six : list point :=
  map Point [[2; 3]; [5; 4]; [9; 6]; [4; 7]; [8; 1]; [7; 2]].

Definition query : point := Point [9; 2].

Definition built : Tree point :=
  Eval vm_compute in unwrap empty (New pivot None six false).

Definition grown : Tree point :=
  Eval vm_compute in unwrap empty (Insert built (Point [6; 5]) false).

(** Two points that tie along the root's plane; the second one is placed in
    the left subtree. *)
Definition tie1 : Tree point :=
  Eval vm_compute in unwrap empty (Insert empty (Point [5; 1]) true).

Definition tie2 : Tree point :=
  Eval vm_compute in unwrap empty (Insert tie1 (Point [5; 2]) true).

Definition box : Bounding point := mkBounding (Point [5; 0]) (Point [5; 3]).

(** A bounded 1-D tree, then the insertion of a point that cannot extend a
    bounding volume. *)
Definition line1 : Tree point :=
  Eval vm_compute in unwrap empty (Insert empty (Point [5]) true).

Definition line2 : Tree point :=
  Eval vm_compute in unwrap empty (Insert line1 (Point [3]) true).

Definition line3 : Tree point :=
  Eval vm_compute in unwrap empty (Insert line2 (Plain [1]) true).

(** A tree built with bounding from a source that computes bounds, then
    grown by one point that can extend them. *)
Definition boxed : Tree point :=
  Eval vm_compute in unwrap empty (New pivot (Some bounds) six true).

Definition boxed1 : Tree point :=
  Eval vm_compute in unwrap empty (Insert boxed (Point [6; 5]) false).

End Examples.

(** ** Pluggable nearest-set search *)

Section NearestSet.

Context {P : Type} `{Comparable P}.

(** A [Keeper] with its state of type [K].  [Head] and [Keep] may panic, as
    the ones of [nDists] do on an empty slice.  The [heap.Interface] part
    other than [Len] is only used by [sort.Sort]. *)
Record Keeper (K : Type) : Type := mkKeeper {
  Keeper_Head : K -> result (NodeDist P);
  Keeper_Keep : K -> NodeDist P -> result K;
  Keeper_Len : K -> Z
}.
Arguments Keeper_Head {K} _ _.
Arguments Keeper_Keep {K} _ _ _.
Arguments Keeper_Len {K} _ _.

Fixpoint searchSet {K : Type} (kp : Keeper K) (n : Node P) (q : P) (k : K) : result K :=
  match n with
  | nil_node => Ok k
  | node p pl l r _ =>
      let c := Compare q p pl in
      k <- Keeper_Keep kp k (mkNodeDist n (Distance q p)) ;;
      if c <=? 0 then
        k <- searchSet kp l q k ;;
        h <- Keeper_Head kp k ;;
        if fle (Square c) (Dist h) then searchSet kp r q k else Ok k
      else
        k <- searchSet kp r q k ;;
        h <- Keeper_Head kp k ;;
        if fle (Square c) (Dist h) then searchSet kp l q k else Ok k
  end.

(** [NearestSet]; [sort_reverse] is [sort.Sort (reverse {k})]. *)
Definition NearestSet {K : Type} (kp : Keeper K) (sort_reverse : K -> K)
           (t : Tree P) (k : K) (q : P) : result K :=
  if is_nil (Root t) then Ok k
  else
    k <- searchSet kp (Root t) q k ;;
    if Keeper_Len kp k =? 1 then Ok k else Ok (sort_reverse k).

(** [*nDists] as a [Keeper]. *)
Definition nDists_Keeper : Keeper (nDists P) :=
  mkKeeper (nDists P) Head Keep (fun nd => nd_Len (items nd)).

End NearestSet.

(** ** Specifications of the traversals and of tree shapes *)

(** [l] is obtained from [l'] by dropping elements. *)
Inductive subseq {A : Type} : list A -> list A -> Prop :=
| subseq_nil : subseq [] []
| subseq_skip l l' a : subseq l l' -> subseq l (a :: l')
| subseq_take l l' a : subseq l l' -> subseq (a :: l) (a :: l').

Section TraversalSpec.

Context {P : Type} `{Comparable P}.

(** The calls an unbounded traversal of [n] makes when it is not stopped:
    point, bounding volume and depth of each node, in order. *)
Fixpoint entries (n : Node P) (depth : Z) : list (P * option (Bounding P) * Z) :=
  match n with
  | nil_node => []
  | node p _ l r b =>
      entries l (wrap_int (depth + 1)) ++ (p, b, depth) :: entries r (wrap_int (depth + 1))
  end.

(** Apply an operation to a sequence of calls until it asks to stop. *)
Fixpoint run {S : Type} (fn : Operation S) (es : list (P * option (Bounding P) * Z))
         (s : S) : S * bool :=
  match es with
  | [] => (s, false)
  | (p, b, depth) :: es' =>
      let '(s', done) := fn s p b depth in
      if done then (s', true) else run fn es' s'
  end.

(** The calls a traversal of [n] bounded by [b] makes when it is not
    stopped. *)
Fixpoint bounded_entries (n : Node P) (b : Bounding P) (depth : Z)
  : list (P * option (Bounding P) * Z) :=
  match n with
  | nil_node => []
  | node p pl l r _ =>
      (if Compare (b0 b) p pl <? 0
       then bounded_entries l b (wrap_int (depth + 1)) else []) ++
      (if Contains (Some b) p then [(p, Some b, depth)] else []) ++
      (if 0 <? Compare (b1 b) p pl
       then bounded_entries r b (wrap_int (depth + 1)) else [])
  end.

Definition entry_point (e : P * option (Bounding P) * Z) : P := fst (fst e).

(** Planes cycle with the depth: a node at depth [i] below a node of plane
    [pl] has plane [(pl + i) mod k]. *)
Fixpoint planes_cycle (k : Z) (pl : Dim) (n : Node P) : Prop :=
  match n with
  | nil_node => True
  | node _ pl' l r _ =>
      pl' = pl /\ planes_cycle k (Z.rem (pl + 1) k) l /\ planes_cycle k (Z.rem (pl + 1) k) r
  end.

(** The trees built from and grown by [k]-dimensional points. *)
Inductive reachable_dims (Pivot : list P -> Dim -> list P * Z)
          (Bounder : option (list P -> option (Bounding P))) (k : Z) : Tree P -> Prop :=
| reach_dims_New p bounding t :
    Forall (fun x => Dims x = k) p ->
    New Pivot Bounder p bounding = Ok t -> reachable_dims Pivot Bounder k t
| reach_dims_Insert t c bounding t' :
    reachable_dims Pivot Bounder k t -> Dims c = k ->
    Insert t c bounding = Ok t' -> reachable_dims Pivot Bounder k t'.

End TraversalSpec.

(** ** Specification of the candidate heap *)

Section HeapSpec.

Context {P : Type} `{Comparable P}.

Definition sentinel : NodeDist P := mkNodeDist nil_node Inf.

(** The distance stored at index [i]. *)
Definition key (h : list (NodeDist P)) (i : nat) : float64 := Dist (nth i h sentinel).

(** The max-heap property of [container/heap] under [Less]: no element is
    larger than its parent, the element at [(c - 1) / 2]. *)
Definition heap_ok (h : list (NodeDist P)) : Prop :=
  forall c, (0 < c < length h)%nat ->
            fle (key h c) (key h ((c - 1) / 2)) = true.

Definition swap (h : list (NodeDist P)) (i j : nat) : list (NodeDist P) :=
  update (update h i (nth j h sentinel)) j (nth i h sentinel).

(** [e] is the candidate record of a node that holds the point [x]. *)
Definition candidate (q : P) (e : NodeDist P) (x : P) : Prop :=
  exists pl l r b, nd_Node e = node x pl l r b /\ Dist e = Distance q x.

Definition is_sentinel (e : NodeDist P) : bool := is_nil (nd_Node e).

(** The points of the records that hold a node. *)
Definition item_points (h : list (NodeDist P)) : list P :=
  flat_map (fun e => match nd_Node e with
                     | node x _ _ _ _ => [x]
                     | nil_node => []
                     end) h.

(** The stored points at finite distance from [q]: the ones whose distance
    compares below the [+Inf] of the sentinel. *)
Definition finite (q : P) (x : P) : bool := flt (Distance q x) Inf.

Definition finite_points (q : P) (l : list P) : list P := filter (finite q) l.

(** A record of the candidate buffer is the sentinel or a candidate. *)
Definition item_ok (q : P) (e : NodeDist P) : Prop :=
  (nd_Node e = nil_node /\ Dist e = Inf) \/ exists x, candidate q e x.

(** The state of an n-nearest search that has accounted for the points [V]:
    the buffer is a heap of at most [cap] records with at most one sentinel,
    it is full once the sentinel is gone, the points it holds are at finite
    distance, and every point of [V] is either in the buffer or at least as
    far from [q] as the head of the buffer. *)
Definition keep_inv (q : P) (nd : nDists P) (V : list P) : Prop :=
  heap_ok (items nd) /\
  (1 <= length (items nd))%nat /\
  Z.of_nat (length (items nd)) <= cap nd /\
  Forall (item_ok q) (items nd) /\
  (length (items nd) <= length (item_points (items nd)) + 1)%nat /\
  (length (items nd) = length (item_points (items nd)) ->
   Z.of_nat (length (items nd)) = cap nd) /\
  Forall (fun y => finite q y = true) (item_points (items nd)) /\
  exists dropped,
    Permutation V (item_points (items nd) ++ dropped) /\
    Forall (fun y => fle (key (items nd) 0) (Distance q y) = true) dropped.

(** What [sort.Sort] guarantees on an [nDists]: the slice is rearranged and
    no element is [Less] than one that precedes it. *)
Definition sort_Sort_ok (sort_Sort : list (NodeDist P) -> list (NodeDist P)) : Prop :=
  forall l, Permutation (sort_Sort l) l /\
            StronglySorted (fun a b => fle (Dist b) (Dist a) = true) (sort_Sort l).

(** What [sort.Sort (reverse {k})] guarantees when the keeper is an
    [nDists]: the slice is rearranged into non-decreasing distance. *)
Definition sort_reverse_ok (sort_reverse : nDists P -> nDists P) : Prop :=
  forall nd, cap (sort_reverse nd) = cap nd /\
             Permutation (items (sort_reverse nd)) (items nd) /\
             StronglySorted (fun a b => fle (Dist a) (Dist b) = true)
                            (items (sort_reverse nd)).

End HeapSpec.

(** ** Float64 vectors

    The point type of a program that stores vectors of float64 coordinates:
    [Compare] is the difference of two coordinates and [Distance] the sum of
    the squared differences, each operation rounded as float64 rounds it.
    The coordinates of a [vec] are integers that are float64 values, so every
    intermediate value is one as well, and no operation yields NaN.  The type
    has no [Extend] method. *)

Module F64.

Inductive vec : Type := Vec (xs : list Z).

Definition coords (p : vec) : list Z := match p with Vec xs => xs end.

Definition coord (p : vec) (d : Dim) : Z := nth (Z.to_nat d) (coords p) 0.

(** [dist += d * d] over the coordinates, from the running sum [acc]. *)
Fixpoint sum_squares (acc : float64) (a b : list Z) : float64 :=
  match a, b with
  | x :: a', y :: b' =>
      let d := Binary64.sub x y in
      sum_squares (Binary64.add acc (Binary64.square d)) a' b'
  | _, _ => acc
  end.

#[global] Instance vec_Comparable : Comparable vec := {
  Clone := fun p => p;
  Compare := fun a b d => Binary64.sub (coord a d) (coord b d);
  Dims := fun p => Len (coords p);
  Distance := fun a b => sum_squares (Fin 0) (coords a) (coords b);
  Square := Binary64.square;
  Extender := fun _ => None
}.

End F64.

(** ** A source and a sort for any point type *)

Section Sources.

Context {P : Type} `{Comparable P}.

(** A [Pivot] that partitions around the first element. *)
Definition pivot_first (p : list P) (plane : Dim) : list P * Z :=
  match p with
  | [] => ([], 0)
  | x :: xs =>
      let le := filter (fun y => Compare y x plane <=? 0) xs in
      let gt := filter (fun y => negb (Compare y x plane <=? 0)) xs in
      (le ++ x :: gt, Len le)
  end.

(** Insertion sort by decreasing distance, a stand-in for [sort.Sort] on an
    [nDists], and its reverse, a stand-in for [sort.Sort (reverse {k})]. *)
Fixpoint insert_far (x : NodeDist P) (l : list (NodeDist P)) : list (NodeDist P) :=
  match l with
  | [] => [x]
  | y :: l' => if flt (Dist y) (Dist x) then x :: l else y :: insert_far x l'
  end.

Definition sort_far (l : list (NodeDist P)) : list (NodeDist P) :=
  fold_right insert_far [] l.

Definition sort_near (nd : nDists P) : nDists P :=
  mkNDists (rev (sort_far (items nd))) (cap nd).

End Sources.

(** ** Example trees of float64 vectors *)

Module FloatExamples.

Import F64.

(** Two points whose distances from [far] differ by 1 before rounding:
    [94906267 ^ 2] is odd and above [2 ^ 53]. *)
Definition pair : list vec := [Vec [0; 1]; Vec [0; 0]].

Definition far : vec := Vec [94906267; 0].

Definition pair_tree : Tree vec :=
  Eval vm_compute in Examples.unwrap (mkTree nil_node 0) (New pivot_first None pair false).

(** A point whose squared distance from the origin overflows. *)
Definition huge : vec := Vec [2 ^ 700].

Definition origin : vec := Vec [0].

Definition huge_tree : Tree vec :=
  Eval vm_compute in Examples.unwrap (mkTree nil_node 0) (New pivot_first None [huge] false).

(** The point of [huge_tree] and one at finite distance from the origin. *)
Definition mixed_tree : Tree vec :=
  Eval vm_compute in Examples.unwrap (mkTree nil_node 0) (Insert huge_tree (Vec [3]) false).

(** The six points of the 2-D scenario, its query, and a seventh point. *)
Definition six : list vec :=
  map Vec [[2; 3]; [5; 4]; [9; 6]; [4; 7]; [8; 1]; [7; 2]].

Definition query : vec := Vec [9; 2].

Definition built : Tree vec :=
  Eval vm_compute in Examples.unwrap (mkTree nil_node 0) (New pivot_first None six false).

Definition grown : Tree vec :=
  Eval vm_compute in Examples.unwrap (mkTree nil_node 0) (Insert built (Vec [6; 5]) false).

End FloatExamples.

(** * Properties *)

(** ** Helper lemmas on results, slices and floats *)

Lemma bind_Ok {A B : Type} (m : result A) (k : A -> result B) (b : B) :
  bind m k = Ok b -> exists a, m = Ok a /\ k a = Ok b.
Proof.
  destruct m as [a| |]; simpl; intros Hk; try discriminate.
  exists a; split; [reflexivity | exact Hk].
Qed.

Tactic Notation "inv_bind" hyp(H) "as" ident(a) ident(Ha) :=
  apply bind_Ok in H; destruct H as (a & Ha & H).

Lemma wrap_int_small (x : Z) : - 2 ^ 63 <= x < 2 ^ 63 -> wrap_int x = x.
Proof.
  intros Hx. unfold wrap_int.
  rewrite Z.mod_small; lia.
Qed.

Lemma Len_nil_iff {A : Type} (p : list A) : (Len p =? 0) = true <-> p = [].
Proof.
  unfold Len. destruct p as [|a p]; simpl; split; intros Hp;
    try reflexivity; discriminate.
Qed.

Lemma Index_split {A : Type} (p : list A) (i : Z) (d : A) :
  Index p i = Ok d ->
  0 <= i < Len p /\
  p = firstn (Z.to_nat i) p ++ d :: skipn (Z.to_nat (i + 1)) p.
Proof.
  unfold Index, Len.
  destruct (0 <=? i) eqn:H0; simpl; try discriminate.
  destruct (i <? Z.of_nat (length p)) eqn:H1; simpl; try discriminate.
  apply Z.leb_le in H0. apply Z.ltb_lt in H1.
  destruct (nth_error p (Z.to_nat i)) as [x|] eqn:Hn; try discriminate.
  intros Hx; injection Hx as ->.
  split; [lia|].
  apply nth_error_split in Hn. destruct Hn as (l1 & l2 & Hp & Hlen).
  replace (Z.to_nat (i + 1)) with (S (length l1)) by lia.
  rewrite <- Hlen. subst p.
  rewrite firstn_app, firstn_all, Nat.sub_diag, firstn_O, app_nil_r.
  rewrite skipn_app, skipn_all2 by lia.
  replace (S (length l1) - length l1)%nat with 1%nat by lia.
  reflexivity.
Qed.

Lemma Index_total {A : Type} (p : list A) (i : Z) :
  0 <= i < Len p -> exists d, Index p i = Ok d.
Proof.
  unfold Index, Len. intros Hi.
  replace (0 <=? i) with true by (symmetry; apply Z.leb_le; lia).
  replace (i <? Z.of_nat (length p)) with true by (symmetry; apply Z.ltb_lt; lia).
  simpl.
  destruct (nth_error p (Z.to_nat i)) as [x|] eqn:Hn.
  - exists x; reflexivity.
  - apply nth_error_None in Hn. lia.
Qed.

Lemma Slice_prefix {A : Type} (p : list A) (i : Z) :
  0 <= i <= Len p -> Slice p 0 i = Ok (firstn (Z.to_nat i) p).
Proof.
  unfold Slice. intros Hi.
  replace (0 <=? 0) with true by reflexivity.
  replace (0 <=? i) with true by (symmetry; apply Z.leb_le; lia).
  replace (i <=? Len p) with true by (symmetry; apply Z.leb_le; lia).
  simpl. rewrite Z.sub_0_r. reflexivity.
Qed.

Lemma Slice_suffix {A : Type} (p : list A) (i : Z) :
  0 <= i <= Len p -> Slice p i (Len p) = Ok (skipn (Z.to_nat i) p).
Proof.
  unfold Slice. intros Hi.
  replace (0 <=? i) with true by (symmetry; apply Z.leb_le; lia).
  replace (i <=? Len p) with true by (symmetry; apply Z.leb_le; lia).
  replace (Len p <=? Len p) with true by (symmetry; apply Z.leb_le; lia).
  simpl. f_equal. apply firstn_all2.
  rewrite length_skipn. unfold Len. lia.
Qed.

Lemma Forall_prefix_suffix {A : Type} (Q : A -> Prop) (n : nat) (l : list A) :
  Forall Q l -> Forall Q (firstn n l) /\ Forall Q (skipn n l).
Proof.
  intros Hl. rewrite <- (firstn_skipn n l) in Hl.
  apply Forall_app in Hl. exact Hl.
Qed.

(** ** Construction *)

Section BuildProps.

Context {P : Type} `{Comparable P}.
Variable Pivot : list P -> Dim -> list P * Z.
Variable Bounds : list P -> option (Bounding P).

(** Without bounding, [buildBounded] is [build]. *)
Lemma buildBounded_false (fuel : nat) :
  forall p plane, buildBounded Pivot Bounds fuel p plane false = build Pivot fuel p plane.
Proof.
  induction fuel as [|fuel IH]; intros p plane; simpl; [reflexivity|].
  destruct (Len p =? 0); [reflexivity|].
  destruct (Pivot p plane) as [p' piv].
  destruct (Index p' piv) as [d| |]; simpl; try reflexivity.
  destruct (go_rem (wrap_int (plane + 1)) (Dims d)) as [np| |]; simpl; try reflexivity.
  destruct (Slice p' 0 piv) as [lp| |]; simpl; try reflexivity.
  rewrite IH.
  destruct (build Pivot fuel lp np) as [l| |]; simpl; try reflexivity.
  destruct (Slice p' (piv + 1) (Len p')) as [rp| |]; simpl; try reflexivity.
  rewrite IH. reflexivity.
Qed.

Hypothesis HPivot : Pivot_ok Pivot.

(** A tree that [buildBounded] returns stores the points of the source and
    satisfies the ordering invariant. *)
Lemma buildBounded_ordered (fuel : nat) :
  forall p plane bounding n,
    buildBounded Pivot Bounds fuel p plane bounding = Ok n ->
    Permutation (points n) p /\ ordered n.
Proof.
  induction fuel as [|fuel IH]; intros p plane bounding n Hb; simpl in Hb.
  - destruct (Len p =? 0) eqn:E; [|discriminate].
    apply Len_nil_iff in E. injection Hb as <-. subst p. simpl. auto.
  - destruct (Len p =? 0) eqn:E.
    + apply Len_nil_iff in E. injection Hb as <-. subst p. simpl. auto.
    + assert (Hne : p <> []).
      { intros Hp. apply Len_nil_iff in Hp. congruence. }
      specialize (HPivot p plane Hne).
      destruct (Pivot p plane) as [p' piv].
      destruct HPivot as (Hperm & Hpiv & Hpart).
      inv_bind Hb as d Hd.
      specialize (Hpart d Hd). destruct Hpart as (Hle & Hgt).
      apply Index_split in Hd. destruct Hd as (_ & Hsplit).
      inv_bind Hb as np Hnp.
      inv_bind Hb as lp Hlp.
      rewrite Slice_prefix in Hlp by lia. injection Hlp as <-.
      inv_bind Hb as l Hl.
      inv_bind Hb as rp Hrp.
      rewrite Slice_suffix in Hrp by lia. injection Hrp as <-.
      inv_bind Hb as r Hr.
      injection Hb as <-.
      apply IH in Hl. destruct Hl as (Pl & Ol).
      apply IH in Hr. destruct Hr as (Pr & Or).
      split.
      * simpl. rewrite Hperm, Hsplit.
        apply Permutation_app; [exact Pl|].
        constructor. exact Pr.
      * simpl. repeat split; try assumption.
        -- eapply Permutation_Forall; [symmetry; exact Pl | exact Hle].
        -- eapply Permutation_Forall; [symmetry; exact Pr | exact Hgt].
Qed.

(** With the source's length as fuel, [buildBounded] returns a tree whenever
    the points have [k >= 1] dimensions, and its planes are axes. *)
Lemma buildBounded_total (k : Z) (Hk : 1 <= k < 2 ^ 63) (bounding : bool) (fuel : nat) :
  forall p plane,
    (length p <= fuel)%nat -> 0 <= plane < k ->
    Forall (fun x => Dims x = k) p ->
    exists n, buildBounded Pivot Bounds fuel p plane bounding = Ok n /\ planes_in k n.
Proof.
  induction fuel as [|fuel IH]; intros p plane Hlen Hpl Hdims; simpl.
  - destruct p; [|simpl in Hlen; lia]. simpl. exists nil_node. simpl. auto.
  - destruct (Len p =? 0) eqn:E.
    + exists nil_node. simpl. auto.
    + assert (Hne : p <> []).
      { intros Hp. apply Len_nil_iff in Hp. congruence. }
      specialize (HPivot p plane Hne).
      destruct (Pivot p plane) as [p' piv].
      destruct HPivot as (Hperm & Hpiv & _).
      destruct (Index_total p' piv Hpiv) as (d & Hd).
      rewrite Hd. simpl.
      assert (Hdims' : Forall (fun x => Dims x = k) p').
      { eapply Permutation_Forall; eassumption. }
      pose proof (Index_split _ _ _ Hd) as (_ & Hsplit).
      assert (Hdk : Dims d = k).
      { rewrite Hsplit in Hdims'. apply Forall_app in Hdims'.
        destruct Hdims' as (_ & Hd'). inversion Hd'. assumption. }
      unfold go_rem. rewrite Hdk.
      replace (k =? 0) with false by (symmetry; apply Z.eqb_neq; lia).
      simpl. rewrite wrap_int_small by lia.
      assert (Hnp : 0 <= Z.rem (plane + 1) k < k).
      { apply Z.rem_bound_pos; lia. }
      assert (Hlen' : length p' = length p).
      { symmetry. apply Permutation_length. exact Hperm. }
      unfold Len in Hpiv.
      rewrite Slice_prefix by (unfold Len; lia). simpl.
      destruct (IH (firstn (Z.to_nat piv) p') (Z.rem (plane + 1) k)) as (l & Hl & Pl).
      { rewrite length_firstn. lia. }
      { exact Hnp. }
      { apply Forall_prefix_suffix. exact Hdims'. }
      rewrite Hl. simpl.
      rewrite Slice_suffix by (unfold Len; lia). simpl.
      destruct (IH (skipn (Z.to_nat (piv + 1)) p') (Z.rem (plane + 1) k)) as (r & Hr & Pr).
      { rewrite length_skipn. lia. }
      { exact Hnp. }
      { apply Forall_prefix_suffix. exact Hdims'. }
      rewrite Hr. simpl.
      eexists; split; [reflexivity|]. simpl. auto.
Qed.

End BuildProps.

(** ** Insertion *)

Section InsertProps.

Context {P : Type} `{Comparable P}.

Lemma points_set_Bounding (n : Node P) (b : option (Bounding P)) :
  points (set_Bounding n b) = points n.
Proof. destruct n; reflexivity. Qed.

Lemma ordered_set_Bounding (n : Node P) (b : option (Bounding P)) :
  ordered n -> ordered (set_Bounding n b).
Proof. destruct n; simpl; auto. Qed.

Lemma planes_in_set_Bounding (k : Z) (n : Node P) (b : option (Bounding P)) :
  planes_in k n -> planes_in k (set_Bounding n b).
Proof. destruct n; simpl; auto. Qed.

Lemma Permutation_insert_left (c p : P) (l l' r : list P) :
  Permutation l' (c :: l) -> Permutation (l' ++ p :: r) (c :: l ++ p :: r).
Proof.
  intros Hl. rewrite Hl. reflexivity.
Qed.

Lemma Permutation_insert_right (c p : P) (l r r' : list P) :
  Permutation r' (c :: r) -> Permutation (l ++ p :: r') (c :: l ++ p :: r).
Proof.
  intros Hr. rewrite Hr.
  transitivity (l ++ c :: p :: r).
  - apply Permutation_app_head. apply perm_swap.
  - symmetry. apply Permutation_middle.
Qed.

(** [insert] adds the point and keeps the ordering invariant. *)
Lemma insert_ordered (n : Node P) :
  forall c d n', ordered n -> insert n c d = Ok n' ->
    Permutation (points n') (c :: points n) /\ ordered n'.
Proof.
  induction n as [|p pl l IHl r IHr b]; intros c d n' Hord Hins; simpl in Hins.
  - injection Hins as <-. simpl. auto.
  - destruct Hord as (Hle & Hgt & Ol & Or).
    inv_bind Hins as d' Hd'.
    destruct (Compare c p pl <=? 0) eqn:Hc.
    + apply Z.leb_le in Hc.
      inv_bind Hins as l' Hl'. injection Hins as <-.
      destruct (IHl _ _ _ Ol Hl') as (Pl & Ol').
      split; [apply Permutation_insert_left; exact Pl|].
      simpl. repeat split; try assumption.
      eapply Permutation_Forall; [symmetry; exact Pl|].
      constructor; assumption.
    + apply Z.leb_gt in Hc.
      inv_bind Hins as r' Hr'. injection Hins as <-.
      destruct (IHr _ _ _ Or Hr') as (Pr & Or').
      split; [apply Permutation_insert_right; exact Pr|].
      simpl. repeat split; try assumption.
      eapply Permutation_Forall; [symmetry; exact Pr|].
      constructor; assumption.
Qed.

(** So does [insertBounded], whatever [Extend] returns. *)
Lemma insertBounded_ordered (n : Node P) :
  forall c Extend d bounding n', ordered n ->
    insertBounded n c Extend d bounding = Ok n' ->
    Permutation (points n') (c :: points n) /\ ordered n'.
Proof.
  induction n as [|p pl l IHl r IHr b]; intros c Extend d bounding n' Hord Hins;
    simpl in Hins.
  - injection Hins as <-. simpl. auto.
  - destruct Hord as (Hle & Hgt & Ol & Or).
    inv_bind Hins as d' Hd'.
    destruct (Compare c p pl <=? 0) eqn:Hc.
    + apply Z.leb_le in Hc.
      inv_bind Hins as l' Hl'. injection Hins as <-.
      destruct (IHl _ _ _ _ _ Ol Hl') as (Pl & Ol').
      split; [apply Permutation_insert_left; exact Pl|].
      simpl. repeat split; try assumption.
      eapply Permutation_Forall; [symmetry; exact Pl|].
      constructor; assumption.
    + apply Z.leb_gt in Hc.
      inv_bind Hins as r' Hr'. injection Hins as <-.
      destruct (IHr _ _ _ _ _ Or Hr') as (Pr & Or').
      split; [apply Permutation_insert_right; exact Pr|].
      simpl. repeat split; try assumption.
      eapply Permutation_Forall; [symmetry; exact Pr|].
      constructor; assumption.
Qed.

Lemma Insert_ordered (t t' : Tree P) (c : P) (bounding : bool) :
  ordered (Root t) -> Insert t c bounding = Ok t' ->
  Permutation (points (Root t')) (c :: points (Root t)) /\ ordered (Root t').
Proof.
  unfold Insert. intros Hord Hins.
  destruct (Extender c) as [Extend|].
  - destruct (if is_nil (Root t) then bounding else has_Bounding (Root t)).
    + inv_bind Hins as r Hr. injection Hins as <-. simpl.
      eapply insertBounded_ordered; eassumption.
    + inv_bind Hins as r Hr. injection Hins as <-. simpl.
      eapply insert_ordered; eassumption.
  - inv_bind Hins as r Hr. injection Hins as <-. simpl.
    rewrite <- (points_set_Bounding (Root t) None).
    eapply insert_ordered; [|exact Hr].
    apply ordered_set_Bounding. exact Hord.
Qed.

End InsertProps.

(** C6.  Every tree built by [New] from a source whose [Pivot] meets its
    postcondition, and every tree obtained from it by insertions, satisfies
    the ordering invariant: at each node, the points of the left subtree
    compare [<= 0] with the node's point along the node's plane, and the
    points of the right subtree compare [> 0]. *)
Theorem reachable_ordered {P : Type} `{Comparable P}
        (Pivot : list P -> Dim -> list P * Z)
        (Bounder : option (list P -> option (Bounding P)))
        (HPivot : Pivot_ok Pivot) (t : Tree P) :
  reachable Pivot Bounder t -> ordered (Root t).
Proof.
  induction 1 as [p bounding t HNew | t c bounding t' Hreach IH HIns].
  - unfold New in HNew.
    assert (Hb : exists Bounds b r,
               buildBounded Pivot Bounds (length p) p 0 b = Ok r /\ Root t = r).
    { destruct Bounder as [Bounds|].
      - destruct bounding.
        + inv_bind HNew as r Hr. injection HNew as <-.
          exists Bounds, true, r. auto.
        + inv_bind HNew as r Hr. injection HNew as <-.
          exists Bounds, false, r. rewrite buildBounded_false. auto.
      - inv_bind HNew as r Hr. injection HNew as <-.
        exists (fun _ => None), false, r. rewrite buildBounded_false. auto. }
    destruct Hb as (Bounds & b & r & Hr & ->).
    eapply buildBounded_ordered; eassumption.
  - eapply Insert_ordered; eassumption.
Qed.

(** ** Single nearest neighbour *)

Ltac float_cases :=
  repeat match goal with
         | H : context [Distance ?a ?b] |- _ =>
             let D := fresh "D" in set (D := Distance a b) in *; clearbody D
         | |- context [Distance ?a ?b] =>
             let D := fresh "D" in set (D := Distance a b) in *; clearbody D
         | H : context [Square ?c] |- _ =>
             let D := fresh "D" in set (D := Square c) in *; clearbody D
         | |- context [Square ?c] =>
             let D := fresh "D" in set (D := Square c) in *; clearbody D
         end;
  repeat match goal with x : float64 |- _ => destruct x end;
  unfold fmin, flt, fle in *;
  repeat (match goal with
          | H : context [Z.ltb ?a ?b] |- _ => destruct (Z.ltb_spec a b)
          | |- context [Z.ltb ?a ?b] => destruct (Z.ltb_spec a b)
          | H : context [Z.leb ?a ?b] |- _ => destruct (Z.leb_spec a b)
          | |- context [Z.leb ?a ?b] => destruct (Z.leb_spec a b)
          end; cbv iota in *);
  try discriminate; try reflexivity; try lia; try (f_equal; lia).

Lemma flt_fle (a b : float64) : flt a b = negb (fle b a).
Proof. float_cases. Qed.

Lemma fle_refl (a : float64) : fle a a = true.
Proof. float_cases. Qed.

Lemma fle_trans (a b c : float64) : fle a b = true -> fle b c = true -> fle a c = true.
Proof. intros Hab Hbc. float_cases. Qed.

Lemma fle_total (a b : float64) : fle a b = true \/ fle b a = true.
Proof. destruct (fle a b) eqn:E; [left; reflexivity | right; float_cases]. Qed.

Lemma fle_antisym (a b : float64) : fle a b = true -> fle b a = true -> a = b.
Proof. intros Hab Hba. float_cases. Qed.

Lemma flt_Inf (a b : float64) : flt a b = true -> flt a Inf = true.
Proof. intros Hab. float_cases. Qed.

Lemma fle_Inf (a : float64) : fle Inf a = true -> a = Inf.
Proof. intros Ha. float_cases. Qed.

Section SearchProps.

Context {P : Type} `{Comparable P} {Laws : DistanceLaws}.
Variable q : P.

Lemma search_visit (p : P) (pl : Dim) (l r : Node P) (b : option (Bounding P))
      (d0 : float64) :
  search (node p pl l r b) q d0 =
  if Compare q p pl <=? 0
  then visit (node p pl l r b) (Distance q p) (Compare q p pl)
             (search l q) (search r q) d0
  else visit (node p pl l r b) (Distance q p) (Compare q p pl)
             (search r q) (search l q) d0.
Proof. reflexivity. Qed.

Lemma found_incl (S S' : list P) (bn : Node P) (d : float64) :
  (forall x, In x S -> In x S') -> found q S bn d -> found q S' bn d.
Proof.
  intros Hincl (x & pl & l & r & b & Hbn & Hin & Hd).
  exists x, pl, l, r, b. auto.
Qed.

Lemma visit_post (n : Node P) (p : P) (c : Z) (Sn Sf S : list P)
      (near far : float64 -> Node P * float64) (d0 : float64) :
  (exists pl l r b, n = node p pl l r b) ->
  (forall x, In x S <-> x = p \/ In x Sn \/ In x Sf) ->
  (forall d, post q Sn d (near d)) ->
  (forall d, post q Sf d (far d)) ->
  (forall d x, fle (Square c) d = false -> In x Sf ->
               fle d (Distance q x) = true) ->
  post q S d0 (visit n (Distance q p) c near far d0).
Proof.
  intros (pl & l & r & b & Hn) HS Hnear Hfar Hprune.
  assert (Hself : forall d, d = Distance q p -> found q S n d).
  { intros d Hd. exists p, pl, l, r, b. repeat split; try assumption.
    apply HS. auto. }
  assert (HSn : forall x, In x Sn -> In x S) by (intros x Hx; apply HS; auto).
  assert (HSf : forall x, In x Sf -> In x S) by (intros x Hx; apply HS; auto).
  unfold visit.
  set (dist := fmin d0 (Distance q p)).
  specialize (Hnear dist).
  destruct (near dist) as [ln ld]. destruct Hnear as (Hn1 & Hn2). simpl in Hn1, Hn2.
  set (res1 := if flt ld dist then (ln, ld) else (n, dist)).
  assert (H1 : (forall x, In x Sn -> fle (snd res1) (Distance q x) = true) /\
               fle (snd res1) dist = true /\
               (flt (snd res1) d0 = true \/ d0 = Inf ->
                found q S (fst res1) (snd res1))).
  { subst res1. destruct (flt ld dist) eqn:Eld; simpl.
    - repeat split.
      + intros x Hx. specialize (Hn1 x Hx). clear - Hn1 Eld. float_cases.
      + clear - Eld. float_cases.
      + intros _. eapply found_incl; [exact HSn | auto].
    - repeat split.
      + intros x Hx. specialize (Hn1 x Hx). clear - Hn1 Eld. float_cases.
      + clear. subst dist. float_cases.
      + intros Hlt. apply Hself. subst dist. clear - Hlt.
        destruct Hlt as [Hlt | Hlt]; float_cases. }
  destruct res1 as [bn dist1]. simpl in H1. destruct H1 as (H1a & H1b & H1c).
  assert (Hp : fle dist1 (Distance q p) = true).
  { subst dist. clear - H1b. float_cases. }
  assert (Hd0 : fle dist1 d0 = true).
  { subst dist. clear - H1b. float_cases. }
  assert (H1c' : flt dist1 d0 = true \/ d0 = Inf /\ S <> [] -> found q S bn dist1).
  { intros [Hlt | (Hinf & _)]; apply H1c; auto. }
  destruct (fle (Square c) dist1) eqn:Efar.
  - specialize (Hfar dist1).
    destruct (far dist1) as [rn rd]. destruct Hfar as (Hf1 & Hf2). simpl in Hf1, Hf2.
    destruct (flt rd dist1) eqn:Erd; split; simpl.
    + intros x Hx. apply HS in Hx. destruct Hx as [-> | [Hx | Hx]].
      * clear - Hp Hd0 Erd. float_cases.
      * specialize (H1a x Hx). clear - H1a Hd0 Erd. float_cases.
      * specialize (Hf1 x Hx). clear - Hf1 Hd0 Erd. float_cases.
    + intros _. eapply found_incl; [exact HSf | auto].
    + intros x Hx. apply HS in Hx. destruct Hx as [-> | [Hx | Hx]].
      * clear - Hp Hd0. float_cases.
      * specialize (H1a x Hx). clear - H1a Hd0. float_cases.
      * specialize (Hf1 x Hx). clear - Hf1 Hd0 Erd. float_cases.
    + exact H1c'.
  - split; simpl.
    + intros x Hx. apply HS in Hx. destruct Hx as [-> | [Hx | Hx]].
      * clear - Hp Hd0. float_cases.
      * specialize (H1a x Hx). clear - H1a Hd0. float_cases.
      * specialize (Hprune dist1 x Efar Hx). clear - Hprune Hd0. float_cases.
    + exact H1c'.
Qed.

Variable k : Z.
Hypothesis Hq : Dims q = k.

(** A subtree the search skips holds no point closer than the bound: such a
    point lies beyond the node's plane, and [c * c] already exceeds the
    bound. *)
Lemma prune_far (p x : P) (pl : Dim) (d : float64) :
  0 <= pl < k -> Dims p = k -> Dims x = k ->
  (Compare q p pl <= 0 /\ 0 < Compare x p pl) \/
  (0 < Compare q p pl /\ Compare x p pl <= 0) ->
  fle (Square (Compare q p pl)) d = false ->
  fle d (Distance q x) = true.
Proof.
  intros Hpl Hp Hx Hside Hd.
  assert (Hax : fle (Square (Compare q p pl)) (Distance q x) = true).
  { apply Square_axis; [lia | lia | lia | exact Hside]. }
  clear - Hax Hd. float_cases.
Qed.

Lemma search_post (n : Node P) :
  ordered n -> planes_in k n -> Forall (fun x => Dims x = k) (points n) ->
  forall d0, post q (points n) d0 (search n q d0).
Proof.
  induction n as [|p pl l IHl r IHr b]; intros Hord Hpl Hdims d0.
  - split; simpl; [intros x [] | intros [Hlt | (_ & Hne)]; [discriminate | congruence]].
  - simpl in Hord, Hpl, Hdims.
    destruct Hord as (Hle & Hgt & Ol & Or).
    destruct Hpl as (Hpl & Pl & Pr).
    apply Forall_app in Hdims. destruct Hdims as (Dl & Dpr).
    apply Forall_cons_iff in Dpr. destruct Dpr as (Dp & Dr).
    assert (HS : forall x, In x (points (node p pl l r b)) <->
                           x = p \/ In x (points l) \/ In x (points r)).
    { intros x. simpl. rewrite in_app_iff. simpl. intuition. }
    assert (HS' : forall x, In x (points (node p pl l r b)) <->
                            x = p \/ In x (points r) \/ In x (points l)).
    { intros x. rewrite HS. intuition. }
    rewrite search_visit.
    destruct (Compare q p pl <=? 0) eqn:Hc.
    + apply Z.leb_le in Hc.
      apply visit_post with (Sn := points l) (Sf := points r); eauto.
      intros d x Hd Hx. rewrite Forall_forall in Hgt, Dr.
      eapply prune_far; eauto.
    + apply Z.leb_gt in Hc.
      apply visit_post with (Sn := points r) (Sf := points l); eauto.
      intros d x Hd Hx. rewrite Forall_forall in Hle, Dl.
      eapply prune_far; eauto.
Qed.

(** On a non-empty tree that satisfies the invariants, [Nearest] returns a
    stored point at minimal distance, with that distance. *)
Lemma Nearest_minimal (t : Tree P) :
  Root t <> nil_node ->
  ordered (Root t) -> planes_in k (Root t) ->
  Forall (fun x => Dims x = k) (points (Root t)) ->
  exists x, Nearest t q = (Some x, Distance q x) /\
            In x (points (Root t)) /\
            forall y, In y (points (Root t)) ->
                      fle (Distance q x) (Distance q y) = true.
Proof.
  intros Hne Hord Hpl Hdims.
  pose proof (search_post (Root t) Hord Hpl Hdims Inf) as (Hmin & Hfound).
  unfold Nearest.
  destruct (Root t) as [|p pl l r b] eqn:HR; [congruence|].
  rewrite <- HR in *.
  destruct (search (Root t) q Inf) as [bn d]. simpl in Hmin, Hfound.
  assert (Hp : In p (points (Root t))).
  { rewrite HR. simpl. apply in_or_app. right. left. reflexivity. }
  destruct Hfound as (x & pl' & l' & r' & b' & -> & Hx & ->).
  { right. split; [reflexivity|]. intros Hnil. rewrite Hnil in Hp. exact Hp. }
  exists x. split; [reflexivity|]. split; [exact Hx|].
  intros y Hy. exact (Hmin y Hy).
Qed.

End SearchProps.

Lemma points_nil_inv {P : Type} (n : Node P) : points n = [] -> n = nil_node.
Proof.
  destruct n as [|p pl l r b]; simpl; [reflexivity|].
  intros Hn. destruct (points l); discriminate.
Qed.

(** [New] returns a tree that stores the source's points and satisfies the
    invariants the searches need. *)
Lemma New_invariants {P : Type} `{Comparable P}
      (Pivot : list P -> Dim -> list P * Z)
      (Bounder : option (list P -> option (Bounding P)))
      (HPivot : Pivot_ok Pivot) (k : Z) (Hk : 1 <= k < 2 ^ 63)
      (p : list P) (bounding : bool) :
  Forall (fun x => Dims x = k) p ->
  exists t, New Pivot Bounder p bounding = Ok t /\
            Count t = Len p /\
            Permutation (points (Root t)) p /\
            ordered (Root t) /\ planes_in k (Root t).
Proof.
  intros Hdims.
  assert (Hb : forall Bounds b,
             exists n, buildBounded Pivot Bounds (length p) p 0 b = Ok n /\
                       Permutation (points n) p /\ ordered n /\ planes_in k n).
  { intros Bounds b.
    destruct (buildBounded_total Pivot Bounds HPivot k Hk b (length p) p 0)
      as (n & Hn & Hpl); [lia | lia | assumption |].
    destruct (buildBounded_ordered Pivot Bounds HPivot _ _ _ _ _ Hn) as (Hperm & Hord).
    exists n. auto. }
  unfold New.
  destruct Bounder as [Bounds|]; [destruct bounding|].
  - destruct (Hb Bounds true) as (n & -> & Hn). simpl.
    eexists; split; [reflexivity|]. simpl. tauto.
  - destruct (Hb Bounds false) as (n & Hn' & Hn).
    rewrite buildBounded_false in Hn'. rewrite Hn'. simpl.
    eexists; split; [reflexivity|]. simpl. tauto.
  - destruct (Hb (fun _ => None) false) as (n & Hn' & Hn).
    rewrite buildBounded_false in Hn'. rewrite Hn'. simpl.
    eexists; split; [reflexivity|]. simpl. tauto.
Qed.

(** C1.  For a non-empty source of [k]-dimensional points ([k >= 1]) whose
    [Pivot] meets its postcondition, [New] returns a tree on which
    [Nearest q] returns a stored point whose distance to [q] is the minimum
    over all stored points, together with that distance; when [q] coincides
    with a stored point the distance returned is 0.  Distances are float64
    values as [Distance] computes them, rounded and possibly [+Inf]. *)
Theorem Nearest_correct {P : Type} `{Comparable P} {Laws : DistanceLaws}
        (Pivot : list P -> Dim -> list P * Z)
        (Bounder : option (list P -> option (Bounding P)))
        (HPivot : Pivot_ok Pivot) (k : Z) (Hk : 1 <= k < 2 ^ 63)
        (p : list P) (bounding : bool) (q : P) :
  p <> [] -> Forall (fun x => Dims x = k) p -> Dims q = k ->
  exists t x,
    New Pivot Bounder p bounding = Ok t /\
    Nearest t q = (Some x, Distance q x) /\
    In x p /\
    (forall y, In y p -> fle (Distance q x) (Distance q y) = true) /\
    (In q p -> Distance q q = Fin 0 -> Distance q x = Fin 0).
Proof.
  intros Hne Hdims Hq.
  destruct (New_invariants Pivot Bounder HPivot k Hk p bounding Hdims)
    as (t & HNew & _ & Hperm & Hord & Hpl).
  assert (Hroot : Root t <> nil_node).
  { intros Hnil. rewrite Hnil in Hperm. simpl in Hperm.
    apply Permutation_nil in Hperm. contradiction. }
  assert (Hdims' : Forall (fun x => Dims x = k) (points (Root t))).
  { eapply Permutation_Forall; [symmetry; exact Hperm | exact Hdims]. }
  destruct (Nearest_minimal q k Hq t Hroot Hord Hpl Hdims') as (x & HN & Hx & Hmin).
  assert (Hmin' : forall y, In y p -> fle (Distance q x) (Distance q y) = true).
  { intros y Hy. apply Hmin. eapply Permutation_in; [symmetry; exact Hperm | exact Hy]. }
  exists t, x. repeat split; try assumption.
  - eapply Permutation_in; eassumption.
  - intros Hin H0. specialize (Hmin' q Hin). rewrite H0 in Hmin'.
    pose proof (Distance_nonneg q x) as Hpos.
    clear - Hmin' Hpos. float_cases.
Qed.

(** ** The concrete points meet the contracts *)

#[global] Instance point_Laws : ComparableLaws (P := Points.point).
Proof.
  split. intros a b c d _ _ _. simpl. lia.
Qed.

Lemma filter_split_Permutation {A : Type} (f : A -> bool) (l : list A) :
  Permutation l (filter f l ++ filter (fun y => negb (f y)) l).
Proof.
  induction l as [|a l IH]; simpl; [constructor|].
  destruct (f a); simpl.
  - constructor. exact IH.
  - rewrite IH at 1. apply Permutation_middle.
Qed.

Lemma pivot_ok : Pivot_ok Points.pivot.
Proof.
  intros [|x xs] plane Hne; [congruence|].
  unfold Points.pivot.
  set (f := fun y : Points.point => Compare y x plane <=? 0).
  set (le := filter f xs).
  set (gt := filter (fun y => negb (f y)) xs).
  assert (Hidx : Z.to_nat (Len le) = length le) by (unfold Len; lia).
  repeat split.
  - rewrite (filter_split_Permutation f xs) at 1. apply Permutation_middle.
  - unfold Len. lia.
  - unfold Len. rewrite length_app. simpl. lia.
  - apply Index_split in H. destruct H as (_ & Hsplit).
    rewrite Hidx.
    rewrite firstn_app, firstn_all, Nat.sub_diag, firstn_O, app_nil_r.
    rewrite Hidx in Hsplit.
    rewrite firstn_app, firstn_all, Nat.sub_diag, firstn_O, app_nil_r in Hsplit.
    apply app_inv_head in Hsplit. injection Hsplit as <- _.
    apply Forall_forall. intros y Hy. apply filter_In in Hy.
    destruct Hy as (_ & Hy). apply Z.leb_le. exact Hy.
  - apply Index_split in H. destruct H as (_ & Hsplit).
    rewrite Hidx in Hsplit.
    rewrite firstn_app, firstn_all, Nat.sub_diag, firstn_O, app_nil_r in Hsplit.
    apply app_inv_head in Hsplit. injection Hsplit as <- _.
    replace (Z.to_nat (Len le + 1)) with (S (length le)) by (unfold Len; lia).
    rewrite skipn_app, skipn_all2 by lia.
    replace (S (length le) - length le)%nat with 1%nat by lia.
    simpl. apply Forall_forall. intros y Hy. apply filter_In in Hy.
    destruct Hy as (_ & Hy). apply negb_true_iff in Hy. apply Z.leb_gt. exact Hy.
Qed.

(** ** Float64 vectors meet the contract of the searches

    Rounding to nearest is monotone, odd and idempotent; the order laws of
    [Compare], [Square] and [Distance] follow. *)

Section Binary64Props.

Import Binary64.

Lemma round_at_bounds (e a : Z) :
  1 <= e -> 0 <= a ->
  a / 2 ^ e * 2 ^ e <= round_at e a <= (a / 2 ^ e + 1) * 2 ^ e.
Proof.
  intros He Ha. unfold round_at.
  assert (Hu : 0 < 2 ^ e) by (apply Z.pow_pos_nonneg; lia).
  destruct ((2 ^ (e - 1) <? a mod 2 ^ e) || ((a mod 2 ^ e =? 2 ^ (e - 1)) && Z.odd (a / 2 ^ e)));
    nia.
Qed.

Lemma round_at_mono (e a b : Z) :
  1 <= e -> 0 <= a <= b -> round_at e a <= round_at e b.
Proof.
  intros He Hab.
  assert (Hu : 0 < 2 ^ e) by (apply Z.pow_pos_nonneg; lia).
  assert (Hm : a / 2 ^ e <= b / 2 ^ e) by (apply Z.div_le_mono; lia).
  destruct (Z.eq_dec (a / 2 ^ e) (b / 2 ^ e)) as [Heq | Hneq].
  - unfold round_at. rewrite <- Heq.
    assert (Hr : a mod 2 ^ e <= b mod 2 ^ e).
    { rewrite !Z.mod_eq by lia. rewrite <- Heq. lia. }
    apply Z.mul_le_mono_nonneg_r; [lia|].
    destruct (Z.odd (a / 2 ^ e));
      destruct (Z.ltb_spec (2 ^ (e - 1)) (a mod 2 ^ e));
      destruct (Z.ltb_spec (2 ^ (e - 1)) (b mod 2 ^ e));
      destruct (Z.eqb_spec (a mod 2 ^ e) (2 ^ (e - 1)));
      destruct (Z.eqb_spec (b mod 2 ^ e) (2 ^ (e - 1))); simpl; lia.
  - pose proof (round_at_bounds e a He ltac:(lia)).
    pose proof (round_at_bounds e b He ltac:(lia)).
    nia.
Qed.

Lemma log2_small (a : Z) : 0 <= a -> (Z.log2 a - 52 <= 0 <-> a < 2 ^ 53).
Proof.
  intros Ha. destruct (Z.eq_dec a 0) as [-> | Hne].
  - simpl. split; intros; lia.
  - rewrite (Z.log2_lt_pow2 a 53) by lia. lia.
Qed.

(** For [a] of 54 bits or more the significand [a / 2 ^ e] has 53 bits. *)
Lemma significand_bounds (a : Z) :
  2 ^ 53 <= a ->
  let e := Z.log2 a - 52 in
  1 <= e /\ 2 ^ 52 * 2 ^ e <= a < 2 ^ 53 * 2 ^ e /\
  2 ^ 52 <= a / 2 ^ e < 2 ^ 53.
Proof.
  intros Ha e.
  assert (Hlog : 53 <= Z.log2 a) by (apply Z.log2_le_pow2; lia).
  assert (He : 1 <= e) by (unfold e; lia).
  assert (Hu : 0 < 2 ^ e) by (apply Z.pow_pos_nonneg; lia).
  pose proof (Z.log2_spec a ltac:(lia)) as Hspec.
  replace (Z.log2 a) with (52 + e) in Hspec by (unfold e; lia).
  replace (Z.succ (52 + e)) with (53 + e) in Hspec by lia.
  rewrite !Z.pow_add_r in Hspec by lia.
  split; [exact He|]. split; [exact Hspec|].
  split.
  - apply Z.div_le_lower_bound; lia.
  - apply Z.div_lt_upper_bound; lia.
Qed.

Lemma round_nonneg_eq (a : Z) :
  0 <= a ->
  round a = if Z.log2 a - 52 <=? 0 then a else round_at (Z.log2 a - 52) a.
Proof.
  intros Ha. unfold round. rewrite (Z.abs_eq a Ha).
  destruct (Z.leb_spec (Z.log2 a - 52) 0) as [Hs | Hb]; [reflexivity|].
  assert (0 < a).
  { destruct (Z.eq_dec a 0) as [-> | ?]; [simpl in Hb; lia | lia]. }
  rewrite Z.sgn_pos by lia. lia.
Qed.

Lemma round_big (a : Z) :
  2 ^ 53 <= a ->
  round a = round_at (Z.log2 a - 52) a /\
  2 ^ 52 * 2 ^ (Z.log2 a - 52) <= round a <= 2 ^ 53 * 2 ^ (Z.log2 a - 52).
Proof.
  intros Ha.
  destruct (significand_bounds a Ha) as (He & Hspec & Hm).
  rewrite round_nonneg_eq by lia.
  destruct (Z.leb_spec (Z.log2 a - 52) 0) as [Hs | Hb]; [lia|].
  split; [reflexivity|].
  pose proof (round_at_bounds (Z.log2 a - 52) a He ltac:(lia)) as Hb'.
  assert (Hu : 0 < 2 ^ (Z.log2 a - 52)) by (apply Z.pow_pos_nonneg; lia).
  nia.
Qed.

Lemma round_small (a : Z) : 0 <= a < 2 ^ 53 -> round a = a.
Proof.
  intros Ha. rewrite round_nonneg_eq by lia.
  destruct (Z.leb_spec (Z.log2 a - 52) 0) as [Hs | Hb]; [reflexivity|].
  pose proof (proj2 (log2_small a ltac:(lia)) ltac:(lia)). lia.
Qed.

Lemma round_mono_nonneg (a b : Z) : 0 <= a <= b -> round a <= round b.
Proof.
  intros Hab.
  destruct (Z.lt_ge_cases a (2 ^ 53)) as [Ha | Ha];
    destruct (Z.lt_ge_cases b (2 ^ 53)) as [Hb | Hb]; try lia.
  - rewrite !round_small by lia. lia.
  - rewrite (round_small a) by lia.
    destruct (round_big b Hb) as (_ & Hlow & _).
    destruct (significand_bounds b Hb) as (He & _).
    assert (2 ^ 1 <= 2 ^ (Z.log2 b - 52)) by (apply Z.pow_le_mono_r; lia).
    lia.
  - destruct (round_big a Ha) as (Hra & _ & Hupa).
    destruct (round_big b Hb) as (Hrb & Hlowb & _).
    destruct (significand_bounds a Ha) as (Hea & _).
    assert (Hlog : Z.log2 a <= Z.log2 b) by (apply Z.log2_le_mono; lia).
    destruct (Z.eq_dec (Z.log2 a) (Z.log2 b)) as [Heq | Hneq].
    + rewrite Hra, Hrb, Heq. apply round_at_mono; lia.
    + assert (2 ^ (Z.log2 a - 52 + 1) <= 2 ^ (Z.log2 b - 52))
        by (apply Z.pow_le_mono_r; lia).
      rewrite Z.pow_add_r in H by lia. lia.
Qed.

Lemma round_opp (z : Z) : round (- z) = - round z.
Proof.
  unfold round. rewrite Z.abs_opp, Z.sgn_opp.
  destruct (Z.log2 (Z.abs z) - 52 <=? 0); lia.
Qed.

Lemma round_0 : round 0 = 0.
Proof. reflexivity. Qed.

Lemma round_mono (a b : Z) : a <= b -> round a <= round b.
Proof.
  intros Hab.
  destruct (Z.le_gt_cases 0 a) as [Ha | Ha].
  - apply round_mono_nonneg. lia.
  - destruct (Z.le_gt_cases 0 b) as [Hb | Hb].
    + pose proof (round_mono_nonneg 0 b ltac:(lia)) as H1.
      pose proof (round_mono_nonneg 0 (- a) ltac:(lia)) as H2.
      rewrite round_opp in H2. rewrite round_0 in *. lia.
    + pose proof (round_mono_nonneg (- b) (- a) ltac:(lia)) as H1.
      rewrite !round_opp in H1. lia.
Qed.

Lemma round_at_exact (e m : Z) : 1 <= e -> 0 <= m -> round_at e (m * 2 ^ e) = m * 2 ^ e.
Proof.
  intros He Hm. unfold round_at.
  assert (Hu : 0 < 2 ^ e) by (apply Z.pow_pos_nonneg; lia).
  assert (Hh : 0 < 2 ^ (e - 1)) by (apply Z.pow_pos_nonneg; lia).
  rewrite Z.div_mul by lia. rewrite Z.mod_mul by lia.
  destruct (Z.ltb_spec (2 ^ (e - 1)) 0); [lia|].
  destruct (Z.eqb_spec 0 (2 ^ (e - 1))); [lia|]. reflexivity.
Qed.

Lemma round_idem_nonneg (a : Z) : 0 <= a -> round (round a) = round a.
Proof.
  intros Ha.
  destruct (Z.lt_ge_cases a (2 ^ 53)) as [Hs | Hb].
  - rewrite !(round_small a) by lia. reflexivity.
  - destruct (round_big a Hb) as (Hr & Hlow & Hup).
    destruct (significand_bounds a Hb) as (He & Hspec & Hm).
    set (e := Z.log2 a - 52) in *.
    assert (Hu : 0 < 2 ^ e) by (apply Z.pow_pos_nonneg; lia).
    assert (Hform : exists m, round a = m * 2 ^ e /\ 2 ^ 52 <= m <= 2 ^ 53).
    { rewrite Hr. unfold round_at.
      destruct ((2 ^ (e - 1) <? a mod 2 ^ e) || ((a mod 2 ^ e =? 2 ^ (e - 1)) && Z.odd (a / 2 ^ e))).
      - exists (a / 2 ^ e + 1). split; [reflexivity | lia].
      - exists (a / 2 ^ e). split; [reflexivity | lia]. }
    destruct Hform as (m & Hm' & Hmb). rewrite Hm'.
    assert (Hbig : 2 ^ 53 <= m * 2 ^ e).
    { assert (2 ^ 1 <= 2 ^ e) by (apply Z.pow_le_mono_r; lia). nia. }
    destruct (round_big (m * 2 ^ e) Hbig) as (Hr' & _). rewrite Hr'.
    destruct (Z.eq_dec m (2 ^ 53)) as [-> | Hne].
    + assert (Hlog : Z.log2 (2 ^ 53 * 2 ^ e) = 53 + e).
      { rewrite <- Z.pow_add_r by lia. apply Z.log2_pow2. lia. }
      rewrite Hlog. replace (53 + e - 52) with (e + 1) by lia.
      replace (2 ^ 53 * 2 ^ e) with (2 ^ 52 * 2 ^ (e + 1)).
      * apply round_at_exact; lia.
      * rewrite Z.pow_add_r by lia. lia.
    + assert (Hlog : Z.log2 (m * 2 ^ e) = 52 + e).
      { apply Z.log2_unique; [lia|].
        replace (Z.succ (52 + e)) with (53 + e) by lia.
        rewrite !Z.pow_add_r by lia. nia. }
      rewrite Hlog. replace (52 + e - 52) with e by lia.
      apply round_at_exact; lia.
Qed.

Lemma round_idem (z : Z) : round (round z) = round z.
Proof.
  destruct (Z.le_gt_cases 0 z) as [Hz | Hz].
  - apply round_idem_nonneg. exact Hz.
  - pose proof (round_idem_nonneg (- z) ltac:(lia)) as Hi.
    rewrite !round_opp in Hi. lia.
Qed.

Lemma round_pos (z : Z) : 0 < z -> 0 < round z.
Proof.
  intros Hz. pose proof (round_mono 1 z ltac:(lia)) as Hm.
  change (round 1) with 1 in Hm. lia.
Qed.

Lemma round_nonpos (z : Z) : z <= 0 -> round z <= 0.
Proof.
  intros Hz. pose proof (round_mono z 0 Hz) as Hm. rewrite round_0 in Hm. exact Hm.
Qed.

Lemma round_nonneg (z : Z) : 0 <= z -> 0 <= round z.
Proof.
  intros Hz. pose proof (round_mono 0 z Hz) as Hm. rewrite round_0 in Hm. exact Hm.
Qed.

Lemma of_Z_mono (a b : Z) : a <= b -> fle (of_Z a) (of_Z b) = true.
Proof.
  intros Hab. unfold of_Z.
  destruct (Z.ltb_spec a (2 ^ 1024)), (Z.ltb_spec b (2 ^ 1024)); simpl;
    try reflexivity; [apply Z.leb_le; exact Hab | lia].
Qed.

Lemma of_Z_is_float (z : Z) : 0 <= z -> is_float (of_Z (round z)).
Proof.
  intros Hz. unfold of_Z. destruct (round z <? 2 ^ 1024); simpl; [|exact I].
  split; [apply round_nonneg; exact Hz | apply round_idem].
Qed.

Lemma square_is_float (c : Z) : is_float (square c).
Proof. apply of_Z_is_float. apply Z.square_nonneg. Qed.

Lemma add_is_float (a b : float64) : is_float a -> is_float b -> is_float (add a b).
Proof.
  destruct a as [x|], b as [y|]; simpl; try (intros; exact I).
  intros (Hx & _) (Hy & _). apply of_Z_is_float. lia.
Qed.

Lemma add_ge (a b : float64) :
  is_float a -> is_float b ->
  fle a (add a b) = true /\ fle b (add a b) = true.
Proof.
  destruct a as [x|], b as [y|]; simpl; try (intros; split; reflexivity).
  intros (Hx & Hrx) (Hy & Hry).
  pose proof (round_mono x (x + y) ltac:(lia)) as H1.
  pose proof (round_mono y (x + y) ltac:(lia)) as H2.
  rewrite Hrx in H1. rewrite Hry in H2.
  unfold of_Z. destruct (round (x + y) <? 2 ^ 1024); simpl; [|split; reflexivity].
  split; apply Z.leb_le; assumption.
Qed.

Lemma square_mono (a b : Z) : Z.abs a <= Z.abs b -> fle (square a) (square b) = true.
Proof.
  intros Hab. unfold square. apply of_Z_mono. apply round_mono. nia.
Qed.

Lemma sum_squares_ge (a : list Z) :
  forall b acc, is_float acc ->
    fle acc (F64.sum_squares acc a b) = true /\ is_float (F64.sum_squares acc a b).
Proof.
  induction a as [|x a IH]; intros [|y b] acc Hacc; simpl;
    try (split; [apply fle_refl | exact Hacc]).
  pose proof (square_is_float (sub x y)) as Hsq.
  destruct (IH b _ (add_is_float _ _ Hacc Hsq)) as (Hle & Hfl).
  split; [|exact Hfl].
  eapply fle_trans; [|exact Hle]. apply add_ge; assumption.
Qed.

Lemma sum_squares_axis (n : nat) :
  forall a b acc, is_float acc -> (n < length a)%nat -> (n < length b)%nat ->
    fle (square (sub (nth n a 0) (nth n b 0))) (F64.sum_squares acc a b) = true.
Proof.
  induction n as [|n IH]; intros [|x a] [|y b] acc Hacc Ha Hb; simpl in *; try lia.
  - pose proof (square_is_float (sub x y)) as Hsq.
    eapply fle_trans; [|apply sum_squares_ge; apply add_is_float; assumption].
    apply add_ge; assumption.
  - apply IH; [|lia|lia]. apply add_is_float; [exact Hacc | apply square_is_float].
Qed.

End Binary64Props.

#[global] Instance vec_DistanceLaws : DistanceLaws (P := F64.vec).
Proof.
  split.
  - intros q n x d Hd Hn Hx Hside.
    cbn [Compare Square Distance Dims F64.vec_Comparable] in *.
    unfold F64.coord, Len, Binary64.sub in *.
    eapply fle_trans;
      [|apply (sum_squares_axis (Z.to_nat d)); [split; [lia | reflexivity] | lia | lia]].
    apply square_mono. unfold Binary64.sub.
    set (qd := nth (Z.to_nat d) (F64.coords q) 0) in *.
    set (nd := nth (Z.to_nat d) (F64.coords n) 0) in *.
    set (xd := nth (Z.to_nat d) (F64.coords x) 0) in *.
    destruct Hside as [(Hq' & Hx') | (Hq' & Hx')].
    + assert (Hqn : qd - nd <= 0).
      { destruct (Z.le_gt_cases (qd - nd) 0) as [Hle | Hgt]; [exact Hle|].
        pose proof (round_pos _ Hgt). lia. }
      assert (Hxn : 0 < xd - nd).
      { destruct (Z.le_gt_cases (xd - nd) 0) as [Hle | Hgt]; [|exact Hgt].
        pose proof (round_nonpos _ Hle). lia. }
      pose proof (round_mono (qd - xd) (qd - nd) ltac:(lia)). lia.
    + assert (Hqn : 0 < qd - nd).
      { destruct (Z.le_gt_cases (qd - nd) 0) as [Hle | Hgt]; [|exact Hgt].
        pose proof (round_nonpos _ Hle). lia. }
      assert (Hxn : xd - nd <= 0).
      { destruct (Z.le_gt_cases (xd - nd) 0) as [Hle | Hgt]; [exact Hle|].
        pose proof (round_pos _ Hgt). lia. }
      pose proof (round_mono (qd - nd) (qd - xd) ltac:(lia)). lia.
  - intros a b. cbn [Distance F64.vec_Comparable].
    apply (sum_squares_ge (F64.coords a) (F64.coords b) (Fin 0)).
    split; [lia | reflexivity].
Qed.

(** ** The generic source and sorts meet their contracts *)

Section SourcesProps.

Context {P : Type} `{Comparable P}.

Lemma pivot_first_ok : Pivot_ok (pivot_first (P := P)).
Proof.
  intros [|x xs] plane Hne; [congruence|].
  unfold pivot_first.
  set (f := fun y : P => Compare y x plane <=? 0).
  set (le := filter f xs).
  set (gt := filter (fun y => negb (f y)) xs).
  assert (Hidx : Z.to_nat (Len le) = length le) by (unfold Len; lia).
  repeat split.
  - rewrite (filter_split_Permutation f xs) at 1. apply Permutation_middle.
  - unfold Len. lia.
  - unfold Len. rewrite length_app. simpl. lia.
  - apply Index_split in H0. destruct H0 as (_ & Hsplit).
    rewrite Hidx.
    rewrite firstn_app, firstn_all, Nat.sub_diag, firstn_O, app_nil_r.
    rewrite Hidx in Hsplit.
    rewrite firstn_app, firstn_all, Nat.sub_diag, firstn_O, app_nil_r in Hsplit.
    apply app_inv_head in Hsplit. injection Hsplit as <- _.
    apply Forall_forall. intros y Hy. apply filter_In in Hy.
    destruct Hy as (_ & Hy). apply Z.leb_le. exact Hy.
  - apply Index_split in H0. destruct H0 as (_ & Hsplit).
    rewrite Hidx in Hsplit.
    rewrite firstn_app, firstn_all, Nat.sub_diag, firstn_O, app_nil_r in Hsplit.
    apply app_inv_head in Hsplit. injection Hsplit as <- _.
    replace (Z.to_nat (Len le + 1)) with (S (length le)) by (unfold Len; lia).
    rewrite skipn_app, skipn_all2 by lia.
    replace (S (length le) - length le)%nat with 1%nat by lia.
    simpl. apply Forall_forall. intros y Hy. apply filter_In in Hy.
    destruct Hy as (_ & Hy). apply negb_true_iff in Hy. apply Z.leb_gt. exact Hy.
Qed.

Lemma insert_far_Permutation (x : NodeDist P) (l : list (NodeDist P)) :
  Permutation (insert_far x l) (x :: l).
Proof.
  induction l as [|y l IH]; simpl; [reflexivity|].
  destruct (flt (Dist y) (Dist x)); [reflexivity|].
  rewrite IH. apply perm_swap.
Qed.

Lemma insert_far_sorted (x : NodeDist P) (l : list (NodeDist P)) :
  StronglySorted (fun a b => fle (Dist b) (Dist a) = true) l ->
  StronglySorted (fun a b => fle (Dist b) (Dist a) = true) (insert_far x l).
Proof.
  induction 1 as [|y l Hs IH Hy]; simpl; [repeat constructor|].
  destruct (flt (Dist y) (Dist x)) eqn:Hlt.
  - assert (Hyx : fle (Dist y) (Dist x) = true).
    { clear - Hlt. destruct (Dist y), (Dist x); float_cases. }
    constructor; [constructor; assumption|].
    constructor; [exact Hyx|].
    eapply Forall_impl; [|exact Hy]. intros z Hz. cbv beta in *.
    eapply fle_trans; eassumption.
  - constructor; [exact IH|].
    eapply Permutation_Forall; [symmetry; apply insert_far_Permutation|].
    constructor; [|exact Hy].
    rewrite flt_fle in Hlt. apply negb_false_iff in Hlt. exact Hlt.
Qed.

Lemma sort_far_ok : sort_Sort_ok (sort_far (P := P)).
Proof.
  intros l. unfold sort_far.
  induction l as [|x l (IHp & IHs)]; simpl; [split; constructor|].
  split.
  - rewrite insert_far_Permutation, IHp. reflexivity.
  - apply insert_far_sorted. exact IHs.
Qed.

End SourcesProps.

(** ** Empty trees and degenerate arguments *)

(** C7.  On the empty tree, [Nearest] returns no point with distance [+Inf],
    and [NearestN] returns no point with the one-element distance sequence
    [+Inf], for every [n] and every query. *)
Theorem empty_tree_sentinels {P : Type} `{Comparable P}
        (sort_Sort : list (NodeDist P) -> list (NodeDist P))
        (count n : Z) (q : P) :
  Nearest (mkTree nil_node count) q = (None, Inf) /\
  NearestN sort_Sort (mkTree nil_node count) n q = Ok ([], [Inf]).
Proof. split; reflexivity. Qed.

(** C8.  On a non-empty tree [Insert] ignores its [bounding] argument: the
    result is the same for [true] and [false], and whether bounding volumes
    are maintained depends on the root alone.  If the point is an Extender
    and the root holds a volume, the point is inserted by [insertBounded]
    with the flag set; if it is an Extender and the root holds no volume, by
    [insert]; if it is not an Extender, the root's volume is cleared and the
    point is inserted by [insert].  On the empty tree, by contrast, the
    argument decides whether an Extender is stored with a volume. *)
Theorem Insert_bounding_ignored {P : Type} `{Comparable P}
        (t : Tree P) (c : P) (bounding : bool) :
  Root t <> nil_node ->
  Insert t c true = Insert t c false /\
  Insert t c bounding =
    match Extender c, has_Bounding (Root t) with
    | Some Extend, true =>
        r <- insertBounded (Root t) c Extend 0 true ;;
        Ok (mkTree r (wrap_int (Count t + 1)))
    | Some _, false =>
        r <- insert (Root t) c 0 ;;
        Ok (mkTree r (wrap_int (Count t + 1)))
    | None, _ =>
        r <- insert (set_Bounding (Root t) None) c 0 ;;
        Ok (mkTree r (wrap_int (Count t + 1)))
    end /\
  (forall count Extend,
      Extender c = Some Extend ->
      Insert (mkTree nil_node count) c true <> Insert (mkTree nil_node count) c false).
Proof.
  intros Hne. split; [|split].
  - unfold Insert. destruct (Root t) as [|p pl l r b]; [congruence | reflexivity].
  - unfold Insert. destruct (Root t) as [|p pl l r b] eqn:HR; [congruence|].
    cbn [is_nil]. destruct (Extender c) as [Extend|]; [|reflexivity].
    destruct (has_Bounding (node p pl l r b)); reflexivity.
  - intros count Extend HE. unfold Insert. cbn [is_nil Root]. rewrite HE.
    cbn [insertBounded insert bind]. discriminate.
Qed.

Lemma Insert_bounding_ignored_witness :
  Insert Examples.line2 (Points.Point [4]) true =
  Insert Examples.line2 (Points.Point [4]) false /\
  Insert Examples.line2 (Points.Point [4]) false =
    match Extender (Points.Point [4]), has_Bounding (Root Examples.line2) with
    | Some Extend, true =>
        r <- insertBounded (Root Examples.line2) (Points.Point [4]) Extend 0 true ;;
        Ok (mkTree r (wrap_int (Count Examples.line2 + 1)))
    | Some _, false =>
        r <- insert (Root Examples.line2) (Points.Point [4]) 0 ;;
        Ok (mkTree r (wrap_int (Count Examples.line2 + 1)))
    | None, _ =>
        r <- insert (set_Bounding (Root Examples.line2) None) (Points.Point [4]) 0 ;;
        Ok (mkTree r (wrap_int (Count Examples.line2 + 1)))
    end /\
  (forall count Extend,
      Extender (Points.Point [4]) = Some Extend ->
      Insert (mkTree nil_node count) (Points.Point [4]) true <>
      Insert (mkTree nil_node count) (Points.Point [4]) false).
Proof.
  apply (Insert_bounding_ignored Examples.line2 (Points.Point [4]) false).
  discriminate.
Defined.

(** C9.  [Tree.Contains] on the empty tree panics (it reads the bounding
    volume of a nil root) for every argument, whereas on a non-empty tree
    whose root has no bounding volume it returns true. *)
Theorem Contains_empty_panics {P : Type} `{Comparable P} :
  (forall count c, Tree_Contains (mkTree nil_node count) c = Panic) /\
  (forall p pl l r count c,
      Tree_Contains (mkTree (node p pl l r None) count) c = Ok true).
Proof. split; reflexivity. Qed.

(** C10.  For [n < 1], [NearestN] panics on every non-empty tree and every
    query, when it allocates the candidate buffer; on the empty tree the same
    call returns the empty-tree result. *)
Theorem NearestN_small_n {P : Type} `{Comparable P}
        (sort_Sort : list (NodeDist P) -> list (NodeDist P))
        (t : Tree P) (n : Z) (q : P) :
  n < 1 -> Root t <> nil_node ->
  NearestN sort_Sort t n q = Panic /\
  forall count, NearestN sort_Sort (mkTree nil_node count) n q = Ok ([], [Inf]).
Proof.
  intros Hn Hroot. split; [|reflexivity].
  unfold NearestN, newNDists.
  replace (1 <=? n) with false by (symmetry; apply Z.leb_gt; exact Hn).
  destruct (Root t); [congruence | reflexivity].
Qed.

Lemma NearestN_small_n_witness :
  NearestN Points.sort_desc Examples.built 0 Examples.query = Panic /\
  forall count,
    NearestN Points.sort_desc (mkTree nil_node count) 0 Examples.query = Ok ([], [Inf]).
Proof.
  apply (NearestN_small_n Points.sort_desc Examples.built 0 Examples.query).
  - lia.
  - discriminate.
Defined.

(** ** The example trees are reachable *)

Lemma reachable_empty (Bounder : option (list Points.point -> option (Bounding Points.point))) :
  reachable Points.pivot Bounder Examples.empty.
Proof.
  apply (reach_New _ _ [] false). unfold New.
  destruct Bounder; reflexivity.
Qed.

Lemma reachable_built : reachable Points.pivot None Examples.built.
Proof. apply (reach_New _ _ Examples.six false). reflexivity. Qed.

Lemma reachable_grown : reachable Points.pivot None Examples.grown.
Proof.
  apply (reach_Insert _ _ Examples.built (Points.Point [6; 5]) false).
  - exact reachable_built.
  - reflexivity.
Qed.

Lemma reachable_tie1 : reachable Points.pivot None Examples.tie1.
Proof.
  apply (reach_Insert _ _ Examples.empty (Points.Point [5; 1]) true).
  - apply reachable_empty.
  - reflexivity.
Qed.

Lemma reachable_tie2 : reachable Points.pivot None Examples.tie2.
Proof.
  apply (reach_Insert _ _ Examples.tie1 (Points.Point [5; 2]) true).
  - exact reachable_tie1.
  - reflexivity.
Qed.

Lemma reachable_line2 : reachable Points.pivot None Examples.line2.
Proof.
  apply (reach_Insert _ _ Examples.line1 (Points.Point [3]) true).
  - apply (reach_Insert _ _ Examples.empty (Points.Point [5]) true).
    + apply reachable_empty.
    + reflexivity.
  - reflexivity.
Qed.

Lemma reachable_line3 : reachable Points.pivot None Examples.line3.
Proof.
  apply (reach_Insert _ _ Examples.line2 (Points.Plain [1]) true).
  - exact reachable_line2.
  - reflexivity.
Qed.

Lemma Nearest_correct_witness :
  exists t x,
    New pivot_first None FloatExamples.pair false = Ok t /\
    Nearest t FloatExamples.far = (Some x, Distance FloatExamples.far x) /\
    In x FloatExamples.pair /\
    (forall y, In y FloatExamples.pair ->
               fle (Distance FloatExamples.far x) (Distance FloatExamples.far y) = true) /\
    (In FloatExamples.far FloatExamples.pair ->
     Distance FloatExamples.far FloatExamples.far = Fin 0 ->
     Distance FloatExamples.far x = Fin 0).
Proof.
  apply (Nearest_correct pivot_first None pivot_first_ok 2).
  - split; [lia | reflexivity].
  - discriminate.
  - repeat constructor.
  - reflexivity.
Defined.

(** Rounding at work.  The exact squared distances from (94906267, 0) to
    (0, 0) and (0, 1) are 9007199515875289 and 9007199515875290; both round
    to 9007199515875288, and [Nearest] returns the point it met first, the
    root (0, 1). *)
Example Nearest_rounds :
  94906267 * 94906267 = 9007199515875289 /\
  Distance FloatExamples.far (F64.Vec [0; 0]) = Fin 9007199515875288 /\
  Distance FloatExamples.far (F64.Vec [0; 1]) = Fin 9007199515875288 /\
  Nearest FloatExamples.pair_tree FloatExamples.far =
    (Some (F64.Vec [0; 1]), Fin 9007199515875288).
Proof. repeat split; vm_compute; reflexivity. Qed.

(** A query that coincides with a stored point is at distance 0 from it,
    and [Nearest] returns that point. *)
Lemma vec_Distance_self (q : F64.vec) : Distance q q = Fin 0.
Proof.
  destruct q as [xs]. cbn [Distance F64.vec_Comparable F64.coords].
  induction xs as [|x xs IH]; [reflexivity|].
  cbn [F64.sum_squares]. unfold Binary64.sub. rewrite Z.sub_diag. exact IH.
Qed.

Example Nearest_coincident :
  Nearest FloatExamples.grown (F64.Vec [6; 5]) = (Some (F64.Vec [6; 5]), Fin 0).
Proof. vm_compute. reflexivity. Qed.

(** Overflow at work.  The squared distance from the origin to [2 ^ 700]
    is [+Inf]; [Nearest] still returns the point, with that distance. *)
Example Nearest_overflows :
  Distance FloatExamples.origin FloatExamples.huge = Inf /\
  Nearest FloatExamples.huge_tree FloatExamples.origin = (Some FloatExamples.huge, Inf).
Proof. split; vm_compute; reflexivity. Qed.

(** The 2-D scenario: the nearest point to (9,2) is (8,1), at squared
    distance 2. *)
Example Nearest_scenario :
  Nearest Examples.built Examples.query = (Some (Points.Point [8; 1]), Fin 2).
Proof. reflexivity. Qed.

Lemma reachable_ordered_witness : ordered (Root Examples.grown).
Proof.
  apply (reachable_ordered Points.pivot None pivot_ok Examples.grown).
  exact reachable_grown.
Defined.

(** ** n nearest neighbours beyond the size of the tree *)

(** C2 (the code departs from the claim).  On the reachable tree that holds
    the single point (5,1), so with [Count = 1], [NearestN 2 q] does not
    return [min 2 1 = 1] result: the sentinel stays in the candidate buffer
    and reading its point panics, for every query. *)
Theorem NearestN_panics_beyond_Count (q : Points.point) :
  reachable Points.pivot None Examples.tie1 /\
  Count Examples.tie1 = 1 /\
  NearestN Points.sort_desc Examples.tie1 2 q = Panic.
Proof.
  split; [exact reachable_tie1|]. split; [reflexivity|].
  unfold NearestN, Examples.tie1. simpl.
  match goal with |- context [?c <=? 0] => destruct (c <=? 0) end; reflexivity.
Qed.

(** ** Bounded traversal and ties *)

(** C3 (the code departs from the claim).  In the reachable tree [tie2] the
    point (5,2) sits in the left subtree of (5,1), with which it ties along
    plane 0.  Both points are in the box [(5,0), (5,3)], but [DoBounded]
    visits (5,1) only: the left subtree is skipped because the low corner
    does not compare strictly below the node. *)
Theorem DoBounded_skips_tie :
  reachable Points.pivot None Examples.tie2 /\
  filter (Contains (Some Examples.box)) (points (Root Examples.tie2)) =
    [Points.Point [5; 2]; Points.Point [5; 1]] /\
  DoBounded (list Points.point) Examples.tie2 Points.record_point (Some Examples.box) [] =
    Ok ([Points.Point [5; 1]], false).
Proof.
  split; [exact reachable_tie2|]. split; reflexivity.
Qed.

(** ** Bounding volumes under insertion *)

Section BoundingProps.

Context {P : Type} `{Comparable P}.

#[local] Arguments Contains : simpl never.

Lemma insert_total (n : Node P) (c : P) :
  Dims c <> 0 ->
  forall d, exists n', insert n c d = Ok n' /\
                       (n <> nil_node -> Node_Bounding n' = Node_Bounding n).
Proof.
  intros Hc.
  induction n as [|p pl l IHl r IHr b]; intros d; simpl.
  - eexists; split; [reflexivity | congruence].
  - unfold go_rem. replace (Dims c =? 0) with false by (symmetry; apply Z.eqb_neq; exact Hc).
    simpl. destruct (Compare c p pl <=? 0).
    + destruct (IHl (Z.rem (wrap_int (pl + 1)) (Dims c))) as (l' & -> & _).
      simpl. eexists; split; reflexivity.
    + destruct (IHr (Z.rem (wrap_int (pl + 1)) (Dims c))) as (r' & -> & _).
      simpl. eexists; split; reflexivity.
Qed.

Lemma insert_has_Bounding (n n' : Node P) (c : P) (d : Dim) :
  insert n c d = Ok n' -> has_Bounding n' = has_Bounding n.
Proof.
  destruct n as [|p pl l r b]; simpl; intros Hins.
  - injection Hins as <-. reflexivity.
  - inv_bind Hins as d' Hd'.
    destruct (Compare c p pl <=? 0); inv_bind Hins as s Hs; injection Hins as <-;
      reflexivity.
Qed.

Lemma has_Bounding_set_None (n : Node P) : has_Bounding (set_Bounding n None) = false.
Proof. destruct n; reflexivity. Qed.

Lemma insertBounded_points (n : Node P) :
  forall c Extend d bounding n',
    insertBounded n c Extend d bounding = Ok n' ->
    Permutation (points n') (c :: points n).
Proof.
  induction n as [|p pl l IHl r IHr b]; intros c Extend d bounding n' Hins;
    simpl in Hins.
  - injection Hins as <-. simpl. reflexivity.
  - inv_bind Hins as d' Hd'.
    destruct (Compare c p pl <=? 0); inv_bind Hins as s Hs; injection Hins as <-; simpl.
    + apply Permutation_insert_left. eapply IHl; eassumption.
    + apply Permutation_insert_right. eapply IHr; eassumption.
Qed.

Lemma covered_bounds_cover (n : Node P) : covered n = true -> bounds_cover n = true.
Proof.
  induction n as [|p pl l IHl r IHr b]; simpl; [reflexivity|].
  destruct b as [b|]; [|discriminate].
  intros Hc. apply andb_true_iff in Hc. destruct Hc as (Hc & Hr).
  apply andb_true_iff in Hc. destruct Hc as (Hb & Hl).
  rewrite Hb, (IHl Hl), (IHr Hr). reflexivity.
Qed.

Lemma forallb_Permutation {A : Type} (f : A -> bool) (l l' : list A) :
  Permutation l l' -> forallb f l = true -> forallb f l' = true.
Proof.
  intros Hperm Hl. rewrite forallb_forall in *.
  intros x Hx. apply Hl. eapply Permutation_in; [symmetry; exact Hperm | exact Hx].
Qed.

Lemma build_has_Bounding (Pivot : list P -> Dim -> list P * Z) (fuel : nat)
      (p : list P) (plane : Dim) (n : Node P) :
  build Pivot fuel p plane = Ok n -> has_Bounding n = false.
Proof.
  destruct fuel as [|fuel]; simpl; destruct (Len p =? 0); intros Hb;
    try discriminate; try (injection Hb as <-; reflexivity).
  destruct (Pivot p plane) as [p' piv].
  inv_bind Hb as d Hd. inv_bind Hb as np Hnp. inv_bind Hb as lp Hlp.
  inv_bind Hb as l Hl. inv_bind Hb as rp Hrp. inv_bind Hb as r Hr.
  injection Hb as <-. reflexivity.
Qed.

Lemma New_cases (Pivot : list P -> Dim -> list P * Z)
      (Bounder : option (list P -> option (Bounding P)))
      (p : list P) (bounding : bool) (t : Tree P) :
  New Pivot Bounder p bounding = Ok t ->
  (exists Bounds, Bounder = Some Bounds /\
                  buildBounded Pivot Bounds (length p) p 0 true = Ok (Root t)) \/
  build Pivot (length p) p 0 = Ok (Root t).
Proof.
  unfold New. intros HNew.
  destruct Bounder as [Bounds|]; [destruct bounding|];
    inv_bind HNew as r Hr; injection HNew as <-; simpl; eauto.
Qed.

Section Laws.

Variable Pivot : list P -> Dim -> list P * Z.
Variable Bounder : option (list P -> option (Bounding P)).
Hypothesis HPivot : Pivot_ok Pivot.
Context {BL : BoundingLaws Bounder}.

Lemma buildBounded_covered (Bounds : list P -> option (Bounding P)) (fuel : nat) :
  Bounder = Some Bounds ->
  forall p plane n,
    buildBounded Pivot Bounds fuel p plane true = Ok n -> covered n = true.
Proof.
  intros HB.
  induction fuel as [|fuel IH]; intros p plane n Hb.
  - simpl in Hb. destruct (Len p =? 0); [|discriminate].
    injection Hb as <-. reflexivity.
  - pose proof (buildBounded_ordered Pivot Bounds HPivot _ _ _ _ _ Hb) as (Hperm & _).
    simpl in Hb. destruct (Len p =? 0) eqn:E.
    + injection Hb as <-. reflexivity.
    + assert (Hne : p <> []).
      { intros Hp. apply Len_nil_iff in Hp. congruence. }
      pose proof (HPivot p plane Hne) as HPiv.
      destruct (Pivot p plane) as [p' piv].
      destruct HPiv as (Hpp' & _ & _).
      assert (Hne' : p' <> []).
      { intros Hp'. subst p'. apply Permutation_sym, Permutation_nil in Hpp'.
        contradiction. }
      destruct (Bounds_covers Bounds p' HB Hne') as (b & Hbnd & Hcov).
      inv_bind Hb as d Hd. inv_bind Hb as np Hnp. inv_bind Hb as lp Hlp.
      inv_bind Hb as l Hl. inv_bind Hb as rp Hrp. inv_bind Hb as r Hr.
      injection Hb as <-.
      rewrite Hbnd. simpl in Hperm |- *.
      rewrite (IH _ _ _ Hl), (IH _ _ _ Hr), !andb_true_r.
      eapply forallb_Permutation; [|exact Hcov].
      rewrite <- Hpp'. symmetry. exact Hperm.
Qed.

Lemma insertBounded_covered (n : Node P) :
  forall c Extend d n',
    Extender c = Some Extend -> covered n = true ->
    insertBounded n c Extend d true = Ok n' -> covered n' = true.
Proof.
  induction n as [|p pl l IHl r IHr b]; intros c Extend d n' HE Hcov Hins.
  - simpl in Hins. injection Hins as <-. simpl.
    rewrite Clone_covers. reflexivity.
  - pose proof (insertBounded_points _ _ _ _ _ _ Hins) as Hperm.
    simpl in Hins, Hcov.
    destruct b as [b|]; [|discriminate].
    apply andb_true_iff in Hcov. destruct Hcov as (Hcov & Cr).
    apply andb_true_iff in Hcov. destruct Hcov as (Hb & Cl).
    destruct (Extend_covers c Extend b HE) as (b' & Hb' & Hc & Hmono).
    rewrite Hb' in Hins.
    assert (Hall : forallb (Contains (Some b')) (c :: points l ++ p :: points r) = true).
    { simpl. rewrite Hc. simpl. rewrite forallb_forall in *.
      intros x Hx. apply Hmono. apply Hb. exact Hx. }
    inv_bind Hins as d' Hd'.
    destruct (Compare c p pl <=? 0); inv_bind Hins as s Hs; injection Hins as <-.
    + simpl in Hperm |- *. rewrite (IHl _ _ _ _ HE Cl Hs), Cr, !andb_true_r.
      eapply forallb_Permutation; [symmetry; exact Hperm | exact Hall].
    + simpl in Hperm |- *. rewrite (IHr _ _ _ _ HE Cr Hs), Cl, !andb_true_r.
      eapply forallb_Permutation; [symmetry; exact Hperm | exact Hall].
Qed.

Lemma reachable_covered (t : Tree P) :
  reachable Pivot Bounder t -> has_Bounding (Root t) = true -> covered (Root t) = true.
Proof.
  induction 1 as [p bounding t HNew | t c bounding t' Hreach IH HIns]; intros Hroot.
  - apply New_cases in HNew. destruct HNew as [(Bounds & HB & Hr) | Hr].
    + eapply buildBounded_covered; eassumption.
    + apply build_has_Bounding in Hr. congruence.
  - unfold Insert in HIns.
    destruct (Extender c) as [Extend|] eqn:HE.
    + destruct (is_nil (Root t)) eqn:Hnil.
      * destruct (Root t) as [|? ? ? ? ?] eqn:HR; [|discriminate].
        destruct bounding.
        -- inv_bind HIns as r Hr. injection HIns as <-. simpl.
           eapply insertBounded_covered; [exact HE | | exact Hr]. reflexivity.
        -- inv_bind HIns as r Hr. injection HIns as <-. simpl in Hroot.
           apply insert_has_Bounding in Hr. simpl in Hr. congruence.
      * destruct (has_Bounding (Root t)) eqn:HbR.
        -- inv_bind HIns as r Hr. injection HIns as <-. simpl.
           eapply insertBounded_covered; [exact HE | | exact Hr]. auto.
        -- inv_bind HIns as r Hr. injection HIns as <-. simpl in Hroot.
           apply insert_has_Bounding in Hr. congruence.
    + inv_bind HIns as r Hr. injection HIns as <-. simpl in Hroot.
      apply insert_has_Bounding in Hr. rewrite has_Bounding_set_None in Hr. congruence.
Qed.

End Laws.

End BoundingProps.

(** ** The concrete points meet the bounding contract *)

Lemma nth_zip_with (f : Z -> Z -> Z) (a b : list Z) (n : nat) :
  f 0 0 = 0 ->
  nth n (Points.zip_with f a b) 0 = f (nth n a 0) (nth n b 0).
Proof.
  intros Hf. unfold Points.zip_with.
  set (m := Nat.max (length a) (length b)).
  set (g := fun d : nat => f (nth d a 0) (nth d b 0)).
  destruct (Nat.lt_ge_cases n m) as [Hn | Hn].
  - rewrite (nth_indep _ 0 (g O)) by (rewrite length_map, length_seq; exact Hn).
    rewrite map_nth, seq_nth by exact Hn. reflexivity.
  - rewrite nth_overflow by (rewrite length_map, length_seq; exact Hn).
    rewrite (nth_overflow a), (nth_overflow b) by lia.
    symmetry. exact Hf.
Qed.

Lemma Contains_point_iff (b : Bounding Points.point) (c : Points.point) :
  Contains (Some b) c = true <->
  forall d, In d (axes c) ->
            Points.coord (b0 b) d <= Points.coord c d <= Points.coord (b1 b) d.
Proof.
  unfold Contains. rewrite forallb_forall.
  split; intros Hall d Hd; specialize (Hall d Hd); simpl in *.
  - apply negb_true_iff, orb_false_iff in Hall. destruct Hall as (Hlo & Hhi).
    apply Z.ltb_ge in Hlo, Hhi. lia.
  - apply negb_true_iff, orb_false_iff. split; apply Z.ltb_ge; lia.
Qed.

Lemma extend_covers (xs : list Z) (ob : option (Bounding Points.point)) :
  exists b', Points.extend xs ob = Some b' /\
             (forall c, Points.coords c = xs -> Contains (Some b') c = true) /\
             (forall b x, ob = Some b -> Contains (Some b) x = true ->
                          Contains (Some b') x = true).
Proof.
  unfold Points.extend. eexists; split; [reflexivity|]. split.
  - intros c Hc. apply Contains_point_iff. intros d _.
    unfold Points.coord. simpl. rewrite !nth_zip_with by reflexivity.
    rewrite Hc. lia.
  - intros b x -> Hx. rewrite Contains_point_iff in *.
    intros d Hd. specialize (Hx d Hd).
    unfold Points.coord in *. simpl. rewrite !nth_zip_with by reflexivity. lia.
Qed.

Lemma bounds_covers_fold (p : list Points.point) :
  forall ob, p <> [] \/ ob <> None ->
    exists b', fold_left (fun b x => Points.extend (Points.coords x) b) p ob = Some b' /\
               forallb (Contains (Some b')) p = true /\
               (forall b x, ob = Some b -> Contains (Some b) x = true ->
                            Contains (Some b') x = true).
Proof.
  induction p as [|y p IH]; intros ob Hob; simpl.
  - destruct ob as [b|]; [|destruct Hob; congruence].
    exists b. split; [reflexivity|]. split; [reflexivity|].
    intros b' x Hb' Hx. injection Hb' as <-. exact Hx.
  - destruct (extend_covers (Points.coords y) ob) as (b1 & Hb1 & Hy & Hmono).
    rewrite Hb1.
    destruct (IH (Some b1)) as (b' & Hb' & Hp & Hmono'); [right; discriminate|].
    exists b'. split; [exact Hb'|]. split.
    + rewrite Hp, andb_true_r. apply (Hmono' b1); [reflexivity|].
      apply Hy. reflexivity.
    + intros b x Hb Hx. apply (Hmono' b1); [reflexivity|].
      eapply Hmono; eassumption.
Qed.

#[global] Instance point_BoundingLaws : BoundingLaws (Some Points.bounds).
Proof.
  split.
  - intros Bounds p HB Hp. injection HB as <-.
    destruct (bounds_covers_fold p None) as (b & Hb & Hcov & _); [left; exact Hp|].
    exists b. split; assumption.
  - intros c. apply Contains_point_iff. intros d _. simpl. lia.
  - intros c Extend b HE.
    destruct c as [xs|xs]; simpl in HE; [|discriminate].
    injection HE as <-.
    destruct (extend_covers xs (Some b)) as (b' & Hb' & Hc & Hmono).
    exists b'. split; [exact Hb'|]. split.
    + apply Hc. reflexivity.
    + intros x Hx. eapply Hmono; [reflexivity | exact Hx].
Qed.

(** ** Bounding state after insertions *)

(** C4, as stated, fails: after a point that cannot extend volumes is
    inserted into the bounded tree [line2], the root's volume is cleared but
    the node holding (3) keeps its own. *)
Lemma Insert_plain_counterexample :
  ~ (forall (t : Tree Points.point) c bounding t',
        reachable Points.pivot None t ->
        has_Bounding (Root t) = true -> Extender c = None ->
        Insert t c bounding = Ok t' -> unbounded (Root t') = true).
Proof.
  intros Hall.
  specialize (Hall Examples.line2 (Points.Plain [1]) true Examples.line3
                   reachable_line2 eq_refl eq_refl eq_refl).
  discriminate Hall.
Qed.

(** C4, amended.  Inserting a point that lacks the extend capability (and
    has at least one dimension) into a non-empty tree succeeds and leaves
    the root without a bounding volume: the tree is marked as non-bounded,
    and [Tree.Contains] answers true for every point. *)
Theorem Insert_plain_clears_root {P : Type} `{Comparable P}
        (t : Tree P) (c : P) (bounding : bool) :
  Root t <> nil_node -> Extender c = None -> Dims c <> 0 ->
  exists t', Insert t c bounding = Ok t' /\
             has_Bounding (Root t') = false /\
             forall x, Tree_Contains t' x = Ok true.
Proof.
  intros Hroot HE Hc. unfold Insert. rewrite HE.
  destruct (insert_total (set_Bounding (Root t) None) c Hc 0) as (r & Hr & Hb).
  rewrite Hr. simpl. eexists; split; [reflexivity|]. simpl.
  assert (Hnb : Node_Bounding r = Ok None).
  { rewrite Hb; destruct (Root t); simpl; congruence. }
  split.
  - destruct r as [|? ? ? ? [b|]]; simpl in *; congruence.
  - intros x. unfold Tree_Contains. simpl. rewrite Hnb. reflexivity.
Qed.

Lemma Insert_plain_clears_root_witness :
  exists t', Insert Examples.line2 (Points.Plain [1]) true = Ok t' /\
             has_Bounding (Root t') = false /\
             forall x, Tree_Contains t' x = Ok true.
Proof.
  apply (Insert_plain_clears_root Examples.line2 (Points.Plain [1]) true).
  - discriminate.
  - reflexivity.
  - discriminate.
Defined.

(** C5, as stated, fails: in the reachable tree [line3] the node holding (3)
    still carries the volume [(3), (3)], which does not contain the point
    (1) stored below it. *)
Lemma stale_bounds_counterexample :
  ~ (forall t : Tree Points.point,
        reachable Points.pivot None t -> bounds_cover (Root t) = true).
Proof.
  intros Hall. specialize (Hall Examples.line3 reachable_line3).
  discriminate Hall.
Qed.

(** C5, amended.  In every tree reachable by construction and insertions,
    as long as the root holds a bounding volume, every node holds one and
    it contains every point stored in that node's own subtree, provided
    [Pivot], [Bounds], [Clone] and [Extend] meet their contracts. *)
Theorem bounds_cover_while_bounded {P : Type} `{Comparable P}
        (Pivot : list P -> Dim -> list P * Z)
        (Bounder : option (list P -> option (Bounding P)))
        (HPivot : Pivot_ok Pivot) (BL : BoundingLaws Bounder) (t : Tree P) :
  reachable Pivot Bounder t -> has_Bounding (Root t) = true ->
  covered (Root t) = true /\ bounds_cover (Root t) = true.
Proof.
  intros Hreach Hroot.
  assert (Hcov : covered (Root t) = true).
  { eapply reachable_covered; eassumption. }
  split; [exact Hcov | apply covered_bounds_cover; exact Hcov].
Qed.

Lemma reachable_boxed1 : reachable Points.pivot (Some Points.bounds) Examples.boxed1.
Proof.
  apply (reach_Insert _ _ Examples.boxed (Points.Point [6; 5]) false).
  - apply (reach_New _ _ Examples.six true). reflexivity.
  - reflexivity.
Qed.

Lemma bounds_cover_while_bounded_witness :
  covered (Root Examples.boxed1) = true /\ bounds_cover (Root Examples.boxed1) = true.
Proof.
  apply (bounds_cover_while_bounded Points.pivot (Some Points.bounds)
                                    pivot_ok point_BoundingLaws Examples.boxed1).
  - exact reachable_boxed1.
  - reflexivity.
Defined.

(** * Further properties of construction and insertion *)

Section ShapeProps.

Context {P : Type} `{Comparable P}.

Lemma insertBounded_false_insert (n : Node P) :
  forall c Extend d, insertBounded n c Extend d false = insert n c d.
Proof.
  induction n as [|p pl l IHl r IHr b]; intros c Extend d; simpl; [reflexivity|].
  destruct (go_rem (wrap_int (pl + 1)) (Dims c)) as [d'| |]; simpl; try reflexivity.
  destruct (Compare c p pl <=? 0); [rewrite IHl | rewrite IHr]; reflexivity.
Qed.

Lemma insert_points (n n' : Node P) (c : P) (d : Dim) :
  insert n c d = Ok n' -> Permutation (points n') (c :: points n).
Proof.
  intros Hins. rewrite <- (insertBounded_false_insert n c (fun b => b) d) in Hins.
  eapply insertBounded_points. exact Hins.
Qed.

Lemma insertBounded_total (n : Node P) (c : P)
      (Extend : option (Bounding P) -> option (Bounding P)) (bounding : bool) :
  Dims c <> 0 -> forall d, exists n', insertBounded n c Extend d bounding = Ok n'.
Proof.
  intros Hc.
  induction n as [|p pl l IHl r IHr b]; intros d; simpl.
  - eexists; reflexivity.
  - unfold go_rem. replace (Dims c =? 0) with false by (symmetry; apply Z.eqb_neq; exact Hc).
    simpl. destruct (Compare c p pl <=? 0).
    + destruct (IHl (Z.rem (wrap_int (pl + 1)) (Dims c))) as (l' & ->).
      simpl. eexists; reflexivity.
    + destruct (IHr (Z.rem (wrap_int (pl + 1)) (Dims c))) as (r' & ->).
      simpl. eexists; reflexivity.
Qed.

Lemma planes_cycle_in (k : Z) (n : Node P) :
  1 <= k -> forall pl, 0 <= pl < k -> planes_cycle k pl n -> planes_in k n.
Proof.
  intros Hk.
  induction n as [|p pl' l IHl r IHr b]; intros pl Hpl Hc; simpl; [exact I|].
  destruct Hc as (-> & Hl & Hr).
  assert (Hnp : 0 <= Z.rem (pl + 1) k < k) by (apply Z.rem_bound_pos; lia).
  repeat split; try lia; eauto.
Qed.

Lemma insertBounded_planes_cycle (k : Z) (Hk : 1 <= k < 2 ^ 63) (n : Node P) :
  forall c Extend bounding pl n',
    Dims c = k -> 0 <= pl < k -> planes_cycle k pl n ->
    insertBounded n c Extend pl bounding = Ok n' -> planes_cycle k pl n'.
Proof.
  induction n as [|p pl' l IHl r IHr b]; intros c Extend bounding pl n' Hc Hpl Hcyc Hins;
    simpl in Hins.
  - injection Hins as <-. simpl. auto.
  - destruct Hcyc as (-> & Cl & Cr).
    unfold go_rem in Hins. rewrite Hc in Hins.
    replace (k =? 0) with false in Hins by (symmetry; apply Z.eqb_neq; lia).
    simpl in Hins. rewrite wrap_int_small in Hins by lia.
    assert (Hnp : 0 <= Z.rem (pl + 1) k < k) by (apply Z.rem_bound_pos; lia).
    destruct (Compare c p pl <=? 0); inv_bind Hins as s Hs; injection Hins as <-; simpl.
    + repeat split; try assumption. eapply IHl; eassumption.
    + repeat split; try assumption. eapply IHr; eassumption.
Qed.

Lemma build_unbounded (Pivot : list P -> Dim -> list P * Z) (fuel : nat) :
  forall p plane n, build Pivot fuel p plane = Ok n -> unbounded n = true.
Proof.
  induction fuel as [|fuel IH]; intros p plane n Hb; simpl in Hb.
  - destruct (Len p =? 0); [|discriminate]. injection Hb as <-. reflexivity.
  - destruct (Len p =? 0); [injection Hb as <-; reflexivity|].
    destruct (Pivot p plane) as [p' piv].
    inv_bind Hb as d Hd. inv_bind Hb as np Hnp. inv_bind Hb as lp Hlp.
    inv_bind Hb as l Hl. inv_bind Hb as rp Hrp. inv_bind Hb as r Hr.
    injection Hb as <-. simpl.
    rewrite (IH _ _ _ Hl), (IH _ _ _ Hr). reflexivity.
Qed.

Section WithPivot.

Variable Pivot : list P -> Dim -> list P * Z.
Hypothesis HPivot : Pivot_ok Pivot.
Variable k : Z.
Hypothesis Hk : 1 <= k < 2 ^ 63.

Lemma buildBounded_planes_cycle (Bounds : list P -> option (Bounding P))
      (bounding : bool) (fuel : nat) :
  forall p plane n,
    0 <= plane < k -> Forall (fun x => Dims x = k) p ->
    buildBounded Pivot Bounds fuel p plane bounding = Ok n -> planes_cycle k plane n.
Proof.
  induction fuel as [|fuel IH]; intros p plane n Hpl Hdims Hb; simpl in Hb.
  - destruct (Len p =? 0); [|discriminate]. injection Hb as <-. exact I.
  - destruct (Len p =? 0) eqn:E; [injection Hb as <-; exact I|].
    assert (Hne : p <> []).
    { intros Hp. apply Len_nil_iff in Hp. congruence. }
    pose proof (HPivot p plane Hne) as HPiv.
    destruct (Pivot p plane) as [p' piv].
    destruct HPiv as (Hperm & Hpiv & _).
    assert (Hdims' : Forall (fun x => Dims x = k) p').
    { eapply Permutation_Forall; eassumption. }
    inv_bind Hb as d Hd.
    pose proof (Index_split _ _ _ Hd) as (_ & Hsplit).
    assert (Hdk : Dims d = k).
    { rewrite Hsplit in Hdims'. apply Forall_app in Hdims'.
      destruct Hdims' as (_ & Hd'). apply Forall_cons_iff in Hd'. tauto. }
    unfold go_rem in Hb. rewrite Hdk in Hb.
    replace (k =? 0) with false in Hb by (symmetry; apply Z.eqb_neq; lia).
    simpl in Hb. rewrite wrap_int_small in Hb by lia.
    assert (Hnp : 0 <= Z.rem (plane + 1) k < k) by (apply Z.rem_bound_pos; lia).
    inv_bind Hb as lp Hlp. rewrite Slice_prefix in Hlp by lia. injection Hlp as <-.
    inv_bind Hb as l Hl.
    inv_bind Hb as rp Hrp. rewrite Slice_suffix in Hrp by lia. injection Hrp as <-.
    inv_bind Hb as r Hr. injection Hb as <-. simpl.
    repeat split.
    + eapply IH; [exact Hnp | | exact Hl]. apply Forall_prefix_suffix. exact Hdims'.
    + eapply IH; [exact Hnp | | exact Hr]. apply Forall_prefix_suffix. exact Hdims'.
Qed.

End WithPivot.

End ShapeProps.

(** X1.  From a source of [k]-dimensional points whose [Pivot] meets its
    postcondition, [New] returns a tree: it stores exactly the points of the
    source, its [Count] is the source's length, and the planes cycle with the
    depth, starting at 0. *)
Theorem New_stores_source {P : Type} `{Comparable P}
        (Pivot : list P -> Dim -> list P * Z)
        (Bounder : option (list P -> option (Bounding P)))
        (HPivot : Pivot_ok Pivot) (k : Z) (Hk : 1 <= k < 2 ^ 63)
        (p : list P) (bounding : bool) :
  Forall (fun x => Dims x = k) p ->
  exists t, New Pivot Bounder p bounding = Ok t /\
            Count t = Len p /\
            Permutation (points (Root t)) p /\
            planes_cycle k 0 (Root t).
Proof.
  intros Hdims.
  destruct (New_invariants Pivot Bounder HPivot k Hk p bounding Hdims)
    as (t & HNew & HCount & Hperm & _ & _).
  exists t. repeat split; try assumption.
  assert (Hb : exists Bounds b, buildBounded Pivot Bounds (length p) p 0 b = Ok (Root t)).
  { apply New_cases in HNew. destruct HNew as [(Bounds & _ & Hr) | Hr].
    - exists Bounds, true. exact Hr.
    - exists (fun _ => None), false. rewrite buildBounded_false. exact Hr. }
  destruct Hb as (Bounds & b & Hr).
  eapply buildBounded_planes_cycle; try eassumption. lia.
Qed.

Lemma New_stores_source_witness :
  exists t, New Points.pivot None Examples.six false = Ok t /\
            Count t = Len Examples.six /\
            Permutation (points (Root t)) Examples.six /\
            planes_cycle 2 0 (Root t).
Proof.
  apply (New_stores_source Points.pivot None pivot_ok 2).
  - split; [lia | reflexivity].
  - repeat constructor.
Defined.

(** X2.  When bounding is not requested, or the source cannot compute
    bounds, no node of the tree [New] returns carries a bounding volume. *)
Theorem New_unbounded {P : Type} `{Comparable P}
        (Pivot : list P -> Dim -> list P * Z)
        (Bounder : option (list P -> option (Bounding P)))
        (p : list P) (bounding : bool) (t : Tree P) :
  New Pivot Bounder p bounding = Ok t ->
  bounding = false \/ Bounder = None ->
  unbounded (Root t) = true.
Proof.
  unfold New. intros HNew Hcase.
  assert (Hb : build Pivot (length p) p 0 = Ok (Root t)).
  { destruct Bounder as [Bounds|]; [destruct bounding|].
    - destruct Hcase; discriminate.
    - inv_bind HNew as r Hr. injection HNew as <-. exact Hr.
    - inv_bind HNew as r Hr. injection HNew as <-. exact Hr. }
  eapply build_unbounded. exact Hb.
Qed.

Lemma New_unbounded_witness : unbounded (Root Examples.built) = true.
Proof.
  apply (New_unbounded Points.pivot None Examples.six false Examples.built).
  - reflexivity.
  - left. reflexivity.
Defined.

Lemma Insert_points_Count {P : Type} `{Comparable P}
      (t t' : Tree P) (c : P) (bounding : bool) :
  Insert t c bounding = Ok t' ->
  Permutation (points (Root t')) (c :: points (Root t)) /\
  Count t' = wrap_int (Count t + 1).
Proof.
  unfold Insert. intros Hins.
  destruct (Extender c) as [Extend|].
  - destruct (if is_nil (Root t) then bounding else has_Bounding (Root t));
      inv_bind Hins as r Hr; injection Hins as <-; simpl; split; try reflexivity.
    + eapply insertBounded_points. exact Hr.
    + eapply insert_points. exact Hr.
  - inv_bind Hins as r Hr. injection Hins as <-. simpl. split; [|reflexivity].
    rewrite <- (points_set_Bounding (Root t) None).
    eapply insert_points. exact Hr.
Qed.

(** X3.  A successful [Insert] adds exactly the given point to the stored
    points and increments [Count] by one (modulo 2^64). *)
Theorem Insert_adds_point {P : Type} `{Comparable P}
        (t t' : Tree P) (c : P) (bounding : bool) :
  Insert t c bounding = Ok t' ->
  Permutation (points (Root t')) (c :: points (Root t)) /\
  Count t' = wrap_int (Count t + 1) /\
  (- 2 ^ 63 <= Count t < 2 ^ 63 - 1 -> Tree_Len t' = Tree_Len t + 1).
Proof.
  intros Hins.
  pose proof (Insert_points_Count t t' c bounding Hins) as Hr.
  destruct Hr as (Hperm & Hcount).
  repeat split; try assumption.
  intros Hrange. unfold Tree_Len. rewrite Hcount.
  apply wrap_int_small. lia.
Qed.

Lemma Insert_adds_point_witness :
  Permutation (points (Root Examples.grown))
              (Points.Point [6; 5] :: points (Root Examples.built)) /\
  Count Examples.grown = wrap_int (Count Examples.built + 1) /\
  (- 2 ^ 63 <= Count Examples.built < 2 ^ 63 - 1 ->
   Tree_Len Examples.grown = Tree_Len Examples.built + 1).
Proof.
  apply (Insert_adds_point Examples.built Examples.grown (Points.Point [6; 5]) false).
  reflexivity.
Defined.

(** X4.  On a non-empty tree, [Insert] panics exactly when the point has no
    dimension (the next plane is a remainder modulo [Dims]); otherwise it
    returns a tree.  On the empty tree it always returns the one-node tree of
    plane 0, bounded by the point itself when bounding is requested and the
    point can extend volumes. *)
Theorem Insert_panics_iff {P : Type} `{Comparable P}
        (t : Tree P) (c : P) (bounding : bool) :
  Root t <> nil_node ->
  (if Dims c =? 0 then Insert t c bounding = Panic
   else exists t', Insert t c bounding = Ok t') /\
  forall count,
    Insert (mkTree nil_node count) c bounding =
    Ok (mkTree (node c 0 nil_node nil_node
                     (match Extender c with
                      | Some _ => if bounding
                                  then Some (mkBounding (Clone c) (Clone c))
                                  else None
                      | None => None
                      end))
               (wrap_int (count + 1))).
Proof.
  intros Hroot. split.
  - unfold Insert.
    destruct (Root t) as [|p pl l r b] eqn:HR; [congruence|].
    destruct (Dims c =? 0) eqn:Hc.
    + simpl. unfold go_rem. rewrite Hc.
      destruct (Extender c); [destruct b|]; reflexivity.
    + apply Z.eqb_neq in Hc. rewrite <- HR.
      destruct (Extender c) as [Extend|].
      * destruct (if is_nil (Root t) then bounding else has_Bounding (Root t)).
        -- destruct (insertBounded_total (Root t) c Extend true Hc 0) as (r' & ->).
           simpl. eexists; reflexivity.
        -- destruct (insert_total (Root t) c Hc 0) as (r' & -> & _).
           simpl. eexists; reflexivity.
      * destruct (insert_total (set_Bounding (Root t) None) c Hc 0) as (r' & -> & _).
        simpl. eexists; reflexivity.
  - intros count. unfold Insert. simpl.
    destruct (Extender c); [destruct bounding|]; reflexivity.
Qed.

Lemma Insert_panics_iff_witness :
  (if Dims (Points.Point []) =? 0
   then Insert Examples.line2 (Points.Point []) true = Panic
   else exists t', Insert Examples.line2 (Points.Point []) true = Ok t') /\
  forall count,
    Insert (mkTree nil_node count) (Points.Point []) true =
    Ok (mkTree (node (Points.Point []) 0 nil_node nil_node
                     (match Extender (Points.Point []) with
                      | Some _ => Some (mkBounding (Clone (Points.Point []))
                                                   (Clone (Points.Point [])))
                      | None => None
                      end))
               (wrap_int (count + 1))).
Proof.
  apply (Insert_panics_iff Examples.line2 (Points.Point []) true).
  discriminate.
Defined.

(** ** Invariants of reachable trees *)

Section ReachableProps.

Context {P : Type} `{Comparable P}.
Variable Pivot : list P -> Dim -> list P * Z.
Variable Bounder : option (list P -> option (Bounding P)).
Hypothesis HPivot : Pivot_ok Pivot.

Lemma New_buildBounded (p : list P) (bounding : bool) (t : Tree P) :
  New Pivot Bounder p bounding = Ok t ->
  Count t = Len p /\
  exists Bounds b, buildBounded Pivot Bounds (length p) p 0 b = Ok (Root t).
Proof.
  intros HNew. split.
  - unfold New in HNew.
    destruct Bounder as [Bounds|]; [destruct bounding|];
      inv_bind HNew as r Hr; injection HNew as <-; reflexivity.
  - apply New_cases in HNew. destruct HNew as [(Bounds & _ & Hr) | Hr].
    + exists Bounds, true. exact Hr.
    + exists (fun _ => None), false. rewrite buildBounded_false. exact Hr.
Qed.

Lemma reachable_Count (t : Tree P) :
  reachable Pivot Bounder t ->
  Len (points (Root t)) < 2 ^ 63 -> Count t = Len (points (Root t)).
Proof.
  induction 1 as [p bounding t HNew | t c bounding t' Hreach IH HIns]; intros Hsize.
  - apply New_buildBounded in HNew. destruct HNew as (HC & Bounds & b & Hr).
    apply (buildBounded_ordered Pivot Bounds HPivot) in Hr. destruct Hr as (Hperm & _).
    rewrite HC. unfold Len. rewrite (Permutation_length Hperm). reflexivity.
  - apply Insert_points_Count in HIns. destruct HIns as (Hperm & HC).
    unfold Len in *. rewrite (Permutation_length Hperm) in *. simpl length in *.
    rewrite HC, IH by lia. rewrite wrap_int_small; lia.
Qed.

Lemma planes_cycle_set_Bounding (k : Z) (pl : Dim) (n : Node P) (b : option (Bounding P)) :
  planes_cycle k pl n -> planes_cycle k pl (set_Bounding n b).
Proof. destruct n; simpl; auto. Qed.

Lemma reachable_dims_invariants (k : Z) (Hk : 1 <= k < 2 ^ 63) (t : Tree P) :
  reachable_dims Pivot Bounder k t ->
  ordered (Root t) /\ planes_cycle k 0 (Root t) /\
  Forall (fun x => Dims x = k) (points (Root t)).
Proof.
  induction 1 as [p bounding t Hdims HNew | t c bounding t' Hreach IH Hc HIns].
  - apply New_buildBounded in HNew. destruct HNew as (_ & Bounds & b & Hr).
    pose proof (buildBounded_ordered Pivot Bounds HPivot _ _ _ _ _ Hr) as (Hperm & Hord).
    repeat split; try assumption.
    + eapply buildBounded_planes_cycle; try eassumption. lia.
    + eapply Permutation_Forall; [symmetry; exact Hperm | exact Hdims].
  - destruct IH as (Hord & Hcyc & Hdims).
    pose proof (Insert_ordered _ _ _ _ Hord HIns) as (Hperm & Hord').
    repeat split; try assumption.
    + unfold Insert in HIns.
      destruct (Extender c) as [Extend|].
      * destruct (if is_nil (Root t) then bounding else has_Bounding (Root t));
          inv_bind HIns as r Hr; injection HIns as <-; simpl.
        -- eapply insertBounded_planes_cycle; try eassumption. lia.
        -- rewrite <- (insertBounded_false_insert _ _ (fun b => b)) in Hr.
           eapply insertBounded_planes_cycle; try eassumption. lia.
      * inv_bind HIns as r Hr. injection HIns as <-. simpl.
        rewrite <- (insertBounded_false_insert _ _ (fun b => b)) in Hr.
        eapply insertBounded_planes_cycle; try exact Hr; try eassumption; try lia.
        apply planes_cycle_set_Bounding. exact Hcyc.
    + eapply Permutation_Forall; [symmetry; exact Hperm|].
      constructor; assumption.
Qed.

End ReachableProps.

(** X5.  In every reachable tree that holds fewer than 2^63 points,
    [Tree.Len] is the number of stored points. *)
Theorem Tree_Len_counts_points {P : Type} `{Comparable P}
        (Pivot : list P -> Dim -> list P * Z)
        (Bounder : option (list P -> option (Bounding P)))
        (HPivot : Pivot_ok Pivot) (t : Tree P) :
  reachable Pivot Bounder t ->
  Len (points (Root t)) < 2 ^ 63 ->
  Tree_Len t = Len (points (Root t)).
Proof.
  intros Hreach Hsize. unfold Tree_Len.
  eapply reachable_Count; eassumption.
Qed.

Lemma Tree_Len_counts_points_witness :
  Tree_Len Examples.grown = Len (points (Root Examples.grown)).
Proof.
  apply (Tree_Len_counts_points Points.pivot None pivot_ok Examples.grown).
  - exact reachable_grown.
  - reflexivity.
Defined.

Lemma reachable_dims_grown : reachable_dims Points.pivot None 2 Examples.grown.
Proof.
  apply (reach_dims_Insert _ _ _ Examples.built (Points.Point [6; 5]) false).
  - apply (reach_dims_New _ _ _ Examples.six false).
    + repeat constructor.
    + reflexivity.
  - reflexivity.
  - reflexivity.
Qed.

(** X6.  Every tree built from and grown by [k]-dimensional points keeps
    its planes consistent: the root has plane 0 and each child has its
    parent's plane plus one modulo [k]; the ordering invariant holds and
    every stored point has [k] dimensions. *)
Theorem reachable_dims_shape {P : Type} `{Comparable P}
        (Pivot : list P -> Dim -> list P * Z)
        (Bounder : option (list P -> option (Bounding P)))
        (HPivot : Pivot_ok Pivot) (k : Z) (Hk : 1 <= k < 2 ^ 63) (t : Tree P) :
  reachable_dims Pivot Bounder k t ->
  ordered (Root t) /\ planes_cycle k 0 (Root t) /\
  Forall (fun x => Dims x = k) (points (Root t)).
Proof.
  apply reachable_dims_invariants; assumption.
Qed.

Lemma reachable_dims_shape_witness :
  ordered (Root Examples.grown) /\ planes_cycle 2 0 (Root Examples.grown) /\
  Forall (fun x => Dims x = 2) (points (Root Examples.grown)).
Proof.
  apply (reachable_dims_shape Points.pivot None pivot_ok 2).
  - split; [lia | reflexivity].
  - exact reachable_dims_grown.
Defined.

Lemma reachable_dims_float_built :
  reachable_dims pivot_first None 2 FloatExamples.built.
Proof.
  apply (reach_dims_New _ _ _ FloatExamples.six false).
  - repeat constructor.
  - reflexivity.
Qed.

Lemma reachable_dims_float_grown :
  reachable_dims pivot_first None 2 FloatExamples.grown.
Proof.
  apply (reach_dims_Insert _ _ _ FloatExamples.built (F64.Vec [6; 5]) false).
  - exact reachable_dims_float_built.
  - reflexivity.
  - reflexivity.
Qed.

Lemma reachable_dims_huge :
  reachable_dims pivot_first None 1 FloatExamples.huge_tree.
Proof.
  apply (reach_dims_New _ _ _ [FloatExamples.huge] false).
  - repeat constructor.
  - reflexivity.
Qed.

Lemma reachable_dims_mixed :
  reachable_dims pivot_first None 1 FloatExamples.mixed_tree.
Proof.
  apply (reach_dims_Insert _ _ _ FloatExamples.huge_tree (F64.Vec [3]) false).
  - exact reachable_dims_huge.
  - reflexivity.
  - reflexivity.
Qed.

(** X7.  On every non-empty tree built from and grown by [k]-dimensional
    points, [Nearest] returns a stored point at minimal distance from the
    query, with that distance; insertions do not break the search.  The
    distances are the float64 values [Distance] returns. *)
Theorem Nearest_reachable {P : Type} `{Comparable P} {Laws : DistanceLaws}
        (Pivot : list P -> Dim -> list P * Z)
        (Bounder : option (list P -> option (Bounding P)))
        (HPivot : Pivot_ok Pivot) (k : Z) (Hk : 1 <= k < 2 ^ 63)
        (t : Tree P) (q : P) :
  reachable_dims Pivot Bounder k t -> Root t <> nil_node -> Dims q = k ->
  exists x, Nearest t q = (Some x, Distance q x) /\
            In x (points (Root t)) /\
            forall y, In y (points (Root t)) ->
                      fle (Distance q x) (Distance q y) = true.
Proof.
  intros Hreach Hroot Hq.
  destruct (reachable_dims_invariants Pivot Bounder HPivot k Hk t Hreach)
    as (Hord & Hcyc & Hdims).
  apply (Nearest_minimal q k Hq t Hroot Hord); [|exact Hdims].
  eapply planes_cycle_in; [| |exact Hcyc]; lia.
Qed.

Lemma Nearest_reachable_witness :
  exists x, Nearest FloatExamples.grown FloatExamples.query =
            (Some x, Distance FloatExamples.query x) /\
            In x (points (Root FloatExamples.grown)) /\
            forall y, In y (points (Root FloatExamples.grown)) ->
                      fle (Distance FloatExamples.query x)
                          (Distance FloatExamples.query y) = true.
Proof.
  apply (Nearest_reachable pivot_first None pivot_first_ok 2).
  - split; [lia | reflexivity].
  - exact reachable_dims_float_grown.
  - discriminate.
  - reflexivity.
Defined.

(** X8.  In every reachable non-empty tree, [Tree.Contains] answers true for
    every stored point, whether or not the tree is bounded, provided
    [Pivot], [Bounds], [Clone] and [Extend] meet their contracts. *)
Theorem Tree_Contains_stored {P : Type} `{Comparable P}
        (Pivot : list P -> Dim -> list P * Z)
        (Bounder : option (list P -> option (Bounding P)))
        (HPivot : Pivot_ok Pivot) (BL : BoundingLaws Bounder)
        (t : Tree P) (x : P) :
  reachable Pivot Bounder t -> In x (points (Root t)) ->
  Tree_Contains t x = Ok true.
Proof.
  intros Hreach Hx.
  pose proof (reachable_covered Pivot Bounder HPivot t Hreach) as Hcov.
  unfold Tree_Contains.
  destruct (Root t) as [|p pl l r [b|]] eqn:HR.
  - simpl in Hx. contradiction.
  - specialize (Hcov eq_refl). cbn [covered] in Hcov.
    apply andb_true_iff in Hcov. destruct Hcov as (Hcov & _).
    apply andb_true_iff in Hcov. destruct Hcov as (Hall & _).
    rewrite forallb_forall in Hall.
    cbn [bind Node_Bounding]. rewrite (Hall x Hx). reflexivity.
  - reflexivity.
Qed.

Lemma Tree_Contains_stored_witness :
  Tree_Contains Examples.boxed1 (Points.Point [6; 5]) = Ok true.
Proof.
  apply (Tree_Contains_stored Points.pivot (Some Points.bounds)
                              pivot_ok point_BoundingLaws).
  - exact reachable_boxed1.
  - vm_compute. tauto.
Defined.

(** * Traversals *)

Lemma subseq_refl {A : Type} (l : list A) : subseq l l.
Proof. induction l; constructor; assumption. Qed.

Lemma subseq_nil_l {A : Type} (l : list A) : subseq [] l.
Proof. induction l; constructor; assumption. Qed.

Lemma subseq_app {A : Type} (l1 l1' l2 l2' : list A) :
  subseq l1 l1' -> subseq l2 l2' -> subseq (l1 ++ l2) (l1' ++ l2').
Proof.
  induction 1 as [|l l' a Hs IH|l l' a Hs IH]; intros H2; simpl.
  - exact H2.
  - apply subseq_skip. apply IH. exact H2.
  - apply subseq_take. apply IH. exact H2.
Qed.

Section TraversalProps.

Context {P : Type} `{Comparable P}.
Variable S : Type.
Variable fn : Operation (P := P) S.

Lemma run_app (es1 es2 : list (P * option (Bounding P) * Z)) (s : S) :
  run fn (es1 ++ es2) s =
  let '(s', done) := run fn es1 s in
  if done then (s', true) else run fn es2 s'.
Proof.
  revert s. induction es1 as [|[[p b] d] es1 IH]; intros s; simpl; [reflexivity|].
  destruct (fn s p b d) as [s' done]. destruct done; [reflexivity | apply IH].
Qed.

Lemma Node_do_run (n : Node P) :
  forall depth s, n <> nil_node ->
    Node_do S n fn depth s = Ok (run fn (entries n depth) s).
Proof.
  induction n as [|p pl l IHl r IHr b]; intros depth s Hn; [congruence|].
  simpl. rewrite run_app.
  assert (Hl : (if is_nil l then Ok (s, false)
                else Node_do S l fn (wrap_int (depth + 1)) s) =
               Ok (run fn (entries l (wrap_int (depth + 1))) s)).
  { destruct l as [|lp lpl ll lr lb]; [reflexivity|].
    apply IHl. discriminate. }
  rewrite Hl. simpl.
  destruct (run fn (entries l (wrap_int (depth + 1))) s) as [s1 done1].
  destruct done1; [reflexivity|]. simpl.
  destruct (fn s1 p b depth) as [s2 done2].
  destruct done2; [reflexivity|].
  destruct r as [|rp rpl rl rr rb]; [reflexivity|].
  apply IHr. discriminate.
Qed.

Lemma doBounded_run (n : Node P) (b : Bounding P) :
  forall depth s, n <> nil_node ->
    doBounded S n fn b depth s = Ok (run fn (bounded_entries n b depth) s).
Proof.
  induction n as [|p pl l IHl r IHr bn]; intros depth s Hn; [congruence|].
  cbn [doBounded bounded_entries]. rewrite run_app.
  assert (Hl : (if (Compare (b0 b) p pl <? 0) && negb (is_nil l)
                then doBounded S l fn b (wrap_int (depth + 1)) s
                else Ok (s, false)) =
               Ok (run fn (if Compare (b0 b) p pl <? 0
                           then bounded_entries l b (wrap_int (depth + 1))
                           else []) s)).
  { destruct (Compare (b0 b) p pl <? 0); [|reflexivity].
    destruct l as [|lp lpl ll lr lb]; [reflexivity|].
    apply IHl. discriminate. }
  rewrite Hl. clear Hl. cbn [bind].
  destruct (run fn _ s) as [s1 done1].
  destruct done1; [reflexivity|]. rewrite run_app.
  destruct (Contains (Some b) p).
  - cbn [bind run]. destruct (fn s1 p (Some b) depth) as [s2 done2].
    destruct done2; [reflexivity|].
    destruct (0 <? Compare (b1 b) p pl); [|reflexivity].
    destruct r as [|rp rpl rl rr rb]; [reflexivity|].
    apply IHr. discriminate.
  - cbn [bind run].
    destruct (0 <? Compare (b1 b) p pl); [|reflexivity].
    destruct r as [|rp rpl rl rr rb]; [reflexivity|].
    apply IHr. discriminate.
Qed.

End TraversalProps.

Section BoundedProps.

Context {P : Type} `{Comparable P}.

Lemma In_axes (c : P) (d : Dim) : In d (axes c) <-> 0 <= d < Dims c.
Proof.
  unfold axes. rewrite in_map_iff. split.
  - intros (n & <- & Hn). apply in_seq in Hn. lia.
  - intros Hd. exists (Z.to_nat d). split; [lia|]. apply in_seq. lia.
Qed.

Lemma Contains_axes (b : Bounding P) (c : P) :
  Contains (Some b) c = true <->
  forall d, 0 <= d < Dims c -> 0 <= Compare c (b0 b) d /\ Compare c (b1 b) d <= 0.
Proof.
  unfold Contains. rewrite forallb_forall. split.
  - intros Hall d Hd. apply In_axes in Hd. specialize (Hall d Hd).
    apply negb_true_iff, orb_false_iff in Hall. destruct Hall as (Hlo & Hhi).
    apply Z.ltb_ge in Hlo, Hhi. lia.
  - intros Hall d Hd. apply In_axes in Hd. specialize (Hall d Hd).
    apply negb_true_iff, orb_false_iff. split; apply Z.ltb_ge; lia.
Qed.

Lemma entries_points (n : Node P) :
  forall depth, map entry_point (entries n depth) = points n.
Proof.
  induction n as [|p pl l IHl r IHr b]; intros depth; simpl; [reflexivity|].
  rewrite map_app. simpl. rewrite IHl, IHr. reflexivity.
Qed.

Lemma bounded_entries_bound (n : Node P) (b : Bounding P) :
  forall depth, Forall (fun e => snd (fst e) = Some b) (bounded_entries n b depth).
Proof.
  induction n as [|p pl l IHl r IHr bn]; intros depth; cbn [bounded_entries];
    [constructor|].
  apply Forall_app; split; [|apply Forall_app; split].
  - destruct (Compare (b0 b) p pl <? 0); [apply IHl | constructor].
  - destruct (Contains (Some b) p); repeat constructor.
  - destruct (0 <? Compare (b1 b) p pl); [apply IHr | constructor].
Qed.

Lemma bounded_entries_sound (n : Node P) (b : Bounding P) :
  forall depth,
    subseq (map entry_point (bounded_entries n b depth))
           (filter (Contains (Some b)) (points n)).
Proof.
  induction n as [|p pl l IHl r IHr bn]; intros depth;
    cbn [bounded_entries points]; [constructor|].
  rewrite filter_app, !map_app. apply subseq_app.
  - destruct (Compare (b0 b) p pl <? 0); [apply IHl | apply subseq_nil_l].
  - cbn [filter].
    assert (Hr : subseq (map entry_point
                             (if 0 <? Compare (b1 b) p pl
                              then bounded_entries r b (wrap_int (depth + 1)) else []))
                        (filter (Contains (Some b)) (points r))).
    { destruct (0 <? Compare (b1 b) p pl); [apply IHr | apply subseq_nil_l]. }
    destruct (Contains (Some b) p).
    + cbn [map app]. apply subseq_take. exact Hr.
    + exact Hr.
Qed.

Context {Laws : ComparableLaws}.
Variable k : Z.
Variable b : Bounding P.
Hypothesis Hb0 : Dims (b0 b) = k.
Hypothesis Hb1 : Dims (b1 b) = k.

Lemma Compare_antisym (x y : P) (d : Dim) :
  0 <= d < k -> Dims x = k -> Dims y = k -> Compare y x d = - Compare x y d.
Proof.
  intros Hd Hx Hy.
  assert (Hxx : Compare x x d = Compare x x d + Compare x x d)
    by (apply Compare_add; lia).
  assert (Hxy : Compare x x d = Compare x y d + Compare y x d)
    by (apply Compare_add; lia).
  lia.
Qed.

Lemma bounded_entries_complete (n : Node P) :
  ordered n -> planes_in k n -> Forall (fun x => Dims x = k) (points n) ->
  forall depth x,
    In x (points n) -> Contains (Some b) x = true ->
    (forall d, 0 <= d < k -> Compare (b0 b) x d < 0) ->
    In x (map entry_point (bounded_entries n b depth)).
Proof.
  induction n as [|p pl l IHl r IHr bn]; intros Hord Hpl Hdims depth x Hx Hc Hstrict;
    [contradiction|].
  cbn [points] in Hx, Hdims. cbn [bounded_entries].
  destruct Hord as (Hle & Hgt & Ol & Or).
  destruct Hpl as (Hpl & Pl & Pr).
  apply Forall_app in Hdims. destruct Hdims as (Dl & Dpr).
  apply Forall_cons_iff in Dpr. destruct Dpr as (Dp & Dr).
  rewrite !map_app, !in_app_iff.
  apply in_app_or in Hx. destruct Hx as [Hx | [-> | Hx]].
  - left.
    pose proof (proj1 (Forall_forall _ _) Hle x Hx) as Hxp.
    pose proof (proj1 (Forall_forall _ _) Dl x Hx) as Hxk.
    cbv beta in Hxp, Hxk.
    pose proof (Hstrict pl Hpl) as Hlow.
    assert (Hadd : Compare (b0 b) p pl = Compare (b0 b) x pl + Compare x p pl)
      by (apply Compare_add; lia).
    replace (Compare (b0 b) p pl <? 0) with true by (symmetry; apply Z.ltb_lt; lia).
    apply IHl; assumption.
  - right. left. rewrite Hc. left. reflexivity.
  - right. right.
    pose proof (proj1 (Forall_forall _ _) Hgt x Hx) as Hxp.
    pose proof (proj1 (Forall_forall _ _) Dr x Hx) as Hxk.
    cbv beta in Hxp, Hxk.
    assert (Hhigh : Compare x (b1 b) pl <= 0).
    { apply (proj1 (Contains_axes b x) Hc pl). lia. }
    pose proof (Compare_antisym x (b1 b) pl Hpl Hxk Hb1) as Hanti.
    assert (Hadd : Compare (b1 b) p pl = Compare (b1 b) x pl + Compare x p pl)
      by (apply Compare_add; lia).
    replace (0 <? Compare (b1 b) p pl) with true by (symmetry; apply Z.ltb_lt; lia).
    apply IHr; assumption.
Qed.

End BoundedProps.

(** X9.  [Do] is an in-order fold with early exit: it applies the operation
    to the nodes in order (left subtree, node, right subtree), each with its
    point, bounding volume and depth, until the operation asks to stop, and
    reports whether it was stopped; unless stopped, the points it is applied
    to are exactly the stored points.  It never panics. *)
Theorem Do_in_order {P : Type} `{Comparable P} (S : Type)
        (fn : Operation (P := P) S) (t : Tree P) (s : S) :
  Do S t fn s = Ok (run fn (entries (Root t) 0) s) /\
  map entry_point (entries (Root t) 0) = points (Root t).
Proof.
  split; [|apply entries_points].
  unfold Do. destruct (Root t) as [|p pl l r b] eqn:HR; [reflexivity|].
  cbn [is_nil]. apply Node_do_run. discriminate.
Qed.

Lemma run_count {P : Type} (es : list (P * option (Bounding P) * Z)) :
  forall s, run (fun (s : Z) _ _ _ => (s + 1, false)) es s = (s + Len es, false).
Proof.
  induction es as [|[[p b] d] es IH]; intros s.
  - simpl. f_equal. unfold Len. simpl. lia.
  - cbn [run]. rewrite IH. f_equal. unfold Len. simpl length. lia.
Qed.

(** X10.  On a reachable tree with fewer than 2^63 points, a traversal
    whose operation counts its calls and never stops makes exactly
    [Tree.Len] calls and is not reported as interrupted. *)
Theorem Do_counts_points {P : Type} `{Comparable P}
        (Pivot : list P -> Dim -> list P * Z)
        (Bounder : option (list P -> option (Bounding P)))
        (HPivot : Pivot_ok Pivot) (t : Tree P) :
  reachable Pivot Bounder t ->
  Len (points (Root t)) < 2 ^ 63 ->
  Do Z t (fun s _ _ _ => (s + 1, false)) 0 = Ok (Tree_Len t, false).
Proof.
  intros Hreach Hsize.
  pose proof (reachable_Count Pivot Bounder HPivot t Hreach Hsize) as HC.
  unfold Do, Tree_Len. rewrite HC.
  destruct (Root t) as [|p pl l r b] eqn:HR; [reflexivity|].
  cbn [is_nil]. rewrite Node_do_run by discriminate.
  rewrite run_count.
  rewrite <- (entries_points (node p pl l r b) 0). unfold Len. rewrite length_map.
  reflexivity.
Qed.

Lemma Do_counts_points_witness :
  Do Z Examples.grown (fun s _ _ _ => (s + 1, false)) 0 = Ok (Tree_Len Examples.grown, false).
Proof.
  apply (Do_counts_points Points.pivot None pivot_ok Examples.grown).
  - exact reachable_grown.
  - reflexivity.
Defined.

(** X11.  [DoBounded] with a bound [b] only applies the operation to stored
    points that [b] contains, each node at most once and in order, always
    passing [b] itself as the volume; it never panics. *)
Theorem DoBounded_sound {P : Type} `{Comparable P} (S : Type)
        (fn : Operation (P := P) S) (t : Tree P) (b : Bounding P) (s : S) :
  exists es,
    DoBounded S t fn (Some b) s = Ok (run fn es s) /\
    subseq (map entry_point es) (filter (Contains (Some b)) (points (Root t))) /\
    Forall (fun e => snd (fst e) = Some b) es.
Proof.
  exists (bounded_entries (Root t) b 0). repeat split.
  - unfold DoBounded. destruct (Root t) as [|p pl l r bn] eqn:HR; [reflexivity|].
    cbn [is_nil]. apply doBounded_run. discriminate.
  - apply bounded_entries_sound.
  - apply bounded_entries_bound.
Qed.

(** X12.  On a tree built from and grown by [k]-dimensional points,
    [DoBounded] reaches every stored point that the bound contains and that
    lies strictly above the bound's low corner along every axis: unless the
    operation stops earlier, it is applied to that point. *)
Theorem DoBounded_complete_strict {P : Type} `{Comparable P} {Laws : ComparableLaws}
        (Pivot : list P -> Dim -> list P * Z)
        (Bounder : option (list P -> option (Bounding P)))
        (HPivot : Pivot_ok Pivot) (k : Z) (Hk : 1 <= k < 2 ^ 63)
        (S : Type) (fn : Operation (P := P) S)
        (t : Tree P) (b : Bounding P) (s : S) (x : P) :
  reachable_dims Pivot Bounder k t ->
  Dims (b0 b) = k -> Dims (b1 b) = k ->
  In x (points (Root t)) -> Contains (Some b) x = true ->
  (forall d, 0 <= d < k -> Compare (b0 b) x d < 0) ->
  exists es,
    DoBounded S t fn (Some b) s = Ok (run fn es s) /\
    In x (map entry_point es).
Proof.
  intros Hreach Hb0 Hb1 Hx Hc Hstrict.
  destruct (reachable_dims_invariants Pivot Bounder HPivot k Hk t Hreach)
    as (Hord & Hcyc & Hdims).
  exists (bounded_entries (Root t) b 0). split.
  - unfold DoBounded. destruct (Root t) as [|p pl l r bn] eqn:HR; [reflexivity|].
    cbn [is_nil]. apply doBounded_run. discriminate.
  - eapply bounded_entries_complete; try eassumption.
    eapply planes_cycle_in; [| |exact Hcyc]; lia.
Qed.

Lemma DoBounded_complete_strict_witness :
  exists es,
    DoBounded (list Points.point) Examples.grown Points.record_point
              (Some (mkBounding (Points.Point [4; 1]) (Points.Point [9; 7]))) [] =
    Ok (run Points.record_point es []) /\
    In (Points.Point [5; 4]) (map entry_point es).
Proof.
  apply (DoBounded_complete_strict Points.pivot None pivot_ok 2
           ltac:(split; [lia | reflexivity])).
  - exact reachable_dims_grown.
  - reflexivity.
  - reflexivity.
  - vm_compute. tauto.
  - reflexivity.
  - intros d Hd. assert (Hd' : d = 0 \/ d = 1) by lia.
    destruct Hd' as [-> | ->]; vm_compute; reflexivity.
Defined.

Lemma searchSet_searchN {P : Type} `{Comparable P} (n : Node P) (q : P) :
  forall k : nDists P, searchSet nDists_Keeper n q k = searchN n q k.
Proof.
  induction n as [|p pl l IHl r IHr b]; intros k; [reflexivity|].
  cbn [searchSet searchN Keeper_Keep Keeper_Head nDists_Keeper].
  destruct (Keep k _) as [k1| |]; cbn [bind]; try reflexivity.
  destruct (Compare q p pl <=? 0).
  - rewrite IHl. destruct (searchN l q k1) as [k2| |]; cbn [bind]; try reflexivity.
    destruct (Head k2) as [h| |]; cbn [bind]; try reflexivity.
    destruct (fle _ _); [apply IHr | reflexivity].
  - rewrite IHr. destruct (searchN r q k1) as [k2| |]; cbn [bind]; try reflexivity.
    destruct (Head k2) as [h| |]; cbn [bind]; try reflexivity.
    destruct (fle _ _); [apply IHl | reflexivity].
Qed.

(** X13.  With an [nDists] as the keeper, [searchSet] is [searchN]: the
    pluggable search performs the same steps as the n-nearest search. *)
Theorem searchSet_nDists {P : Type} `{Comparable P}
        (n : Node P) (q : P) (k : nDists P) :
  searchSet nDists_Keeper n q k = searchN n q k.
Proof.
  revert k. induction n as [|p pl l IHl r IHr b]; intros k; [reflexivity|].
  cbn [searchSet searchN Keeper_Keep Keeper_Head nDists_Keeper].
  destruct (Keep k _) as [k1| |]; cbn [bind]; try reflexivity.
  destruct (Compare q p pl <=? 0).
  - rewrite IHl. destruct (searchN l q k1) as [k2| |]; cbn [bind]; try reflexivity.
    destruct (Head k2) as [h| |]; cbn [bind]; try reflexivity.
    destruct (fle _ _); [apply IHr | reflexivity].
  - rewrite IHr. destruct (searchN r q k1) as [k2| |]; cbn [bind]; try reflexivity.
    destruct (Head k2) as [h| |]; cbn [bind]; try reflexivity.
    destruct (fle _ _); [apply IHl | reflexivity].
Qed.

(** X14.  [Contains] is inclusive on both corners: a volume contains a point
    exactly when, along every axis of the point, the point is not below the
    low corner and not above the high corner; the absent volume contains
    every point. *)
Theorem Contains_inclusive {P : Type} `{Comparable P} (c : P) :
  Contains None c = true /\
  forall b, Contains (Some b) c = true <->
            forall d, 0 <= d < Dims c ->
                      0 <= Compare c (b0 b) d /\ Compare c (b1 b) d <= 0.
Proof.
  split; [reflexivity | intros b; apply Contains_axes].
Qed.

(** * The candidate heap *)

Lemma length_update {A : Type} (l : list A) :
  forall i x, length (update l i x) = length l.
Proof.
  induction l as [|a l IH]; intros [|i] x; simpl; try reflexivity.
  rewrite IH. reflexivity.
Qed.

Lemma nth_update {A : Type} (l : list A) :
  forall i j x d,
    nth j (update l i x) d =
    if (j =? i)%nat && (i <? length l)%nat then x else nth j l d.
Proof.
  induction l as [|a l IH]; intros i j x d.
  - destruct i; simpl; destruct j; rewrite ?andb_false_r; reflexivity.
  - destruct i as [|i]; destruct j as [|j]; simpl; try reflexivity.
    rewrite IH. reflexivity.
Qed.

Lemma nth_error_update {A : Type} (l : list A) :
  forall i j x,
    nth_error (update l i x) j =
    if (j =? i)%nat && (i <? length l)%nat then Some x else nth_error l j.
Proof.
  induction l as [|a l IH]; intros i j x.
  - destruct i; simpl; destruct j; rewrite ?andb_false_r; reflexivity.
  - destruct i as [|i]; destruct j as [|j]; simpl; try reflexivity.
    rewrite IH. reflexivity.
Qed.

Section HeapProps.

Context {P : Type} `{Comparable P}.

Lemma length_swap (h : list (NodeDist P)) (i j : nat) : length (swap h i j) = length h.
Proof. unfold swap. rewrite !length_update. reflexivity. Qed.

Lemma nth_swap (h : list (NodeDist P)) (i j m : nat) :
  (i < length h)%nat -> (j < length h)%nat ->
  nth m (swap h i j) sentinel =
  if (m =? j)%nat then nth i h sentinel
  else if (m =? i)%nat then nth j h sentinel
  else nth m h sentinel.
Proof.
  intros Hi Hj. unfold swap. rewrite !nth_update, length_update.
  replace (j <? length h)%nat with true by (symmetry; apply Nat.ltb_lt; exact Hj).
  replace (i <? length h)%nat with true by (symmetry; apply Nat.ltb_lt; exact Hi).
  rewrite !andb_true_r. reflexivity.
Qed.

Lemma key_swap (h : list (NodeDist P)) (i j m : nat) :
  (i < length h)%nat -> (j < length h)%nat ->
  key (swap h i j) m =
  if (m =? j)%nat then key h i
  else if (m =? i)%nat then key h j
  else key h m.
Proof.
  intros Hi Hj. unfold key. rewrite nth_swap by assumption.
  destruct (m =? j)%nat; [reflexivity|]. destruct (m =? i)%nat; reflexivity.
Qed.

Lemma swap_Permutation (h : list (NodeDist P)) (i j : nat) :
  (i < length h)%nat -> (j < length h)%nat -> Permutation (swap h i j) h.
Proof.
  intros Hi Hj. symmetry.
  apply Permutation_nth_error.
  split; [symmetry; apply length_swap|].
  exists (fun m => if (m =? j)%nat then i else if (m =? i)%nat then j else m).
  split.
  - intros x y.
    destruct (Nat.eqb_spec x j); destruct (Nat.eqb_spec y j);
      destruct (Nat.eqb_spec x i); destruct (Nat.eqb_spec y i); lia.
  - intros m. unfold swap. rewrite !nth_error_update, length_update.
    replace (j <? length h)%nat with true by (symmetry; apply Nat.ltb_lt; exact Hj).
    replace (i <? length h)%nat with true by (symmetry; apply Nat.ltb_lt; exact Hi).
    rewrite !andb_true_r.
    destruct (m =? j)%nat.
    + symmetry. apply nth_error_nth'. exact Hi.
    + destruct (m =? i)%nat; [|reflexivity].
      symmetry. apply nth_error_nth'. exact Hj.
Qed.

Lemma Index_nth (h : list (NodeDist P)) (i : nat) :
  (i < length h)%nat -> Index h (Z.of_nat i) = Ok (nth i h sentinel).
Proof.
  intros Hi. unfold Index, Len.
  replace (0 <=? Z.of_nat i) with true by (symmetry; apply Z.leb_le; lia).
  replace (Z.of_nat i <? Z.of_nat (length h)) with true by (symmetry; apply Z.ltb_lt; lia).
  simpl. rewrite Nat2Z.id.
  destruct (nth_error h i) as [x|] eqn:Hn.
  - rewrite (nth_error_nth _ _ _ Hn). reflexivity.
  - apply nth_error_None in Hn. lia.
Qed.

Lemma nd_Less_key (h : list (NodeDist P)) (i j : nat) :
  (i < length h)%nat -> (j < length h)%nat ->
  nd_Less h (Z.of_nat i) (Z.of_nat j) = Ok (flt (key h j) (key h i)).
Proof.
  intros Hi Hj. unfold nd_Less. rewrite !Index_nth by assumption. reflexivity.
Qed.

Lemma nd_Swap_swap (h : list (NodeDist P)) (i j : nat) :
  (i < length h)%nat -> (j < length h)%nat ->
  nd_Swap h (Z.of_nat i) (Z.of_nat j) = Ok (swap h i j).
Proof.
  intros Hi Hj. unfold nd_Swap. rewrite !Index_nth by assumption.
  simpl. rewrite !Nat2Z.id. reflexivity.
Qed.

Lemma parent_spec (c : nat) :
  (0 < c)%nat ->
  exists r, (r = 0 \/ r = 1)%nat /\ (c = 2 * ((c - 1) / 2) + 1 + r)%nat.
Proof.
  intros Hc. exists ((c - 1) mod 2)%nat.
  pose proof (Nat.div_mod_eq (c - 1) 2) as Hdm.
  pose proof (Nat.mod_upper_bound (c - 1) 2 ltac:(lia)) as Hlt.
  split; lia.
Qed.

Lemma parent_Z (j : nat) : Z.quot (Z.of_nat j - 1) 2 = Z.of_nat ((j - 1) / 2).
Proof.
  destruct j as [|j]; [reflexivity|].
  replace (Z.of_nat (S j) - 1) with (Z.of_nat j) by lia.
  replace (S j - 1)%nat with j by lia.
  rewrite Z.quot_div_nonneg by lia. rewrite Nat2Z.inj_div. reflexivity.
Qed.

(** Sifting up restores the heap property when it only fails between [j]
    and its parent. *)
Lemma heap_up_ok (fuel : nat) :
  forall (h : list (NodeDist P)) (j : nat),
    (j < length h)%nat -> (j < fuel)%nat ->
    (forall c, (0 < c < length h)%nat -> c <> j ->
               fle (key h c) (key h ((c - 1) / 2)) = true) ->
    (forall c, (0 < c < length h)%nat -> ((c - 1) / 2 = j)%nat -> (0 < j)%nat ->
               fle (key h c) (key h ((j - 1) / 2)) = true) ->
    exists h', heap_up fuel h (Z.of_nat j) = Ok h' /\ Permutation h' h /\ heap_ok h'.
Proof.
  induction fuel as [|fuel IH]; intros h j Hj Hf Hothers Hkids; [lia|].
  cbn [heap_up]. rewrite parent_Z.
  destruct (Nat.eq_dec j 0) as [-> | Hj0].
  - change ((0 - 1) / 2)%nat with 0%nat. simpl.
    exists h. repeat split; [reflexivity|].
    intros c Hc. apply Hothers; lia.
  - destruct (parent_spec j ltac:(lia)) as (rj & Hrj & Hpj).
    set (i := ((j - 1) / 2)%nat) in *.
    replace (Z.of_nat i =? Z.of_nat j) with false by (symmetry; apply Z.eqb_neq; lia).
    rewrite nd_Less_key by lia. cbn [bind].
    destruct (flt (key h i) (key h j)) eqn:Hlt; cbn [negb].
    + rewrite nd_Swap_swap by lia. cbn [bind].
      assert (Hij : fle (key h i) (key h j) = true).
      { clear - Hlt. destruct (key h i), (key h j); float_cases. }
      destruct (IH (swap h i j) i) as (h' & Hup & Hperm & Hok).
      * rewrite length_swap. lia.
      * lia.
      * intros c Hc Hci. rewrite length_swap in Hc.
        rewrite !key_swap by lia.
        destruct (parent_spec c ltac:(lia)) as (rc & Hrc & Hpc).
        destruct (Nat.eqb_spec c j) as [-> | Hcj].
        -- fold i. rewrite Nat.eqb_refl.
           destruct (Nat.eqb_spec i j); [lia | exact Hij].
        -- destruct (Nat.eqb_spec c i); [contradiction|].
           destruct (Nat.eqb_spec ((c - 1) / 2) j) as [Hpj' | Hpj'].
           ++ apply Hkids; [lia | exact Hpj' | lia].
           ++ destruct (Nat.eqb_spec ((c - 1) / 2) i) as [Hpi | Hpi].
              ** eapply fle_trans; [|exact Hij].
                 rewrite <- Hpi. apply Hothers; assumption.
              ** apply Hothers; assumption.
      * intros c Hc Hpc Hi0. rewrite length_swap in Hc.
        rewrite !key_swap by lia.
        destruct (parent_spec i Hi0) as (ri & Hri & Hpi).
        destruct (parent_spec c ltac:(lia)) as (rc & Hrc & Hpc').
        destruct (Nat.eqb_spec ((i - 1) / 2) j); [lia|].
        destruct (Nat.eqb_spec ((i - 1) / 2) i); [lia|].
        assert (Hi : fle (key h i) (key h ((i - 1) / 2)) = true).
        { apply Hothers; lia. }
        destruct (Nat.eqb_spec c j) as [-> | Hcj]; [exact Hi|].
        destruct (Nat.eqb_spec c i); [lia|].
        eapply fle_trans; [|exact Hi].
        rewrite <- Hpc. apply Hothers; assumption.
      * exists h'. repeat split; try assumption.
        rewrite Hperm. apply swap_Permutation; lia.
    + exists h. repeat split; [reflexivity|].
      intros c Hc. destruct (Nat.eq_dec c j) as [-> | Hcj].
      * fold i. rewrite flt_fle in Hlt. apply negb_false_iff in Hlt. exact Hlt.
      * apply Hothers; assumption.
Qed.

(** Sifting down restores the heap property of the first [n] elements
    when it only fails between [i] and its children; the elements from
    index [n] on are not touched. *)
Lemma heap_down_ok (fuel : nat) :
  forall (h : list (NodeDist P)) (i n : nat),
    (n <= length h)%nat -> (n - i < fuel)%nat ->
    (forall c, (0 < c < n)%nat -> ((c - 1) / 2)%nat <> i ->
               fle (key h c) (key h ((c - 1) / 2)) = true) ->
    (forall c, (0 < c < n)%nat -> ((c - 1) / 2 = i)%nat -> (0 < i)%nat ->
               fle (key h c) (key h ((i - 1) / 2)) = true) ->
    exists h',
      heap_down fuel h (Z.of_nat i) (Z.of_nat n) = Ok h' /\
      Permutation h' h /\
      (forall c, (0 < c < n)%nat -> fle (key h' c) (key h' ((c - 1) / 2)) = true) /\
      (forall m, (n <= m)%nat -> nth m h' sentinel = nth m h sentinel) /\
      length h' = length h.
Proof.
  induction fuel as [|fuel IH]; intros h i n Hn Hf Hothers Hkids; [lia|].
  cbn [heap_down].
  replace (2 * Z.of_nat i + 1) with (Z.of_nat (2 * i + 1)) by lia.
  replace (Z.of_nat (2 * i + 1) <? 0) with false by (symmetry; apply Z.ltb_ge; lia).
  rewrite orb_false_r.
  destruct (Nat.le_gt_cases n (2 * i + 1)) as [Hstop | Hgo].
  - replace (Z.of_nat n <=? Z.of_nat (2 * i + 1)) with true
      by (symmetry; apply Z.leb_le; lia).
    exists h. repeat split; try reflexivity.
    intros c Hc. destruct (parent_spec c ltac:(lia)) as (rc & Hrc & Hpc).
    apply Hothers; [exact Hc | lia].
  - replace (Z.of_nat n <=? Z.of_nat (2 * i + 1)) with false
      by (symmetry; apply Z.leb_gt; lia).
    replace (Z.of_nat (2 * i + 1) + 1) with (Z.of_nat (2 * i + 2)) by lia.
    assert (Hchild : exists b : bool,
               (if Z.of_nat (2 * i + 2) <? Z.of_nat n
                then nd_Less h (Z.of_nat (2 * i + 2)) (Z.of_nat (2 * i + 1))
                else Ok false) = Ok b /\
               (b = true -> (2 * i + 2 < n)%nat) /\
               (forall c, (0 < c < n)%nat -> ((c - 1) / 2 = i)%nat ->
                          fle (key h c) (key h (if b then 2 * i + 2 else 2 * i + 1)%nat) = true)).
    { destruct (Nat.lt_ge_cases (2 * i + 2) n) as [H2 | H2].
      - replace (Z.of_nat (2 * i + 2) <? Z.of_nat n) with true
          by (symmetry; apply Z.ltb_lt; lia).
        rewrite nd_Less_key by lia.
        eexists; split; [reflexivity|]. split; [intros _; exact H2|].
        intros c Hc Hpc. destruct (parent_spec c ltac:(lia)) as (rc & Hrc & Hpc').
        assert (Hcc : c = (2 * i + 1)%nat \/ c = (2 * i + 2)%nat) by lia.
        destruct (flt (key h (2 * i + 1)) (key h (2 * i + 2))) eqn:Hlt.
        + destruct Hcc as [-> | ->]; [|apply fle_refl].
          clear - Hlt. destruct (key h (2 * i + 1)), (key h (2 * i + 2)); float_cases.
        + destruct Hcc as [-> | ->]; [apply fle_refl|].
          rewrite flt_fle in Hlt. apply negb_false_iff in Hlt. exact Hlt.
      - replace (Z.of_nat (2 * i + 2) <? Z.of_nat n) with false
          by (symmetry; apply Z.ltb_ge; lia).
        exists false. split; [reflexivity|]. split; [discriminate|].
        intros c Hc Hpc. destruct (parent_spec c ltac:(lia)) as (rc & Hrc & Hpc').
        assert (Hcc : c = (2 * i + 1)%nat) by lia.
        subst c. apply fle_refl. }
    destruct Hchild as (b & -> & Hb & Hmax). cbn [bind].
    set (j := (if b then 2 * i + 2 else 2 * i + 1)%nat) in *.
    replace (if b then Z.of_nat (2 * i + 2) else Z.of_nat (2 * i + 1))
      with (Z.of_nat j) by (subst j; destruct b; reflexivity).
    assert (Hjn : (j < n)%nat).
    { subst j. destruct b; [apply Hb; reflexivity | lia]. }
    assert (Hji : (i < j)%nat) by (subst j; destruct b; lia).
    assert (Hpj : ((j - 1) / 2 = i)%nat).
    { destruct (parent_spec j ltac:(lia)) as (rj & Hrj & Hpj).
      subst j. destruct b; lia. }
    rewrite nd_Less_key by lia. cbn [bind].
    destruct (flt (key h i) (key h j)) eqn:Hlt; cbn [negb].
    + rewrite nd_Swap_swap by lia. cbn [bind].
      assert (Hij : fle (key h i) (key h j) = true).
      { clear - Hlt. destruct (key h i), (key h j); float_cases. }
      destruct (IH (swap h i j) j n) as (h' & Hdown & Hperm & Hok & Hrest & Hlen).
      * rewrite length_swap. exact Hn.
      * lia.
      * intros c Hc Hpc. rewrite !key_swap by lia.
        destruct (Nat.eqb_spec ((c - 1) / 2) j); [contradiction|].
        destruct (Nat.eqb_spec c j) as [-> | Hcj].
        -- rewrite Hpj, Nat.eqb_refl. exact Hij.
        -- destruct (Nat.eqb_spec c i) as [-> | Hci].
           ++ destruct (parent_spec i ltac:(lia)) as (ri & Hri & Hpi).
              destruct (Nat.eqb_spec ((i - 1) / 2) i); [lia|].
              apply Hkids; [lia | exact Hpj | lia].
           ++ destruct (Nat.eqb_spec ((c - 1) / 2) i) as [Hpi | Hpi].
              ** apply Hmax; assumption.
              ** apply Hothers; assumption.
      * intros c Hc Hpc Hj0. rewrite !key_swap by lia.
        destruct (parent_spec c ltac:(lia)) as (rc & Hrc & Hpc').
        rewrite Hpj.
        destruct (Nat.eqb_spec i j); [lia|]. rewrite Nat.eqb_refl.
        destruct (Nat.eqb_spec c j); [lia|].
        destruct (Nat.eqb_spec c i); [lia|].
        rewrite <- Hpc. apply Hothers; [exact Hc | lia].
      * exists h'. repeat split; try assumption.
        -- rewrite Hperm. apply swap_Permutation; lia.
        -- intros m Hm. rewrite Hrest by exact Hm. rewrite nth_swap by lia.
           destruct (Nat.eqb_spec m j); [lia|]. destruct (Nat.eqb_spec m i); [lia|].
           reflexivity.
        -- rewrite Hlen. apply length_swap.
    + exists h. repeat split; try reflexivity.
      intros c Hc.
      destruct (Nat.eq_dec ((c - 1) / 2) i) as [Hpc | Hpc].
      * rewrite Hpc. eapply fle_trans; [apply Hmax; assumption|].
        rewrite flt_fle in Hlt. apply negb_false_iff in Hlt. exact Hlt.
      * apply Hothers; assumption.
Qed.

(** The first element of a heap is a maximum. *)
Lemma heap_ok_top (h : list (NodeDist P)) :
  heap_ok h -> forall i, (i < length h)%nat -> fle (key h i) (key h 0) = true.
Proof.
  intros Hok i. induction i as [i IH] using lt_wf_ind. intros Hi.
  destruct (Nat.eq_dec i 0) as [-> | Hi0]; [apply fle_refl|].
  destruct (parent_spec i ltac:(lia)) as (r & Hr & Hp).
  eapply fle_trans; [apply Hok; lia|].
  apply IH; lia.
Qed.

Lemma heap_ok_max (h : list (NodeDist P)) (e : NodeDist P) :
  heap_ok h -> In e h -> fle (Dist e) (key h 0) = true.
Proof.
  intros Hok He. apply (In_nth _ _ sentinel) in He.
  destruct He as (i & Hi & <-). apply heap_ok_top; assumption.
Qed.

Lemma heap_Push_ok (h : list (NodeDist P)) (x : NodeDist P) :
  heap_ok h ->
  exists h', heap_Push h x = Ok h' /\ Permutation h' (x :: h) /\ heap_ok h'.
Proof.
  intros Hok. unfold heap_Push, nd_Push, nd_Len, Len.
  rewrite length_app. simpl length.
  replace (Z.of_nat (length h + 1) - 1) with (Z.of_nat (length h)) by lia.
  destruct (heap_up_ok (S (length h + 1)) (h ++ [x]) (length h))
    as (h' & Hup & Hperm & Hok').
  - rewrite length_app. simpl. lia.
  - lia.
  - intros c Hc Hcj. rewrite length_app in Hc. simpl in Hc.
    destruct (parent_spec c ltac:(lia)) as (r & Hr & Hp).
    unfold key. rewrite !app_nth1 by lia. apply Hok. lia.
  - intros c Hc Hp Hj. rewrite length_app in Hc. simpl in Hc.
    destruct (parent_spec c ltac:(lia)) as (r & Hr & Hp'). lia.
  - exists h'. repeat split; try assumption.
    rewrite Hperm. symmetry. apply Permutation_cons_append.
Qed.

Lemma nth_removelast {A : Type} (l : list A) (c : nat) (d : A) :
  (c < length l - 1)%nat -> nth c (removelast l) d = nth c l d.
Proof.
  intros Hc. destruct l as [|a l] using rev_ind; [simpl in Hc; lia|].
  rewrite removelast_last. rewrite length_app in Hc. simpl in Hc.
  rewrite app_nth1 by lia. reflexivity.
Qed.

Lemma length_removelast {A : Type} (l : list A) :
  length (removelast l) = (length l - 1)%nat.
Proof.
  destruct l as [|a l] using rev_ind; [reflexivity|].
  rewrite removelast_last, length_app. simpl. lia.
Qed.

Lemma heap_Pop_ok (h : list (NodeDist P)) :
  h <> [] -> heap_ok h ->
  exists h', heap_Pop h = Ok (nth 0 h sentinel, h') /\
             Permutation (nth 0 h sentinel :: h') h /\
             heap_ok h' /\ length h' = (length h - 1)%nat.
Proof.
  intros Hne Hok.
  assert (Hlen : (0 < length h)%nat) by (destruct h; [congruence | simpl; lia]).
  unfold heap_Pop, nd_Len, Len.
  replace (Z.of_nat (length h) - 1) with (Z.of_nat (length h - 1)) by lia.
  set (m := (length h - 1)%nat).
  replace (nd_Swap h 0 (Z.of_nat m)) with (Ok (swap h 0 m))
    by (symmetry; apply (nd_Swap_swap h 0 m); lia).
  cbn [bind]. rewrite length_swap.
  destruct (heap_down_ok (S (length h)) (swap h 0 m) 0 m)
    as (h2 & Hdown & Hperm & Hok2 & Hrest & Hlen2).
  - rewrite length_swap. lia.
  - lia.
  - intros c Hc Hp. destruct (parent_spec c ltac:(lia)) as (r & Hr & Hp').
    rewrite !key_swap by lia.
    destruct (Nat.eqb_spec c m); [lia|]. destruct (Nat.eqb_spec c 0); [lia|].
    destruct (Nat.eqb_spec ((c - 1) / 2) m); [lia|].
    destruct (Nat.eqb_spec ((c - 1) / 2) 0); [contradiction|].
    apply Hok. lia.
  - intros c Hc Hp H0. lia.
  - change (Z.of_nat 0) with 0 in Hdown. rewrite Hdown. cbn [bind].
    rewrite length_swap in Hlen2.
    assert (Hlast : nth m h2 sentinel = nth 0 h sentinel).
    { rewrite Hrest by lia. rewrite nth_swap by lia. rewrite Nat.eqb_refl. reflexivity. }
    unfold nd_Pop, Len. rewrite Hlen2.
    replace (Z.of_nat (length h) - 1) with (Z.of_nat m) by lia.
    rewrite Index_nth by lia. cbn [bind]. rewrite Hlast.
    assert (Hne2 : h2 <> []) by (destruct h2; [simpl in Hlen2; lia | discriminate]).
    pose proof (app_removelast_last sentinel Hne2) as Hsplit.
    assert (Hrl : length (removelast h2) = m).
    { rewrite length_removelast. lia. }
    assert (Ha : last h2 sentinel = nth 0 h sentinel).
    { rewrite <- Hlast. rewrite Hsplit at 2.
      rewrite app_nth2 by lia. rewrite Hrl, Nat.sub_diag. reflexivity. }
    exists (removelast h2). repeat split.
    + rewrite <- Ha. rewrite Permutation_cons_append, <- Hsplit, Hperm.
      apply swap_Permutation; lia.
    + intros c Hc. rewrite Hrl in Hc.
      destruct (parent_spec c ltac:(lia)) as (r & Hr & Hp).
      unfold key. rewrite !nth_removelast by lia. apply Hok2. lia.
    + rewrite Hrl. reflexivity.
Qed.

End HeapProps.

(** * The n-nearest search *)

Section KeepProps.

Context {P : Type} `{Comparable P}.
Variable q : P.

Lemma item_points_candidate (e : NodeDist P) (x : P) (l : list (NodeDist P)) :
  candidate q e x -> item_points (e :: l) = x :: item_points l.
Proof.
  intros (pl & lt & rt & b & Hn & _). unfold item_points. simpl. rewrite Hn. reflexivity.
Qed.

Lemma item_points_sentinel (e : NodeDist P) (l : list (NodeDist P)) :
  nd_Node e = nil_node -> item_points (e :: l) = item_points l.
Proof.
  intros Hn. unfold item_points. simpl. rewrite Hn. reflexivity.
Qed.

Lemma item_points_Permutation (l l' : list (NodeDist P)) :
  Permutation l l' -> Permutation (item_points l) (item_points l').
Proof. apply Permutation_flat_map. Qed.

Lemma key_0_In (h : list (NodeDist P)) :
  h <> [] -> exists e, In e h /\ Dist e = key h 0.
Proof.
  destruct h as [|e h]; [congruence|]. intros _.
  exists e. split; [left; reflexivity | reflexivity].
Qed.

Lemma new_head_le (it it' : list (NodeDist P)) (e : NodeDist P) (top : float64) :
  Permutation it' (e :: it) ->
  (forall a, In a it -> fle (Dist a) top = true) ->
  fle (Dist e) top = true ->
  fle (key it' 0) top = true.
Proof.
  intros Hperm Hit He.
  destruct (key_0_In it') as (a & Ha & <-).
  { intros ->. apply Permutation_nil in Hperm. discriminate. }
  apply (Permutation_in _ Hperm) in Ha. destruct Ha as [<- | Ha]; auto.
Qed.

Lemma item_points_In (h : list (NodeDist P)) (y : P) :
  In y (item_points h) <->
  exists e pl l r b, In e h /\ nd_Node e = node y pl l r b.
Proof.
  unfold item_points. rewrite in_flat_map. split.
  - intros (e & He & Hy). destruct (nd_Node e) as [|x pl l r b] eqn:Hn; [contradiction|].
    destruct Hy as [<- | []]. exists e, pl, l, r, b. auto.
  - intros (e & pl & l & r & b & He & Hn). exists e. split; [exact He|].
    rewrite Hn. left. reflexivity.
Qed.

Lemma item_points_incl (it h : list (NodeDist P)) :
  (forall a, In a it -> In a h) ->
  forall y, In y (item_points it) -> In y (item_points h).
Proof.
  intros Hsub y Hy. apply item_points_In in Hy.
  destruct Hy as (e & pl & l & r & b & He & Hn).
  apply item_points_In. exists e, pl, l, r, b. auto.
Qed.

Lemma Head_nth (nd : nDists P) :
  (1 <= length (items nd))%nat -> Head nd = Ok (nth 0 (items nd) sentinel).
Proof.
  intros Hlen. unfold Head. apply (Index_nth (items nd) 0). lia.
Qed.

(** [Keep] accounts for one more point. *)
Lemma Keep_ok (nd : nDists P) (V : list P) (e : NodeDist P) (x : P) :
  keep_inv q nd V -> candidate q e x ->
  exists nd', Keep nd e = Ok nd' /\ keep_inv q nd' (x :: V) /\ cap nd' = cap nd.
Proof.
  intros (Hok & Hlen & Hcap & Hwf & Hsent & Hfull & Hfin & dropped & Hperm & Hdrop) Hcand.
  assert (Hde : Dist e = Distance q x).
  { destruct Hcand as (? & ? & ? & ? & _ & Hd). exact Hd. }
  unfold Keep. rewrite Head_nth by exact Hlen. cbn [bind].
  fold (key (items nd) 0).
  destruct (flt (Dist e) (key (items nd) 0)) eqn:Hlt.
  - assert (Hle : fle (Dist e) (key (items nd) 0) = true).
    { clear - Hlt. destruct (Dist e), (key (items nd) 0); float_cases. }
    assert (Hstep : exists it,
               (if Len (items nd) =? cap nd
                then '(_, it) <- heap_Pop (items nd) ;; Ok it
                else Ok (items nd)) = Ok it /\
               heap_ok it /\
               Z.of_nat (length it) + 1 <= cap nd /\
               (forall a, In a it -> In a (items nd)) /\
               ((Z.of_nat (length it) + 1 = cap nd /\
                 exists m, Permutation (m :: it) (items nd) /\ Dist m = key (items nd) 0) \/
                (it = items nd /\ Z.of_nat (length it) <> cap nd))).
    { unfold Len. destruct (Z.eqb_spec (Z.of_nat (length (items nd))) (cap nd)) as [Heq | Hneq].
      - destruct (heap_Pop_ok (items nd)) as (it & HPop & HP & Hokit & Hlenit).
        { intros Hnil. rewrite Hnil in Hlen. simpl in Hlen. lia. }
        { exact Hok. }
        rewrite HPop. cbn [bind]. exists it. repeat split; try assumption.
        + lia.
        + intros a Ha. eapply Permutation_in; [exact HP | right; exact Ha].
        + left. split; [lia|]. exists (nth 0 (items nd) sentinel). split; [exact HP | reflexivity].
      - exists (items nd). repeat split; try assumption.
        + lia.
        + auto.
        + right. split; [reflexivity | exact Hneq]. }
    destruct Hstep as (it & -> & Hokit & Hcapit & Hsub & Hcase). cbn [bind].
    destruct (heap_Push_ok it e Hokit) as (it' & -> & HP' & Hok'). cbn [bind].
    assert (Hlen' : length it' = S (length it)).
    { rewrite (Permutation_length HP'). reflexivity. }
    assert (Hhead : fle (key it' 0) (key (items nd) 0) = true).
    { eapply new_head_le; [exact HP' | | exact Hle].
      intros a Ha. apply heap_ok_max; auto. }
    assert (Hip' : Permutation (item_points it') (x :: item_points it)).
    { rewrite (item_points_Permutation _ _ HP').
      rewrite (item_points_candidate e x it Hcand). reflexivity. }
    assert (Hwf' : Forall (item_ok q) it').
    { eapply Permutation_Forall; [symmetry; exact HP'|].
      constructor; [right; exists x; exact Hcand|].
      apply Forall_forall. intros a Ha. rewrite Forall_forall in Hwf. auto. }
    assert (Hdrop' : Forall (fun y => fle (key it' 0) (Distance q y) = true) dropped).
    { eapply Forall_impl; [|exact Hdrop]. intros y Hy. cbv beta in *.
      eapply fle_trans; eassumption. }
    assert (Hfin' : Forall (fun y => finite q y = true) (item_points it')).
    { eapply Permutation_Forall; [symmetry; exact Hip'|].
      constructor.
      - unfold finite. rewrite <- Hde. eapply flt_Inf. exact Hlt.
      - apply Forall_forall. intros y Hy. rewrite Forall_forall in Hfin.
        apply Hfin. eapply item_points_incl; [exact Hsub | exact Hy]. }
    exists (mkNDists it' (cap nd)). split; [reflexivity|]. split; [|reflexivity].
    unfold keep_inv. cbn [items cap].
    destruct Hcase as [(Hfullit & m & HPm & Hdm) | (-> & Hnotfull)].
    + assert (Hm : item_ok q m).
      { rewrite Forall_forall in Hwf. apply Hwf.
        eapply Permutation_in; [exact HPm | left; reflexivity]. }
      pose proof (item_points_Permutation _ _ HPm) as Hipm.
      pose proof (Permutation_length HPm) as Hlm. simpl in Hlm.
      repeat split; try assumption; try lia.
      * rewrite (Permutation_length Hip'). simpl.
        destruct Hm as [(Hmn & _) | (y & Hy)].
        -- rewrite (item_points_sentinel m it Hmn) in Hipm.
           rewrite (Permutation_length Hipm). lia.
        -- rewrite (item_points_candidate m y it Hy) in Hipm.
           apply Permutation_length in Hipm. simpl in Hipm. lia.
      * destruct Hm as [(Hmn & _) | (y & Hy)].
        -- exists dropped. split; [|exact Hdrop'].
           rewrite (item_points_sentinel m it Hmn) in Hipm.
           rewrite Hip', Hperm, <- Hipm. reflexivity.
        -- exists (y :: dropped). split.
           ++ rewrite (item_points_candidate m y it Hy) in Hipm.
              rewrite Hip', Hperm, <- Hipm. simpl.
              apply perm_skip. apply Permutation_middle.
           ++ constructor; [|exact Hdrop'].
              destruct Hy as (? & ? & ? & ? & _ & Hdy).
              rewrite <- Hdy, Hdm. exact Hhead.
    + repeat split; try assumption; try lia.
      * rewrite (Permutation_length Hip'). simpl. lia.
      * intros Heq. rewrite (Permutation_length Hip') in Heq. simpl in Heq.
        exfalso. apply Hnotfull. apply Hfull. lia.
      * exists dropped. split; [|exact Hdrop'].
        rewrite Hip', Hperm. reflexivity.
  - exists nd. split; [reflexivity|]. split; [|reflexivity].
    unfold keep_inv. repeat split; try assumption.
    exists (x :: dropped). split.
    + rewrite Hperm. apply Permutation_middle.
    + constructor; [|exact Hdrop].
      rewrite <- Hde. rewrite flt_fle in Hlt. apply negb_false_iff in Hlt. exact Hlt.
Qed.

End KeepProps.

Section KeepInvProps.

Context {P : Type} `{Comparable P}.
Variable q : P.

Lemma keep_inv_Permutation (nd : nDists P) (V V' : list P) :
  Permutation V V' -> keep_inv q nd V -> keep_inv q nd V'.
Proof.
  intros HV (Hok & Hlen & Hcap & Hwf & Hsent & Hfull & Hfin & dropped & Hperm & Hdrop).
  unfold keep_inv. repeat split; try assumption.
  exists dropped. split; [|exact Hdrop]. rewrite <- HV. exact Hperm.
Qed.

Lemma keep_inv_drop (nd : nDists P) (V D : list P) :
  keep_inv q nd V ->
  Forall (fun y => fle (key (items nd) 0) (Distance q y) = true) D ->
  keep_inv q nd (D ++ V).
Proof.
  intros (Hok & Hlen & Hcap & Hwf & Hsent & Hfull & Hfin & dropped & Hperm & Hdrop) HD.
  unfold keep_inv. repeat split; try assumption.
  exists (D ++ dropped). split.
  - rewrite Hperm. rewrite !app_assoc.
    apply Permutation_app_tail. apply Permutation_app_comm.
  - apply Forall_app. split; assumption.
Qed.

Lemma Permutation_far_near (L R V : list P) (p : P) :
  Permutation (R ++ L ++ p :: V) ((L ++ p :: R) ++ V).
Proof.
  rewrite <- app_assoc. simpl.
  rewrite (Permutation_app_comm R (L ++ p :: V)). rewrite <- app_assoc. simpl.
  apply Permutation_app_head. apply perm_skip. apply Permutation_app_comm.
Qed.

Lemma Permutation_near_far (L R V : list P) (p : P) :
  Permutation (L ++ R ++ p :: V) ((L ++ p :: R) ++ V).
Proof.
  rewrite <- app_assoc. simpl.
  apply Permutation_app_head. symmetry. apply Permutation_middle.
Qed.

Lemma item_points_length_le (h : list (NodeDist P)) :
  Forall (item_ok q) h -> (length (item_points h) <= length h)%nat.
Proof.
  induction 1 as [|e h He Hh IH]; [simpl; lia|].
  destruct He as [(Hn & _) | (x & Hx)].
  - rewrite (item_points_sentinel e h Hn). simpl. lia.
  - rewrite (item_points_candidate q e x h Hx). simpl. lia.
Qed.

Lemma all_candidates (h : list (NodeDist P)) :
  Forall (item_ok q) h -> length h = length (item_points h) ->
  Forall (fun e => exists x, candidate q e x) h.
Proof.
  induction 1 as [|e h He Hh IH]; intros Hlen; [constructor|].
  pose proof (item_points_length_le h Hh) as Hle.
  destruct He as [(Hn & _) | (x & Hx)].
  - rewrite (item_points_sentinel e h Hn) in Hlen. simpl in Hlen. lia.
  - rewrite (item_points_candidate q e x h Hx) in Hlen. simpl in Hlen.
    constructor; [exists x; exact Hx | apply IH; lia].
Qed.

Lemma nil_record (h : list (NodeDist P)) :
  Forall (item_ok q) h -> length h <> length (item_points h) ->
  exists e, In e h /\ nd_Node e = nil_node /\ Dist e = Inf.
Proof.
  induction 1 as [|e h He Hh IH]; intros Hlen; [simpl in Hlen; congruence|].
  destruct He as [(Hn & Hd) | (x & Hx)].
  - exists e. split; [left; reflexivity | split; assumption].
  - rewrite (item_points_candidate q e x h Hx) in Hlen. simpl in Hlen.
    destruct IH as (e' & He' & Hn' & Hd'); [lia|].
    exists e'. split; [right; exact He' | split; assumption].
Qed.

Lemma finite_points_Permutation (l l' : list P) :
  Permutation l l' -> Permutation (finite_points q l) (finite_points q l').
Proof.
  unfold finite_points.
  induction 1 as [|a l l' Hp IH|a b l|l l' l'' H1 IH1 H2 IH2]; simpl.
  - constructor.
  - destruct (finite q a); [constructor|]; exact IH.
  - destruct (finite q a), (finite q b); try reflexivity. apply perm_swap.
  - etransitivity; eassumption.
Qed.

Lemma finite_points_all (l : list P) :
  Forall (fun y => finite q y = true) l -> finite_points q l = l.
Proof.
  unfold finite_points.
  induction 1 as [|a l Ha Hl IH]; simpl; [reflexivity|]. rewrite Ha, IH. reflexivity.
Qed.

Lemma finite_points_none (l : list P) :
  Forall (fun y => fle Inf (Distance q y) = true) l -> finite_points q l = [].
Proof.
  unfold finite_points.
  induction 1 as [|a l Ha Hl IH]; simpl; [reflexivity|].
  unfold finite at 1. rewrite (fle_Inf _ Ha). simpl. exact IH.
Qed.

Lemma finite_points_length_app (l l' : list P) :
  length (finite_points q (l ++ l')) =
  (length (finite_points q l) + length (finite_points q l'))%nat.
Proof. unfold finite_points. rewrite filter_app, length_app. reflexivity. Qed.

(** While the sentinel is in the buffer its distance [+Inf] is at the head,
    and the buffer holds exactly the points at finite distance met so far. *)
Lemma keep_inv_sentinel (nd : nDists P) (V : list P) :
  keep_inv q nd V ->
  length (items nd) <> length (item_points (items nd)) ->
  key (items nd) 0 = Inf /\
  Permutation (finite_points q V) (item_points (items nd)) /\
  Z.of_nat (length (finite_points q V)) < cap nd /\
  exists e, In e (items nd) /\ nd_Node e = nil_node.
Proof.
  intros (Hok & Hlen & Hcap & Hwf & Hsent & Hfull & Hfin & dropped & Hperm & Hdrop) Hneq.
  destruct (nil_record (items nd) Hwf Hneq) as (e & He & Hnode & Hde).
  pose proof (heap_ok_max (items nd) e Hok He) as Hmax. rewrite Hde in Hmax.
  apply fle_Inf in Hmax.
  assert (HP : Permutation (finite_points q V) (item_points (items nd))).
  { rewrite (finite_points_Permutation _ _ Hperm).
    unfold finite_points. rewrite filter_app.
    fold (finite_points q (item_points (items nd))). fold (finite_points q dropped).
    rewrite (finite_points_all _ Hfin).
    rewrite finite_points_none; [rewrite app_nil_r; reflexivity|].
    rewrite Hmax in Hdrop. exact Hdrop. }
  split; [exact Hmax|]. split; [exact HP|]. split.
  - rewrite (Permutation_length HP).
    pose proof (item_points_length_le (items nd) Hwf). lia.
  - exists e. auto.
Qed.

(** Once the sentinel is gone the buffer is full of candidates, all of them
    at finite distance. *)
Lemma keep_inv_full (nd : nDists P) (V : list P) :
  keep_inv q nd V ->
  length (items nd) = length (item_points (items nd)) ->
  cap nd <= Z.of_nat (length (finite_points q V)).
Proof.
  intros (Hok & Hlen & Hcap & Hwf & Hsent & Hfull & Hfin & dropped & Hperm & Hdrop) Heq.
  rewrite (Permutation_length (finite_points_Permutation _ _ Hperm)).
  rewrite finite_points_length_app, (finite_points_all _ Hfin).
  specialize (Hfull Heq). lia.
Qed.

End KeepInvProps.

Section SearchNProps.

Context {P : Type} `{Comparable P} {Laws : DistanceLaws}.
Variable q : P.
Variable k : Z.
Hypothesis Hq : Dims q = k.

(** [searchN] accounts for every point of the subtree: the ones it skips
    are at least as far as the head of the buffer. *)
Lemma searchN_ok (n : Node P) :
  ordered n -> planes_in k n -> Forall (fun x => Dims x = k) (points n) ->
  forall nd V, keep_inv q nd V ->
    exists nd', searchN n q nd = Ok nd' /\
                keep_inv q nd' (points n ++ V) /\ cap nd' = cap nd.
Proof.
  induction n as [|p pl l IHl r IHr b]; intros Hord Hpl Hdims nd V Hinv.
  - exists nd. simpl. auto.
  - cbn [ordered planes_in points] in Hord, Hpl, Hdims.
    destruct Hord as (Hle & Hgt & Ol & Or).
    destruct Hpl as (Hpl & Pl & Pr).
    apply Forall_app in Hdims. destruct Hdims as (Dl & Dpr).
    apply Forall_cons_iff in Dpr. destruct Dpr as (Dp & Dr).
    cbn [searchN points].
    destruct (Keep_ok q nd V (mkNodeDist (node p pl l r b) (Distance q p)) p Hinv)
      as (nd1 & -> & Hinv1 & Hcap1).
    { exists pl, l, r, b. split; reflexivity. }
    cbn [bind].
    destruct (Compare q p pl <=? 0) eqn:Hc.
    + apply Z.leb_le in Hc.
      destruct (IHl Ol Pl Dl nd1 (p :: V) Hinv1) as (nd2 & -> & Hinv2 & Hcap2).
      cbn [bind].
      assert (Hlen2 : (1 <= length (items nd2))%nat) by apply Hinv2.
      rewrite (Head_nth nd2 Hlen2). cbn [bind]. fold (key (items nd2) 0).
      destruct (fle (Square (Compare q p pl)) (key (items nd2) 0)) eqn:Hfar.
      * destruct (IHr Or Pr Dr nd2 _ Hinv2) as (nd3 & -> & Hinv3 & Hcap3).
        exists nd3. split; [reflexivity|]. split; [|congruence].
        eapply keep_inv_Permutation; [|exact Hinv3]. apply Permutation_far_near.
      * exists nd2. split; [reflexivity|]. split; [|congruence].
        eapply keep_inv_Permutation; [apply Permutation_far_near|].
        apply keep_inv_drop; [exact Hinv2|].
        apply Forall_forall. intros y Hy.
        rewrite Forall_forall in Hgt, Dr.
        eapply prune_far; eauto.
    + apply Z.leb_gt in Hc.
      destruct (IHr Or Pr Dr nd1 (p :: V) Hinv1) as (nd2 & -> & Hinv2 & Hcap2).
      cbn [bind].
      assert (Hlen2 : (1 <= length (items nd2))%nat) by apply Hinv2.
      rewrite (Head_nth nd2 Hlen2). cbn [bind]. fold (key (items nd2) 0).
      destruct (fle (Square (Compare q p pl)) (key (items nd2) 0)) eqn:Hfar.
      * destruct (IHl Ol Pl Dl nd2 _ Hinv2) as (nd3 & -> & Hinv3 & Hcap3).
        exists nd3. split; [reflexivity|]. split; [|congruence].
        eapply keep_inv_Permutation; [|exact Hinv3]. apply Permutation_near_far.
      * exists nd2. split; [reflexivity|]. split; [|congruence].
        eapply keep_inv_Permutation; [apply Permutation_near_far|].
        apply keep_inv_drop; [exact Hinv2|].
        apply Forall_forall. intros y Hy.
        rewrite Forall_forall in Hle, Dl.
        eapply prune_far; eauto.
Qed.

End SearchNProps.

Section NearestNProps.

Context {P : Type} `{Comparable P}.
Variable q : P.

Lemma candidates_points (l : list (NodeDist P)) :
  Forall (fun e => exists x, candidate q e x) l ->
  mapM (fun e => Node_Point (nd_Node e)) l = Ok (item_points l) /\
  map Dist l = map (Distance q) (item_points l).
Proof.
  induction 1 as [|e l (x & Hx) Hl (IHm & IHd)]; [split; reflexivity|].
  rewrite (item_points_candidate q e x l Hx).
  destruct Hx as (pl & lt & rt & b & Hn & Hd).
  split.
  - cbn [mapM]. rewrite Hn. cbn [Node_Point bind]. rewrite IHm. reflexivity.
  - cbn [map]. rewrite Hd, IHd. reflexivity.
Qed.

Lemma candidates_In (l : list (NodeDist P)) (x : P) :
  Forall (fun e => exists x, candidate q e x) l -> In x (item_points l) ->
  exists e, In e l /\ Dist e = Distance q x.
Proof.
  induction 1 as [|e l (y & Hy) Hl IH]; intros Hx; [contradiction|].
  rewrite (item_points_candidate q e y l Hy) in Hx.
  destruct Hx as [<- | Hx].
  - exists e. split; [left; reflexivity|].
    destruct Hy as (? & ? & ? & ? & _ & Hd). exact Hd.
  - destruct (IH Hx) as (e' & He' & Hd'). exists e'. split; [right; exact He' | exact Hd'].
Qed.

Lemma candidates_sorted (l : list (NodeDist P)) :
  Forall (fun e => exists x, candidate q e x) l ->
  StronglySorted (fun a b => fle (Dist a) (Dist b) = true) l ->
  StronglySorted (fun x y => fle (Distance q x) (Distance q y) = true) (item_points l).
Proof.
  induction 1 as [|e l (x & Hx) Hl IH]; intros Hs; [constructor|].
  rewrite (item_points_candidate q e x l Hx).
  apply StronglySorted_inv in Hs. destruct Hs as (Hs & Hall).
  constructor; [apply IH; exact Hs|].
  apply Forall_forall. intros y Hy.
  destruct (candidates_In l y Hl Hy) as (e' & He' & Hd').
  rewrite Forall_forall in Hall. specialize (Hall e' He').
  destruct Hx as (? & ? & ? & ? & _ & Hd).
  rewrite Hd, Hd' in Hall. exact Hall.
Qed.

Lemma StronglySorted_app {A : Type} (R : A -> A -> Prop) (l1 l2 : list A) :
  StronglySorted R l1 -> StronglySorted R l2 ->
  (forall x y, In x l1 -> In y l2 -> R x y) ->
  StronglySorted R (l1 ++ l2).
Proof.
  induction 1 as [|a l1 Hs IH Ha]; intros H2 Hcross; simpl; [exact H2|].
  constructor.
  - apply IH; [exact H2|]. intros x y Hx Hy. apply Hcross; [right; exact Hx | exact Hy].
  - apply Forall_app. split; [exact Ha|].
    apply Forall_forall. intros y Hy. apply Hcross; [left; reflexivity | exact Hy].
Qed.

Lemma StronglySorted_rev {A : Type} (R : A -> A -> Prop) (l : list A) :
  StronglySorted R l -> StronglySorted (fun a b => R b a) (rev l).
Proof.
  induction 1 as [|a l Hs IH Ha]; simpl; [constructor|].
  apply StronglySorted_app; [exact IH | repeat constructor|].
  intros x y Hx Hy. destruct Hy as [<- | []].
  apply in_rev in Hx. rewrite Forall_forall in Ha. apply Ha. exact Hx.
Qed.

Lemma newNDists_inv (n : Z) :
  1 <= n -> keep_inv q (mkNDists [sentinel] n) [].
Proof.
  intros Hn. unfold keep_inv. cbn [items cap].
  split. { intros c Hc. simpl in Hc. lia. }
  split. { simpl. lia. }
  split. { simpl. lia. }
  split. { constructor; [|constructor]. left. split; reflexivity. }
  split. { simpl. lia. }
  split. { simpl. intros Heq. discriminate. }
  split. { constructor. }
  exists []. split; constructor.
Qed.

End NearestNProps.

Lemma sort_near_ok {P : Type} `{Comparable P} : sort_reverse_ok (sort_near (P := P)).
Proof.
  intros nd. destruct (sort_far_ok (items nd)) as (Hp & Hs).
  unfold sort_near. cbn [items cap]. repeat split.
  - rewrite <- Hp at 2. symmetry. apply Permutation_rev.
  - apply (StronglySorted_rev _ _ Hs).
Qed.

Section NearestNCorrect.

Context {P : Type} `{Comparable P} {Laws : DistanceLaws}.
Variable sort_Sort : list (NodeDist P) -> list (NodeDist P).
Hypothesis Hsort : sort_Sort_ok sort_Sort.
Variable q : P.
Variable k : Z.
Hypothesis Hq : Dims q = k.

(** The buffer [searchN] returns from the initial one, on a tree that
    satisfies the invariants and holds at least [n >= 1] points at finite
    distance: [n] candidates at finite distance, none of them farther than
    a point left out. *)
Lemma searchN_result (t : Tree P) (n : Z) :
  ordered (Root t) -> planes_in k (Root t) ->
  Forall (fun x => Dims x = k) (points (Root t)) ->
  1 <= n <= Len (finite_points q (points (Root t))) ->
  exists nd,
    searchN (Root t) q (mkNDists [mkNodeDist nil_node Inf] n) = Ok nd /\
    Len (items nd) = n /\
    Forall (fun e => exists x, candidate q e x) (items nd) /\
    Forall (fun x => finite q x = true) (item_points (items nd)) /\
    exists rest,
      Permutation (points (Root t)) (item_points (items nd) ++ rest) /\
      forall l x y, Permutation l (items nd) -> In x (item_points l) -> In y rest ->
                    fle (Distance q x) (Distance q y) = true.
Proof.
  intros Hord Hpl Hdims Hn.
  destruct (searchN_ok q k Hq (Root t) Hord Hpl Hdims _ [] (newNDists_inv q n ltac:(lia)))
    as (nd & Hsearch & Hinv & Hcapnd).
  unfold sentinel in Hsearch.
  cbn [cap] in Hcapnd. rewrite app_nil_r in Hinv.
  assert (Hnos : length (items nd) = length (item_points (items nd))).
  { destruct (Nat.eq_dec (length (items nd)) (length (item_points (items nd))))
      as [Heq | Hneq]; [exact Heq | exfalso].
    destruct (keep_inv_sentinel q nd _ Hinv Hneq) as (_ & _ & Hlt & _).
    unfold Len in Hn. lia. }
  destruct Hinv as (Hok & Hlen & Hcap & Hwf & Hsent & Hfull & Hfin & dropped & Hperm & Hdrop).
  specialize (Hfull Hnos).
  pose proof (all_candidates q (items nd) Hwf Hnos) as Hcands.
  exists nd. split; [exact Hsearch|]. split; [unfold Len; lia|]. split; [exact Hcands|].
  split; [exact Hfin|].
  exists dropped. split; [exact Hperm|].
  intros l x y Hl Hx Hy.
  apply (Permutation_in _ (item_points_Permutation _ _ Hl)) in Hx.
  destruct (candidates_In q (items nd) x Hcands Hx) as (e & He & Hde).
  pose proof (heap_ok_max (items nd) e Hok He) as Hmax. rewrite Hde in Hmax.
  rewrite Forall_forall in Hdrop. specialize (Hdrop y Hy).
  exact (fle_trans _ _ _ Hmax Hdrop).
Qed.

(** On such a tree [NearestN] returns [n] stored points in non-decreasing
    order of distance, with their distances, and no point left out is closer
    than a returned one. *)
Lemma NearestN_kd (t : Tree P) (n : Z) :
  ordered (Root t) -> planes_in k (Root t) ->
  Forall (fun x => Dims x = k) (points (Root t)) ->
  1 <= n <= Len (finite_points q (points (Root t))) ->
  exists ns,
    NearestN sort_Sort t n q = Ok (ns, map (Distance q) ns) /\
    Len ns = n /\
    Forall (fun x => finite q x = true) ns /\
    StronglySorted (fun x y => fle (Distance q x) (Distance q y) = true) ns /\
    exists rest,
      Permutation (points (Root t)) (ns ++ rest) /\
      forall x y, In x ns -> In y rest -> fle (Distance q x) (Distance q y) = true.
Proof.
  intros Hord Hpl Hdims Hn.
  destruct (searchN_result t n Hord Hpl Hdims Hn)
    as (nd & Hsearch & Hlen & Hcands & Hfin & dropped & Hperm & Hbelow).
  unfold NearestN.
  assert (Hroot : is_nil (Root t) = false).
  { destruct (Root t); [unfold Len in Hn; simpl in Hn; lia | reflexivity]. }
  rewrite Hroot. unfold newNDists.
  replace (1 <=? n) with true by (symmetry; apply Z.leb_le; lia).
  cbn [bind]. rewrite Hsearch. cbn [bind].
  destruct (Z.eqb_spec (Len (items nd)) 1) as [Hone | Hmany].
  - destruct (items nd) as [|e [|e' rest']] eqn:Hitems;
      unfold Len in Hone; simpl in Hone; try lia.
    cbn [Index Len length]. simpl.
    apply Forall_cons_iff in Hcands. destruct Hcands as ((x & Hx) & _).
    pose proof (item_points_candidate q e x [] Hx) as Hip.
    change (item_points []) with (@nil P) in Hip.
    rewrite Hip in Hfin.
    destruct Hx as (pl & lt & rt & b & Hnode & Hde).
    rewrite Hnode. exists [x].
    split; [rewrite Hde; reflexivity|].
    split; [unfold Len in *; simpl in *; lia|].
    split; [exact Hfin|].
    split; [repeat constructor|].
    exists dropped. split.
    + rewrite Hperm. rewrite Hip. reflexivity.
    + intros x' y Hx' Hy. apply (Hbelow [e] x' y); [reflexivity | | exact Hy].
      rewrite Hip. exact Hx'.
  - destruct (Hsort (items nd)) as (Hsperm & Hssorted).
    set (s := rev (sort_Sort (items nd))).
    assert (Hs : Permutation s (items nd)).
    { subst s. rewrite <- Hsperm at 2. symmetry. apply Permutation_rev. }
    assert (Hscand : Forall (fun e => exists x, candidate q e x) s).
    { eapply Permutation_Forall; [symmetry; exact Hs | exact Hcands]. }
    destruct (candidates_points q s Hscand) as (HmapM & Hdist).
    rewrite HmapM. cbn [bind]. rewrite Hdist.
    exists (item_points s).
    split; [reflexivity|].
    split.
    { unfold Len in *. rewrite (Permutation_length (item_points_Permutation _ _ Hs)).
      destruct (candidates_points q (items nd) Hcands) as (_ & Hd).
      apply (f_equal (@length _)) in Hd. rewrite !length_map in Hd. lia. }
    split.
    { eapply Permutation_Forall; [|exact Hfin].
      symmetry. apply item_points_Permutation. exact Hs. }
    split.
    { apply candidates_sorted; [exact Hscand|].
      subst s. apply (StronglySorted_rev _ _ Hssorted). }
    exists dropped. split.
    + rewrite Hperm. apply Permutation_app_tail.
      symmetry. apply item_points_Permutation. exact Hs.
    + intros x y Hx Hy. apply (Hbelow s x y); assumption.
Qed.

End NearestNCorrect.

(** X15.  On a tree built from and grown by [k]-dimensional points that
    holds at least [n >= 1] points at finite distance from the query,
    [NearestN] returns exactly [n] stored points with their distances, all
    finite, in non-decreasing order of distance, and every stored point it
    leaves out is at least as far from the query as every point it
    returns.  The distances are the float64 values [Distance] returns. *)
Theorem NearestN_reachable {P : Type} `{Comparable P} {Laws : DistanceLaws}
        (Pivot : list P -> Dim -> list P * Z)
        (Bounder : option (list P -> option (Bounding P)))
        (HPivot : Pivot_ok Pivot)
        (sort_Sort : list (NodeDist P) -> list (NodeDist P))
        (Hsort : sort_Sort_ok sort_Sort)
        (k : Z) (Hk : 1 <= k < 2 ^ 63) (t : Tree P) (n : Z) (q : P) :
  reachable_dims Pivot Bounder k t -> Dims q = k ->
  1 <= n <= Len (finite_points q (points (Root t))) ->
  exists ns,
    NearestN sort_Sort t n q = Ok (ns, map (Distance q) ns) /\
    Len ns = n /\
    Forall (fun x => finite q x = true) ns /\
    StronglySorted (fun x y => fle (Distance q x) (Distance q y) = true) ns /\
    exists rest,
      Permutation (points (Root t)) (ns ++ rest) /\
      forall x y, In x ns -> In y rest -> fle (Distance q x) (Distance q y) = true.
Proof.
  intros Hreach Hq Hn.
  destruct (reachable_dims_invariants Pivot Bounder HPivot k Hk t Hreach)
    as (Hord & Hcyc & Hdims).
  apply (NearestN_kd sort_Sort Hsort q k Hq t n Hord); try assumption.
  eapply planes_cycle_in; [| |exact Hcyc]; lia.
Qed.

Lemma NearestN_reachable_witness :
  exists ns,
    NearestN sort_far FloatExamples.grown 3 FloatExamples.query =
    Ok (ns, map (Distance FloatExamples.query) ns) /\
    Len ns = 3 /\
    Forall (fun x => finite FloatExamples.query x = true) ns /\
    StronglySorted (fun x y => fle (Distance FloatExamples.query x)
                                   (Distance FloatExamples.query y) = true) ns /\
    exists rest,
      Permutation (points (Root FloatExamples.grown)) (ns ++ rest) /\
      forall x y, In x ns -> In y rest ->
                  fle (Distance FloatExamples.query x)
                      (Distance FloatExamples.query y) = true.
Proof.
  apply (NearestN_reachable pivot_first None pivot_first_ok sort_far sort_far_ok 2).
  - split; [lia | reflexivity].
  - exact reachable_dims_float_grown.
  - reflexivity.
  - split; vm_compute; discriminate.
Defined.

(** The three points nearest to (9, 2) in the tree of seven points, and a
    tree in which only one of the two points is at finite distance. *)
Example NearestN_scenario :
  NearestN sort_far FloatExamples.grown 3 FloatExamples.query =
    Ok ([F64.Vec [8; 1]; F64.Vec [7; 2]; F64.Vec [9; 6]], [Fin 2; Fin 4; Fin 16]) /\
  NearestN sort_far FloatExamples.mixed_tree 1 FloatExamples.origin =
    Ok ([F64.Vec [3]], [Fin 9]).
Proof. split; vm_compute; reflexivity. Qed.

(** X16.  With the methods of [nDists], [heap.Push] and [heap.Pop] keep the
    buffer a max-heap on the distance: [Push] adds the record, [Pop] removes
    and returns the first record, and the first record of a heap is never
    closer than another record.  Neither panics on a heap. *)
Theorem nDists_heap {P : Type} `{Comparable P} (h : list (NodeDist P)) :
  heap_ok h ->
  (forall x, exists h', heap_Push h x = Ok h' /\ Permutation h' (x :: h) /\ heap_ok h') /\
  (forall e, In e h -> fle (Dist e) (key h 0) = true) /\
  (h <> [] ->
   exists h', heap_Pop h = Ok (nth 0 h sentinel, h') /\
              Permutation (nth 0 h sentinel :: h') h /\ heap_ok h').
Proof.
  intros Hok. repeat split.
  - intros x. apply heap_Push_ok. exact Hok.
  - intros e He. apply heap_ok_max; assumption.
  - intros Hne. destruct (heap_Pop_ok h Hne Hok) as (h' & HPop & HP & Hok' & _).
    exists h'. auto.
Qed.

Lemma nDists_heap_witness :
  (forall x, exists h',
      heap_Push [mkNodeDist (nil_node (P := Points.point)) (Fin 5);
                 mkNodeDist nil_node (Fin 2); mkNodeDist nil_node (Fin 3)] x = Ok h' /\
      Permutation h' (x :: [mkNodeDist nil_node (Fin 5);
                            mkNodeDist nil_node (Fin 2); mkNodeDist nil_node (Fin 3)]) /\
      heap_ok h') /\
  (forall e, In e [mkNodeDist (nil_node (P := Points.point)) (Fin 5);
                   mkNodeDist nil_node (Fin 2); mkNodeDist nil_node (Fin 3)] ->
             fle (Dist e) (key [mkNodeDist (nil_node (P := Points.point)) (Fin 5);
                                mkNodeDist nil_node (Fin 2); mkNodeDist nil_node (Fin 3)] 0)
             = true) /\
  ([mkNodeDist (nil_node (P := Points.point)) (Fin 5);
    mkNodeDist nil_node (Fin 2); mkNodeDist nil_node (Fin 3)] <> [] ->
   exists h',
     heap_Pop [mkNodeDist (nil_node (P := Points.point)) (Fin 5);
               mkNodeDist nil_node (Fin 2); mkNodeDist nil_node (Fin 3)] =
     Ok (nth 0 [mkNodeDist (nil_node (P := Points.point)) (Fin 5);
                mkNodeDist nil_node (Fin 2); mkNodeDist nil_node (Fin 3)] sentinel, h') /\
     Permutation (nth 0 [mkNodeDist (nil_node (P := Points.point)) (Fin 5);
                         mkNodeDist nil_node (Fin 2); mkNodeDist nil_node (Fin 3)] sentinel
                      :: h')
                 [mkNodeDist (nil_node (P := Points.point)) (Fin 5);
                  mkNodeDist nil_node (Fin 2); mkNodeDist nil_node (Fin 3)] /\
     heap_ok h').
Proof.
  apply (nDists_heap [mkNodeDist (nil_node (P := Points.point)) (Fin 5);
                      mkNodeDist nil_node (Fin 2); mkNodeDist nil_node (Fin 3)]).
  intros c Hc. simpl in Hc.
  assert (Hc' : c = 1%nat \/ c = 2%nat) by lia.
  destruct Hc' as [-> | ->]; reflexivity.
Defined.

(** X17.  With an [nDists] of capacity [n] as the keeper, on a tree built
    from and grown by [k]-dimensional points that holds at least [n >= 1]
    points at finite distance from the query, [NearestSet] leaves in the
    keeper the records of [n] stored points, in non-decreasing order of
    distance, and every stored point left out is at least as far from the
    query as every point kept.  The distances are the float64 values
    [Distance] returns. *)
Theorem NearestSet_nDists {P : Type} `{Comparable P} {Laws : DistanceLaws}
        (Pivot : list P -> Dim -> list P * Z)
        (Bounder : option (list P -> option (Bounding P)))
        (HPivot : Pivot_ok Pivot)
        (sort_reverse : nDists P -> nDists P)
        (Hsort : sort_reverse_ok sort_reverse)
        (k : Z) (Hk : 1 <= k < 2 ^ 63) (t : Tree P) (n : Z) (q : P) :
  reachable_dims Pivot Bounder k t -> Dims q = k ->
  1 <= n <= Len (finite_points q (points (Root t))) ->
  exists nd,
    NearestSet nDists_Keeper sort_reverse t (mkNDists [mkNodeDist nil_node Inf] n) q = Ok nd /\
    Len (items nd) = n /\
    map Dist (items nd) = map (Distance q) (item_points (items nd)) /\
    StronglySorted (fun x y => fle (Distance q x) (Distance q y) = true)
                   (item_points (items nd)) /\
    exists rest,
      Permutation (points (Root t)) (item_points (items nd) ++ rest) /\
      forall x y, In x (item_points (items nd)) -> In y rest ->
                  fle (Distance q x) (Distance q y) = true.
Proof.
  intros Hreach Hq Hn.
  destruct (reachable_dims_invariants Pivot Bounder HPivot k Hk t Hreach)
    as (Hord & Hcyc & Hdims).
  assert (Hpl : planes_in k (Root t)).
  { eapply planes_cycle_in; [| |exact Hcyc]; lia. }
  destruct (searchN_result q k Hq t n Hord Hpl Hdims Hn)
    as (nd & Hsearch & Hlen & Hcands & _ & rest & Hperm & Hbelow).
  unfold NearestSet.
  assert (Hroot : is_nil (Root t) = false).
  { destruct (Root t); [unfold Len in Hn; simpl in Hn; lia | reflexivity]. }
  rewrite Hroot, searchSet_searchN, Hsearch. cbn [bind Keeper_Len nDists_Keeper].
  unfold nd_Len.
  destruct (Z.eqb_spec (Len (items nd)) 1) as [Hone | Hmany].
  - exists nd. split; [reflexivity|]. split; [exact Hlen|].
    split; [apply (candidates_points q _ Hcands)|]. split.
    + destruct (items nd) as [|e [|e' l']] eqn:Hitems;
        unfold Len in Hone; simpl in Hone; try lia.
      apply Forall_cons_iff in Hcands. destruct Hcands as ((x & Hx) & _).
      rewrite (item_points_candidate q e x [] Hx). repeat constructor.
    + exists rest. split; [exact Hperm|].
      intros x y Hx Hy. apply (Hbelow (items nd) x y); [reflexivity | exact Hx | exact Hy].
  - destruct (Hsort nd) as (_ & Hsperm & Hssorted).
    assert (Hscand : Forall (fun e => exists x, candidate q e x) (items (sort_reverse nd))).
    { eapply Permutation_Forall; [symmetry; exact Hsperm | exact Hcands]. }
    exists (sort_reverse nd). split; [reflexivity|]. split.
    { unfold Len in *. rewrite (Permutation_length Hsperm). exact Hlen. }
    split; [apply (candidates_points q _ Hscand)|]. split.
    + apply candidates_sorted; assumption.
    + exists rest. split.
      * rewrite Hperm. apply Permutation_app_tail.
        symmetry. apply item_points_Permutation. exact Hsperm.
      * intros x y Hx Hy. apply (Hbelow _ x y Hsperm Hx Hy).
Qed.

Lemma NearestSet_nDists_witness :
  exists nd,
    NearestSet nDists_Keeper sort_near FloatExamples.grown
               (mkNDists [mkNodeDist nil_node Inf] 3) FloatExamples.query = Ok nd /\
    Len (items nd) = 3 /\
    map Dist (items nd) =
      map (Distance FloatExamples.query) (item_points (items nd)) /\
    StronglySorted (fun x y => fle (Distance FloatExamples.query x)
                                   (Distance FloatExamples.query y) = true)
                   (item_points (items nd)) /\
    exists rest,
      Permutation (points (Root FloatExamples.grown)) (item_points (items nd) ++ rest) /\
      forall x y, In x (item_points (items nd)) -> In y rest ->
                  fle (Distance FloatExamples.query x)
                      (Distance FloatExamples.query y) = true.
Proof.
  apply (NearestSet_nDists pivot_first None pivot_first_ok sort_near sort_near_ok 2).
  - split; [lia | reflexivity].
  - exact reachable_dims_float_grown.
  - reflexivity.
  - split; vm_compute; discriminate.
Defined.

(** ** [NearestN] beyond the points at finite distance *)

Section NearestNBeyond.

Context {P : Type} `{Comparable P}.
Variable q : P.

Lemma mapM_Node_Point_nil (l : list (NodeDist P)) (e : NodeDist P) :
  In e l -> nd_Node e = nil_node ->
  mapM (fun x => Node_Point (nd_Node x)) l = Panic.
Proof.
  induction l as [|a l IH]; intros He Hn; [contradiction|].
  cbn [mapM]. destruct He as [-> | He].
  - rewrite Hn. reflexivity.
  - rewrite (IH He Hn). destruct (nd_Node a); reflexivity.
Qed.

Lemma finite_points_near_le (L R V : list P) (p : P) :
  (length (finite_points q (L ++ p :: V)) <=
   length (finite_points q ((L ++ p :: R) ++ V)))%nat.
Proof.
  rewrite !finite_points_length_app.
  change (p :: V) with ([p] ++ V). change (p :: R) with ([p] ++ R).
  rewrite !finite_points_length_app. lia.
Qed.

(** As long as fewer points are at finite distance than the buffer can
    hold, the sentinel stays at the head, nothing is pruned, and [searchN]
    visits the whole subtree, whatever its shape. *)
Lemma searchN_short (n : Node P) :
  forall nd V, keep_inv q nd V ->
    Z.of_nat (length (finite_points q (points n ++ V))) < cap nd ->
    exists nd', searchN n q nd = Ok nd' /\
                keep_inv q nd' (points n ++ V) /\ cap nd' = cap nd.
Proof.
  induction n as [|p pl l IHl r IHr b]; intros nd V Hinv Hshort.
  - exists nd. simpl. auto.
  - cbn [searchN points] in *.
    destruct (Keep_ok q nd V (mkNodeDist (node p pl l r b) (Distance q p)) p Hinv)
      as (nd1 & -> & Hinv1 & Hcap1).
    { exists pl, l, r, b. split; reflexivity. }
    cbn [bind].
    assert (Hhead : forall nd2 W,
               keep_inv q nd2 W -> cap nd2 = cap nd ->
               (length (finite_points q W) <=
                length (finite_points q ((points l ++ p :: points r) ++ V)))%nat ->
               Head nd2 = Ok (nth 0 (items nd2) sentinel) /\
               fle (Square (Compare q p pl)) (Dist (nth 0 (items nd2) sentinel)) = true).
    { intros nd2 W Hinv2 Hcap2 HW.
      assert (Hlen2 : (1 <= length (items nd2))%nat) by apply Hinv2.
      split; [apply Head_nth; exact Hlen2|].
      destruct (Nat.eq_dec (length (items nd2)) (length (item_points (items nd2))))
        as [Heq | Hneq].
      - pose proof (keep_inv_full q nd2 W Hinv2 Heq). lia.
      - destruct (keep_inv_sentinel q nd2 W Hinv2 Hneq) as (Hkey & _).
        unfold key in Hkey. rewrite Hkey.
        destruct (Square (Compare q p pl)); reflexivity. }
    destruct (Compare q p pl <=? 0).
    + destruct (IHl nd1 (p :: V) Hinv1) as (nd2 & -> & Hinv2 & Hcap2).
      { pose proof (finite_points_near_le (points l) (points r) V p). lia. }
      cbn [bind].
      destruct (Hhead nd2 _ Hinv2 ltac:(congruence)
                      (finite_points_near_le (points l) (points r) V p))
        as (HH & HF).
      rewrite HH. cbn [bind]. rewrite HF.
      destruct (IHr nd2 _ Hinv2) as (nd3 & -> & Hinv3 & Hcap3).
      { rewrite (Permutation_length
                   (finite_points_Permutation q _ _
                      (Permutation_far_near (points l) (points r) V p))). lia. }
      exists nd3. split; [reflexivity|]. split; [|congruence].
      eapply keep_inv_Permutation; [|exact Hinv3]. apply Permutation_far_near.
    + assert (Hle : (length (finite_points q (points r ++ p :: V)) <=
                     length (finite_points q ((points l ++ p :: points r) ++ V)))%nat).
      { rewrite <- app_assoc. cbn [app]. rewrite !finite_points_length_app.
        change (p :: points r ++ V) with ([p] ++ points r ++ V).
        change (p :: V) with ([p] ++ V).
        rewrite !finite_points_length_app. lia. }
      destruct (IHr nd1 (p :: V) Hinv1) as (nd2 & -> & Hinv2 & Hcap2); [lia|].
      cbn [bind].
      destruct (Hhead nd2 _ Hinv2 ltac:(congruence) Hle) as (HH & HF).
      rewrite HH. cbn [bind]. rewrite HF.
      destruct (IHl nd2 _ Hinv2) as (nd3 & -> & Hinv3 & Hcap3).
      { rewrite (Permutation_length
                   (finite_points_Permutation q _ _
                      (Permutation_near_far (points l) (points r) V p))). lia. }
      exists nd3. split; [reflexivity|]. split; [|congruence].
      eapply keep_inv_Permutation; [|exact Hinv3]. apply Permutation_near_far.
Qed.

End NearestNBeyond.

(** X18.  On a non-empty tree, whatever its shape, when [n >= 1] exceeds
    the number of stored points at finite distance from the query, the
    sentinel is still in the buffer when [searchN] returns.  If it is alone
    there (no stored point is at finite distance), [NearestN] returns no
    point and the one distance [+Inf]; otherwise [NearestN] panics, reading
    the point of the sentinel, which holds no node.  In particular
    [NearestN] panics when [n] exceeds the number of stored points and all
    of them are at finite distance. *)
Theorem NearestN_beyond_size {P : Type} `{Comparable P}
        (sort_Sort : list (NodeDist P) -> list (NodeDist P))
        (Hsort : forall l, Permutation (sort_Sort l) l)
        (t : Tree P) (n : Z) (q : P) :
  Root t <> nil_node -> 1 <= n ->
  Len (finite_points q (points (Root t))) < n ->
  NearestN sort_Sort t n q =
    if Len (finite_points q (points (Root t))) =? 0 then Ok ([], [Inf]) else Panic.
Proof.
  intros Hne Hn Hshort.
  unfold NearestN.
  assert (Hroot : is_nil (Root t) = false).
  { destruct (Root t); [congruence | reflexivity]. }
  rewrite Hroot. unfold newNDists.
  replace (1 <=? n) with true by (symmetry; apply Z.leb_le; lia).
  cbn [bind].
  destruct (searchN_short q (Root t) (mkNDists [sentinel] n) []
                          (newNDists_inv q n Hn))
    as (nd & Hsearch & Hinv & Hcapnd).
  { cbn [cap]. rewrite app_nil_r. unfold Len in Hshort. exact Hshort. }
  unfold sentinel in Hsearch. rewrite Hsearch. cbn [bind].
  cbn [cap] in Hcapnd. rewrite app_nil_r in Hinv.
  assert (Hneq : length (items nd) <> length (item_points (items nd))).
  { intros Heq. pose proof (keep_inv_full q nd _ Hinv Heq). unfold Len in Hshort. lia. }
  destruct (keep_inv_sentinel q nd _ Hinv Hneq) as (_ & HP & _ & e & He & Hnode).
  destruct Hinv as (Hok & Hlen & Hcap & Hwf & Hsent & Hfull & Hfin & dropped & Hperm & Hdrop).
  pose proof (item_points_length_le q (items nd) Hwf) as Hle.
  pose proof (Permutation_length HP) as Hsize.
  unfold Len in *.
  destruct (Z.eqb_spec (Z.of_nat (length (finite_points q (points (Root t))))) 0)
    as [Hzero | Hsome].
  - replace (Z.of_nat (length (items nd)) =? 1) with true
      by (symmetry; apply Z.eqb_eq; lia).
    destruct (items nd) as [|a [|a' rest]] eqn:Hitems; simpl in Hlen, Hsent, Hsize; try lia.
    destruct He as [<- | []].
    cbn [Index Len length]. simpl. rewrite Hnode. reflexivity.
  - replace (Z.of_nat (length (items nd)) =? 1) with false
      by (symmetry; apply Z.eqb_neq; lia).
    rewrite (mapM_Node_Point_nil (rev (sort_Sort (items nd))) e); [reflexivity | | exact Hnode].
    apply -> in_rev. eapply Permutation_in; [symmetry; apply Hsort | exact He].
Qed.

Lemma NearestN_beyond_size_witness :
  NearestN sort_far FloatExamples.mixed_tree 2 FloatExamples.origin =
    if Len (finite_points FloatExamples.origin (points (Root FloatExamples.mixed_tree))) =? 0
    then Ok ([], [Inf]) else Panic.
Proof.
  apply (NearestN_beyond_size sort_far (fun l => proj1 (sort_far_ok l))
           FloatExamples.mixed_tree 2 FloatExamples.origin).
  - discriminate.
  - lia.
  - vm_compute. reflexivity.
Defined.

(** Both outcomes beyond the points at finite distance: the tree that holds
    [2 ^ 700] and 3 has one point at finite distance from the origin and
    [NearestN 2] panics; the tree that holds [2 ^ 700] alone has none, and
    [NearestN] returns no point for every [n >= 1]. *)
Example NearestN_overflows :
  NearestN sort_far FloatExamples.mixed_tree 2 FloatExamples.origin = Panic /\
  NearestN sort_far FloatExamples.huge_tree 1 FloatExamples.origin = Ok ([], [Inf]) /\
  NearestN sort_far FloatExamples.huge_tree 2 FloatExamples.origin = Ok ([], [Inf]).
Proof. repeat split; vm_compute; reflexivity. Qed.
